(** * DeckLink consumer: a shallow embedding of
      modules/decklink/consumer/decklink_consumer.cpp

    Part I holds the definitions, in the order of the C++ file:
    - [MachineInt] : the fixed-width integers of the program;
    - [Vector]     : the [std::vector] and [boost::circular_buffer] calls;
    - [Core]       : [core::const_frame] and [core::video_format_desc];
    - [Memshfl]    : [aligned_memshfl];
    - [Frame]      : [class decklink_frame] (the frame adapter);
    - [Tbb]        : [tbb::concurrent_bounded_queue], as far as it is used;
    - [Consumer]   : [struct decklink_consumer] (the scheduling engine).
    Part II holds the properties.

    Threads are not modelled: every member function is one atomic step on
    the object's state.  A callback that parks inside the blocking
    [tbb::concurrent_bounded_queue::pop] is modelled by the outcome
    [Blocked], which carries the state at the moment the thread parks.
    Division follows [Z.div]; a division by zero traps in C++, so the
    value the model gives there stands for nothing: what is stated of the
    callbacks returning assumes a format with channels and a cadence
    ([Paths.audible]). *)

From Stdlib Require Import ZArith List Bool Lia QArith.
From Stdlib.Strings Require Import Byte.
From Stdlib.Strings Require String.
From Stdlib.Sorting Require Permutation.
Import ListNotations.

Local Open Scope Z_scope.

(* ================================================================== *)
(** * Part I: the program *)

(* ------------------------------------------------------------------ *)
(** ** Fixed-width integers *)

Module MachineInt.

(** Two's complement reading of the low [w] bits of [x]. *)
Definition wrap_signed (w x : Z) : Z :=
  (x + 2 ^ (w - 1)) mod 2 ^ w - 2 ^ (w - 1).

(** [int], [long long], [size_t] and [ULONG] of the target. *)
Definition to_int (x : Z) : Z := wrap_signed 32 x.
Definition to_long_long (x : Z) : Z := wrap_signed 64 x.
Definition to_size_t (x : Z) : Z := x mod 2 ^ 64.
Definition to_ulong (x : Z) : Z := x mod 2 ^ 32.

Definition INT_MAX : Z := 2 ^ 31 - 1.
Definition INT_MIN : Z := - 2 ^ 31.

Definition in_int (x : Z) : Prop := INT_MIN <= x <= INT_MAX.
Definition in_long_long (x : Z) : Prop := - 2 ^ 63 <= x <= 2 ^ 63 - 1.

End MachineInt.

(* ------------------------------------------------------------------ *)
(** ** COM result codes *)

Definition HRESULT := Z.
Definition S_OK : HRESULT := 0.
Definition S_FALSE : HRESULT := 1.
Definition E_FAIL : HRESULT := MachineInt.to_int 0x80004005.
Definition E_NOINTERFACE : HRESULT := MachineInt.to_int 0x80004002.
Definition FAILED (hr : HRESULT) : bool := hr <? 0.
Definition SUCCEEDED (hr : HRESULT) : bool := 0 <=? hr.

(** [BOOL] of the driver API: an [int], any non-zero value is true. *)
Definition BOOL := Z.
Definition TRUE : BOOL := 1.
Definition FALSE : BOOL := 0.
Definition truthy (b : BOOL) : bool := negb (b =? 0).

(* ------------------------------------------------------------------ *)
(** ** Containers of the standard library and of boost *)

Module Vector.

(** [v.resize(n, x)]: truncates, or pads with copies of [x]. *)
Definition resize {A} (n : nat) (x : A) (v : list A) : list A :=
  firstn n v ++ repeat x (n - length v).

(** [boost::circular_buffer::push_back] on a buffer of capacity [cap]:
    a full buffer drops its oldest element, a buffer of capacity zero
    stores nothing. *)
Definition circular_push_back {A} (cap : nat) (x : A) (v : list A) : list A :=
  match cap with
  | O => v
  | S _ => if (length v <? cap)%nat then v ++ [x] else tl v ++ [x]
  end.

End Vector.

(* ------------------------------------------------------------------ *)
(** ** Core types borrowed by the consumer *)

Module Core.

(** [core::const_frame]: an immutable snapshot of image bytes and of
    interleaved 32-bit audio samples. *)
Record const_frame : Type := {
  image_data : list byte;
  audio_data : list Z
}.

(** [core::const_frame::empty()]. *)
Definition empty : const_frame := {| image_data := []; audio_data := [] |}.

(** [core::video_format_desc], the fields the consumer reads.  The header
    that declares it is not among the sources at hand; the fields are
    taken with the types their uses in decklink_consumer.cpp fix
    ([size] is compared against a [static_cast<int>]). *)
Record video_format_desc : Type := {
  width : Z;
  height : Z;
  fps : Q;
  time_scale : Z;
  duration : Z;
  size : Z;
  audio_sample_rate : Z;
  audio_channels : Z;
  audio_cadence : list Z
}.

End Core.

(* ------------------------------------------------------------------ *)
(** ** common/memshfl.h *)

Module Memshfl.

(** The four bytes of a 32-bit mask word, lowest address first. *)
Definition word_bytes (m : Z) : list Z :=
  [ Z.land m 255;
    Z.land (Z.shiftr m 8) 255;
    Z.land (Z.shiftr m 16) 255;
    Z.land (Z.shiftr m 24) 255 ].

(** The 16 byte selectors of one 128-bit lane; [m4] is the lowest word. *)
Definition mask_lanes (m1 m2 m3 m4 : Z) : list Z :=
  word_bytes m4 ++ word_bytes m3 ++ word_bytes m2 ++ word_bytes m1.

(** Destination byte [i]: the source byte of the same 16-byte lane that
    selector [i mod 16] names (its low four bits), or zero when the
    selector has its top bit set. *)
Definition shuffle_byte (sel : list Z) (source : list byte) (i : nat) : byte :=
  let s := nth (i mod 16) sel 0 in
  if Z.testbit s 7 then x00
  else nth (16 * (i / 16) + Z.to_nat (Z.land s 15)) source x00.

(** Modelled from the spec: [aligned_memshfl] (common/memshfl.h) is not among
    the sources at hand.  The spec describes what the call in [GetBytes]
    produces as "a byte-shuffled buffer where every pixel's 4 lanes are
    replaced by its alpha byte"; the routine is modelled as the byte
    shuffle that the four mask words of the call select, written over the
    first [count] bytes of [dest]. *)
Definition aligned_memshfl (dest source : list byte) (count : nat)
    (m1 m2 m3 m4 : Z) : list byte :=
  map (shuffle_byte (mask_lanes m1 m2 m3 m4) source) (seq 0 count)
  ++ skipn count dest.

End Memshfl.

(* ------------------------------------------------------------------ *)
(** ** class decklink_frame *)

Module Frame.

Import Core.

(** Where [*buffer] points after [GetBytes]. *)
Inductive buffer_ptr : Type :=
| data_ptr    (* data_.data() *)
| image_ptr.  (* frame_.image_data().begin() *)

(** The adapter.  [shuffles_] is a ghost counter of the calls made to
    [aligned_memshfl]; nothing reads it. *)
Record decklink_frame : Type := {
  ref_count_ : Z;
  frame_ : const_frame;
  format_desc_ : video_format_desc;
  key_only_ : bool;
  data_ : list byte;
  shuffles_ : nat
}.

(** The constructor: [data_] starts empty, [ref_count_ = 0]. *)
Definition new (frame : const_frame) (format_desc : video_format_desc)
    (key_only : bool) : decklink_frame :=
  {| ref_count_ := 0;
     frame_ := frame;
     format_desc_ := format_desc;
     key_only_ := key_only;
     data_ := [];
     shuffles_ := 0 |}.

Definition set_data (d : list byte) (n : nat) (fr : decklink_frame)
  : decklink_frame :=
  {| ref_count_ := ref_count_ fr;
     frame_ := frame_ fr;
     format_desc_ := format_desc_ fr;
     key_only_ := key_only_ fr;
     data_ := d;
     shuffles_ := n |}.

Definition GetWidth (fr : decklink_frame) : Z := width (format_desc_ fr).
Definition GetHeight (fr : decklink_frame) : Z := height (format_desc_ fr).
Definition GetRowBytes (fr : decklink_frame) : Z :=
  MachineInt.to_int (width (format_desc_ fr) * 4).

(** [frame_.image_data().size()]. *)
Definition image_size (fr : decklink_frame) : Z :=
  Z.of_nat (length (image_data (frame_ fr))).

(** [audio_data()]. *)
Definition audio_data (fr : decklink_frame) : list Z :=
  Core.audio_data (frame_ fr).

(** [GetBytes]: the result code, where [*buffer] points (if it was set)
    and the adapter afterwards.  [data_.resize(format_desc_.size, 0)]
    converts the [int] to [size_t]; a negative size asks for more than
    [max_size()] elements, the vector throws, and the handler returns
    [E_FAIL]. *)
Definition GetBytes (fr : decklink_frame)
  : HRESULT * option buffer_ptr * decklink_frame :=
  if negb (MachineInt.to_int (image_size fr) =? size (format_desc_ fr)) then
    if size (format_desc_ fr) <? 0 then (E_FAIL, None, fr)
    else
      let d := Vector.resize (Z.to_nat (size (format_desc_ fr))) x00
                 (data_ fr) in
      (S_OK, Some data_ptr, set_data d (shuffles_ fr) fr)
  else if key_only_ fr then
    match data_ fr with
    | [] =>
        let n := length (image_data (frame_ fr)) in
        let d := Vector.resize n x00 (data_ fr) in
        let d' := Memshfl.aligned_memshfl d (image_data (frame_ fr)) n
                    0x0F0F0F0F 0x0B0B0B0B 0x07070707 0x03030303 in
        (S_OK, Some data_ptr, set_data d' (S (shuffles_ fr)) fr)
    | _ :: _ => (S_OK, Some data_ptr, fr)
    end
  else (S_OK, Some image_ptr, fr).

(** The bytes the driver reads through the pointer. *)
Definition bytes_at (fr : decklink_frame) (p : option buffer_ptr)
  : list byte :=
  match p with
  | Some data_ptr => data_ fr
  | Some image_ptr => image_data (frame_ fr)
  | None => []
  end.

(** The bytes handed out by one call of [GetBytes]. *)
Definition GetBytes_bytes (fr : decklink_frame) : list byte :=
  bytes_at (snd (GetBytes fr)) (snd (fst (GetBytes fr))).

(** The adapter after [n] calls of [GetBytes]. *)
Fixpoint after_calls (n : nat) (fr : decklink_frame) : decklink_frame :=
  match n with
  | O => fr
  | S k => after_calls k (snd (GetBytes fr))
  end.

(** The four bytes of pixel [p] of a 32-bit-per-pixel buffer. *)
Definition pixel (p : nat) (buf : list byte) : byte * byte * byte * byte :=
  (nth (4 * p) buf x00, nth (4 * p + 1) buf x00,
   nth (4 * p + 2) buf x00, nth (4 * p + 3) buf x00).

(** The adapter of a frame of the wrong size holds nothing or the blank
    frame. *)
Definition blank_or_empty (fr : decklink_frame) : Prop :=
  data_ fr = [] \/ data_ fr = repeat x00 (Z.to_nat (size (format_desc_ fr))).

End Frame.

(* ------------------------------------------------------------------ *)
(** ** tbb::concurrent_bounded_queue<core::const_frame> *)

Module Tbb.

Import Core.

Record concurrent_bounded_queue : Type := {
  items : list const_frame;
  capacity : Z
}.

(** A fresh queue is practically unbounded. *)
Definition new : concurrent_bounded_queue :=
  {| items := []; capacity := 2 ^ 62 |}.

Definition set_capacity (c : Z) (q : concurrent_bounded_queue)
  : concurrent_bounded_queue :=
  {| items := items q; capacity := c |}.

Definition size (q : concurrent_bounded_queue) : Z :=
  Z.of_nat (length (items q)).

(** [try_push]: refused, without effect, when the queue holds [capacity]
    items. *)
Definition try_push (f : const_frame) (q : concurrent_bounded_queue)
  : bool * concurrent_bounded_queue :=
  if size q <? capacity q
  then (true, {| items := items q ++ [f]; capacity := capacity q |})
  else (false, q).

(** [try_pop]: the oldest item, or [None] at once on an empty queue. *)
Definition try_pop (q : concurrent_bounded_queue)
  : option (const_frame * concurrent_bounded_queue) :=
  match items q with
  | [] => None
  | f :: rest => Some (f, {| items := rest; capacity := capacity q |})
  end.

(** [pop]: the oldest item; on an empty queue the calling thread waits
    until an item arrives, which [None] stands for. *)
Definition pop (q : concurrent_bounded_queue)
  : option (const_frame * concurrent_bounded_queue) :=
  try_pop q.

End Tbb.

(* ------------------------------------------------------------------ *)
(** ** struct configuration and struct decklink_consumer *)

Module Consumer.

Import Core.

Inductive keyer_t : Type := internal_keyer | external_keyer | default_keyer.
Inductive latency_t : Type := low_latency | normal_latency | default_latency.

Record configuration : Type := {
  device_index : Z;
  embedded_audio : bool;
  keyer : keyer_t;
  latency : latency_t;
  key_only : bool;
  base_buffer_depth : Z
}.

(** The member initialisers of [struct configuration]. *)
Definition default_configuration : configuration :=
  {| device_index := 1;
     embedded_audio := true;
     keyer := default_keyer;
     latency := default_latency;
     key_only := false;
     base_buffer_depth := 3 |}.

Definition is_low_latency (l : latency_t) : bool :=
  match l with low_latency => true | _ => false end.

(** [configuration::buffer_depth()], in [int] arithmetic. *)
Definition buffer_depth (c : configuration) : Z :=
  MachineInt.to_int
    (MachineInt.to_int
       (base_buffer_depth c + (if is_low_latency (latency c) then 0 else 1))
     + (if embedded_audio c then 1 else 0)).

(** *** The driver and the trace *)

(** The calls the consumer makes on [output_] (IDeckLinkOutput). *)
Inductive driver_call : Type :=
| EnableVideoOutput
| SetScheduledFrameCompletionCallback
| EnableAudioOutput
| SetAudioCallback
| BeginAudioPreroll
| EndAudioPreroll
| StartScheduledPlayback (start scale : Z)
| StopScheduledPlayback
| DisableAudioOutput
| DisableVideoOutput
| ScheduleVideoFrame (frame : Frame.decklink_frame)
    (displayTime displayDuration timeScale : Z)
| ScheduleAudioSamples (buffer : list Z)
    (sampleFrameCount streamTime timeScale : Z)
| GetBufferedVideoFrameCount
| GetBufferedAudioSampleFrameCount.

Inductive slot : Type := video_slot | audio_slot.

(** What the trace records, oldest first: the calls on [output_], and two
    ghost events, a [try_push] that a slot buffer accepted and the
    resolution of the promise held by [send_completion_]. *)
Inductive event : Type :=
| Output (c : driver_call)
| Pushed (sl : slot) (f : const_frame)
| Resolved (v : bool).

(** The device: its answer to a call, given the trace so far. *)
Definition driver : Type := list event -> driver_call -> HRESULT.

(** What the program throws. *)
Inductive exception : Type :=
| could_not_enable_video_output
| failed_to_set_playback_completion_callback
| could_not_enable_audio_output
| could_not_set_audio_callback
| failed_to_schedule_playback
| is_not_running
| length_error.

(** *** send_completion_ *)

(** The closure [enqueue_task] of [send]: it captures [audio_ready],
    [video_ready] and [frame] by value and is [mutable], so the flags it
    sets survive from one invocation of the stored copy to the next. *)
Record enqueue_task : Type := {
  audio_ready : bool;
  video_ready : bool;
  frame : const_frame
}.

(** Modelled from the spec: [retry_task<bool>] (common/future.h) is not among
    the sources at hand.  The spec describes it as "a minimal
    pending-operation primitive: partial-progress state plus a
    retry-on-free callback, resolving an associated future exactly once on
    success": the registered task ([func_]), and whether its promise has
    been resolved ([done_]). *)
Record retry_task : Type := {
  func_ : option enqueue_task;
  done_ : bool
}.

(** *** The object *)

Record decklink_consumer : Type := {
  channel_index_ : Z;
  config_ : configuration;
  output_ : driver;
  exception_ : option exception;
  is_running_ : bool;
  format_desc_ : video_format_desc;
  buffer_size_ : Z;
  video_scheduled_ : Z;
  audio_scheduled_ : Z;
  preroll_count_ : Z;
  audio_container_ : list (list Z);
  video_frame_buffer_ : Tbb.concurrent_bounded_queue;
  audio_frame_buffer_ : Tbb.concurrent_bounded_queue;
  send_completion_ : retry_task;
  log_ : list event
}.

Definition set_exception (x : option exception) (s : decklink_consumer) :=
  {| channel_index_ := channel_index_ s; config_ := config_ s;
     output_ := output_ s; exception_ := x; is_running_ := is_running_ s;
     format_desc_ := format_desc_ s; buffer_size_ := buffer_size_ s;
     video_scheduled_ := video_scheduled_ s;
     audio_scheduled_ := audio_scheduled_ s;
     preroll_count_ := preroll_count_ s;
     audio_container_ := audio_container_ s;
     video_frame_buffer_ := video_frame_buffer_ s;
     audio_frame_buffer_ := audio_frame_buffer_ s;
     send_completion_ := send_completion_ s; log_ := log_ s |}.

Definition set_is_running (x : bool) (s : decklink_consumer) :=
  {| channel_index_ := channel_index_ s; config_ := config_ s;
     output_ := output_ s; exception_ := exception_ s; is_running_ := x;
     format_desc_ := format_desc_ s; buffer_size_ := buffer_size_ s;
     video_scheduled_ := video_scheduled_ s;
     audio_scheduled_ := audio_scheduled_ s;
     preroll_count_ := preroll_count_ s;
     audio_container_ := audio_container_ s;
     video_frame_buffer_ := video_frame_buffer_ s;
     audio_frame_buffer_ := audio_frame_buffer_ s;
     send_completion_ := send_completion_ s; log_ := log_ s |}.

Definition set_video_scheduled (x : Z) (s : decklink_consumer) :=
  {| channel_index_ := channel_index_ s; config_ := config_ s;
     output_ := output_ s; exception_ := exception_ s;
     is_running_ := is_running_ s;
     format_desc_ := format_desc_ s; buffer_size_ := buffer_size_ s;
     video_scheduled_ := x;
     audio_scheduled_ := audio_scheduled_ s;
     preroll_count_ := preroll_count_ s;
     audio_container_ := audio_container_ s;
     video_frame_buffer_ := video_frame_buffer_ s;
     audio_frame_buffer_ := audio_frame_buffer_ s;
     send_completion_ := send_completion_ s; log_ := log_ s |}.

Definition set_audio_scheduled (x : Z) (s : decklink_consumer) :=
  {| channel_index_ := channel_index_ s; config_ := config_ s;
     output_ := output_ s; exception_ := exception_ s;
     is_running_ := is_running_ s;
     format_desc_ := format_desc_ s; buffer_size_ := buffer_size_ s;
     video_scheduled_ := video_scheduled_ s;
     audio_scheduled_ := x;
     preroll_count_ := preroll_count_ s;
     audio_container_ := audio_container_ s;
     video_frame_buffer_ := video_frame_buffer_ s;
     audio_frame_buffer_ := audio_frame_buffer_ s;
     send_completion_ := send_completion_ s; log_ := log_ s |}.

Definition set_preroll_count (x : Z) (s : decklink_consumer) :=
  {| channel_index_ := channel_index_ s; config_ := config_ s;
     output_ := output_ s; exception_ := exception_ s;
     is_running_ := is_running_ s;
     format_desc_ := format_desc_ s; buffer_size_ := buffer_size_ s;
     video_scheduled_ := video_scheduled_ s;
     audio_scheduled_ := audio_scheduled_ s;
     preroll_count_ := x;
     audio_container_ := audio_container_ s;
     video_frame_buffer_ := video_frame_buffer_ s;
     audio_frame_buffer_ := audio_frame_buffer_ s;
     send_completion_ := send_completion_ s; log_ := log_ s |}.

Definition set_audio_container (x : list (list Z)) (s : decklink_consumer) :=
  {| channel_index_ := channel_index_ s; config_ := config_ s;
     output_ := output_ s; exception_ := exception_ s;
     is_running_ := is_running_ s;
     format_desc_ := format_desc_ s; buffer_size_ := buffer_size_ s;
     video_scheduled_ := video_scheduled_ s;
     audio_scheduled_ := audio_scheduled_ s;
     preroll_count_ := preroll_count_ s;
     audio_container_ := x;
     video_frame_buffer_ := video_frame_buffer_ s;
     audio_frame_buffer_ := audio_frame_buffer_ s;
     send_completion_ := send_completion_ s; log_ := log_ s |}.

Definition set_video_frame_buffer (x : Tbb.concurrent_bounded_queue)
    (s : decklink_consumer) :=
  {| channel_index_ := channel_index_ s; config_ := config_ s;
     output_ := output_ s; exception_ := exception_ s;
     is_running_ := is_running_ s;
     format_desc_ := format_desc_ s; buffer_size_ := buffer_size_ s;
     video_scheduled_ := video_scheduled_ s;
     audio_scheduled_ := audio_scheduled_ s;
     preroll_count_ := preroll_count_ s;
     audio_container_ := audio_container_ s;
     video_frame_buffer_ := x;
     audio_frame_buffer_ := audio_frame_buffer_ s;
     send_completion_ := send_completion_ s; log_ := log_ s |}.

Definition set_audio_frame_buffer (x : Tbb.concurrent_bounded_queue)
    (s : decklink_consumer) :=
  {| channel_index_ := channel_index_ s; config_ := config_ s;
     output_ := output_ s; exception_ := exception_ s;
     is_running_ := is_running_ s;
     format_desc_ := format_desc_ s; buffer_size_ := buffer_size_ s;
     video_scheduled_ := video_scheduled_ s;
     audio_scheduled_ := audio_scheduled_ s;
     preroll_count_ := preroll_count_ s;
     audio_container_ := audio_container_ s;
     video_frame_buffer_ := video_frame_buffer_ s;
     audio_frame_buffer_ := x;
     send_completion_ := send_completion_ s; log_ := log_ s |}.

Definition set_send_completion (x : retry_task) (s : decklink_consumer) :=
  {| channel_index_ := channel_index_ s; config_ := config_ s;
     output_ := output_ s; exception_ := exception_ s;
     is_running_ := is_running_ s;
     format_desc_ := format_desc_ s; buffer_size_ := buffer_size_ s;
     video_scheduled_ := video_scheduled_ s;
     audio_scheduled_ := audio_scheduled_ s;
     preroll_count_ := preroll_count_ s;
     audio_container_ := audio_container_ s;
     video_frame_buffer_ := video_frame_buffer_ s;
     audio_frame_buffer_ := audio_frame_buffer_ s;
     send_completion_ := x; log_ := log_ s |}.

Definition append_log (e : event) (s : decklink_consumer) :=
  {| channel_index_ := channel_index_ s; config_ := config_ s;
     output_ := output_ s; exception_ := exception_ s;
     is_running_ := is_running_ s;
     format_desc_ := format_desc_ s; buffer_size_ := buffer_size_ s;
     video_scheduled_ := video_scheduled_ s;
     audio_scheduled_ := audio_scheduled_ s;
     preroll_count_ := preroll_count_ s;
     audio_container_ := audio_container_ s;
     video_frame_buffer_ := video_frame_buffer_ s;
     audio_frame_buffer_ := audio_frame_buffer_ s;
     send_completion_ := send_completion_ s; log_ := log_ s ++ [e] |}.

(** *** The monad of member functions

    A member function runs on the object and ends in one of three ways:
    it returns, it leaves by an exception, or its thread parks inside a
    blocking [pop]. *)

Inductive result (A : Type) : Type :=
| Ok (a : A) (s : decklink_consumer)
| Throw (e : exception) (s : decklink_consumer)
| Blocked (s : decklink_consumer).

Arguments Ok {A} a s.
Arguments Throw {A} e s.
Arguments Blocked {A} s.

Definition M (A : Type) : Type := decklink_consumer -> result A.

Definition ret {A} (a : A) : M A := fun s => Ok a s.

Definition bind {A B} (m : M A) (k : A -> M B) : M B :=
  fun s =>
    match m s with
    | Ok a s' => k a s'
    | Throw e s' => Throw e s'
    | Blocked s' => Blocked s'
    end.

Definition throw {A} (e : exception) : M A := fun s => Throw e s.

Definition gets {A} (f : decklink_consumer -> A) : M A := fun s => Ok (f s) s.

Definition modify (f : decklink_consumer -> decklink_consumer) : M unit :=
  fun s => Ok tt (f s).

(** [try { m } catch(...) { h }]. *)
Definition try_catch {A} (m : M A) (h : exception -> M A) : M A :=
  fun s =>
    match m s with
    | Throw e s' => h e s'
    | r => r
    end.

Notation "x <- c1 ;; c2" := (bind c1 (fun x => c2))
  (at level 61, c1 at next level, right associativity).
Notation "c1 ;; c2" := (bind c1 (fun _ => c2))
  (at level 61, right associativity).

Definition when (b : bool) (m : M unit) : M unit := if b then m else ret tt.

Fixpoint repeatM (n : nat) (m : M unit) : M unit :=
  match n with
  | O => ret tt
  | S k => m ;; repeatM k m
  end.

(** The state in which a member function leaves the object. *)
Definition state_of {A} (r : result A) : decklink_consumer :=
  match r with
  | Ok _ s => s
  | Throw _ s => s
  | Blocked s => s
  end.

(** A call on [output_]: it is recorded, and the device answers. *)
Definition call (c : driver_call) : M HRESULT :=
  fun s => Ok (output_ s (log_ s) c) (append_log (Output c) s).

(** *** The slot buffers *)

Definition video_try_push (f : const_frame) : M bool :=
  fun s =>
    let (ok, q) := Tbb.try_push f (video_frame_buffer_ s) in
    let s' := set_video_frame_buffer q s in
    Ok ok (if ok then append_log (Pushed video_slot f) s' else s').

Definition audio_try_push (f : const_frame) : M bool :=
  fun s =>
    let (ok, q) := Tbb.try_push f (audio_frame_buffer_ s) in
    let s' := set_audio_frame_buffer q s in
    Ok ok (if ok then append_log (Pushed audio_slot f) s' else s').

(** [video_frame_buffer_.pop(frame)]: parks on an empty buffer. *)
Definition video_pop : M const_frame :=
  fun s =>
    match Tbb.pop (video_frame_buffer_ s) with
    | Some (f, q) => Ok f (set_video_frame_buffer q s)
    | None => Blocked s
    end.

(** *** send and its retry *)

(** One invocation of the closure [enqueue_task]: the optional result and
    the closure with its updated flags. *)
Definition run_enqueue_task (t : enqueue_task)
  : M (option bool * enqueue_task) :=
  a <- (if negb (audio_ready t) then audio_try_push (frame t)
        else ret (audio_ready t)) ;;
  v <- (if negb (video_ready t) then video_try_push (frame t)
        else ret (video_ready t)) ;;
  ret (if a && v then Some true else None,
       {| audio_ready := a; video_ready := v; frame := frame t |}).

(** Modelled from the spec: [retry_task::set_task] registers the pending
    operation with a fresh, unresolved promise. *)
Definition set_task (t : enqueue_task) : M unit :=
  modify (set_send_completion {| func_ := Some t; done_ := false |}).

(** Modelled from the spec: [retry_task::try_completion] re-invokes the
    registered task unless its promise is already resolved; when the task
    yields a value the promise is resolved with it, once.  The result tells
    whether the promise is resolved. *)
Definition try_completion : M bool :=
  rt <- gets send_completion_ ;;
  match func_ rt with
  | None => ret false
  | Some t =>
      if done_ rt then ret true
      else
        r <- run_enqueue_task t ;;
        match fst r with
        | Some v =>
            modify (append_log (Resolved v)) ;;
            modify (set_send_completion
                      {| func_ := Some (snd r); done_ := true |}) ;;
            ret true
        | None =>
            modify (set_send_completion
                      {| func_ := Some (snd r); done_ := false |}) ;;
            ret false
        end
  end.

(** What [send] hands back: a future that is ready, or the future of
    [send_completion_]. *)
Inductive future : Type :=
| ready (v : bool)
| deferred.

Definition send (f : const_frame) : M future :=
  x <- gets exception_ ;;
  match x with
  | Some e => throw e
  | None =>
      running <- gets is_running_ ;;
      if negb running then throw is_not_running
      else
        cfg <- gets config_ ;;
        r <- run_enqueue_task {| audio_ready := negb (embedded_audio cfg);
                                 video_ready := false;
                                 frame := f |} ;;
        match fst r with
        | Some _ => ret (ready true)
        | None => set_task (snd r) ;; ret deferred
        end
  end.

(** *** Scheduling *)

Definition schedule_next_video (f : const_frame) : M unit :=
  s <- gets (fun s => s) ;;
  let frame2 := Frame.new f (format_desc_ s) (key_only (config_ s)) in
  _ <- call (ScheduleVideoFrame frame2 (video_scheduled_ s)
               (duration (format_desc_ s)) (time_scale (format_desc_ s))) ;;
  modify (set_video_scheduled
            (MachineInt.to_long_long
               (video_scheduled_ s + duration (format_desc_ s)))).

(** [audio_data.size() / format_desc_.audio_channels], in [size_t].  The
    division of the program traps on a channel count of zero; the value
    given here for that case stands for nothing, and what depends on the
    callbacks going on past this division assumes [Paths.audible]. *)
Definition sample_frames (fd : video_format_desc) (audio : list Z) : Z :=
  Z.of_nat (length audio) / MachineInt.to_size_t (audio_channels fd).

Definition schedule_next_audio (audio : list Z) : M unit :=
  s <- gets (fun s => s) ;;
  let sample_frame_count :=
    MachineInt.to_int (sample_frames (format_desc_ s) audio) in
  modify (set_audio_container
            (Vector.circular_push_back (Z.to_nat (buffer_size_ s + 1))
               audio (audio_container_ s))) ;;
  _ <- call (ScheduleAudioSamples audio sample_frame_count
               (audio_scheduled_ s) (audio_sample_rate (format_desc_ s))) ;;
  modify (set_audio_scheduled
            (MachineInt.to_long_long
               (audio_scheduled_ s + sample_frame_count))).

Definition start_playback : M unit :=
  fd <- gets format_desc_ ;;
  hr <- call (StartScheduledPlayback 0 (time_scale fd)) ;;
  if FAILED hr then throw failed_to_schedule_playback else ret tt.

Definition enable_audio : M unit :=
  hr <- call EnableAudioOutput ;;
  if FAILED hr then throw could_not_enable_audio_output
  else
    hr' <- call SetAudioCallback ;;
    if FAILED hr' then throw could_not_set_audio_callback else ret tt.

Definition enable_video : M unit :=
  hr <- call EnableVideoOutput ;;
  if FAILED hr then throw could_not_enable_video_output
  else
    hr' <- call SetScheduledFrameCompletionCallback ;;
    if FAILED hr' then throw failed_to_set_playback_completion_callback
    else ret tt.

(** *** The callbacks *)

Inductive BMDOutputFrameCompletionResult : Type :=
| bmdOutputFrameCompleted
| bmdOutputFrameDisplayedLate
| bmdOutputFrameDropped
| bmdOutputFrameFlushed.

Definition is_displayed_late (r : BMDOutputFrameCompletionResult) : bool :=
  match r with bmdOutputFrameDisplayedLate => true | _ => false end.

(** [catch(...)] of both callbacks: latch the exception, return [E_FAIL]. *)
Definition latch (e : exception) : M HRESULT :=
  modify (set_exception (Some e)) ;; ret E_FAIL.

(** The resynchronisation made on a displayed-late result. *)
Definition late_adjust (completed_frame : Frame.decklink_frame) : M unit :=
  s <- gets (fun s => s) ;;
  modify (set_video_scheduled
            (MachineInt.to_long_long
               (video_scheduled_ s + duration (format_desc_ s)))) ;;
  modify (set_audio_scheduled
            (MachineInt.to_long_long
               (audio_scheduled_ s
                + sample_frames (format_desc_ s)
                    (Frame.audio_data completed_frame)))).

(** From the [pop] to the end of the [try] block. *)
Definition rearm : M unit :=
  f <- video_pop ;;
  _ <- try_completion ;;
  schedule_next_video f ;;
  _ <- call GetBufferedVideoFrameCount ;;
  ret tt.

Definition ScheduledFrameCompleted (completed_frame : Frame.decklink_frame)
    (result : BMDOutputFrameCompletionResult) : M HRESULT :=
  running <- gets is_running_ ;;
  if negb running then ret E_FAIL
  else
    try_catch
      (when (is_displayed_late result) (late_adjust completed_frame) ;;
       rearm ;;
       ret S_OK)
      latch.

(** A video callback that parked in [pop] goes on from there once a frame
    has arrived. *)
Definition ScheduledFrameCompleted_resume : M HRESULT :=
  try_catch (rearm ;; ret S_OK) latch.

(** [while(audio_frame_buffer_.try_pop(frame))]: at most [fuel] rounds. *)
Fixpoint drain_audio (fuel : nat) : M unit :=
  match fuel with
  | O => ret tt
  | S k =>
      fun s =>
        match Tbb.try_pop (audio_frame_buffer_ s) with
        | None => Ok tt s
        | Some (f, q) =>
            (_ <- try_completion ;;
             schedule_next_audio (audio_data f) ;;
             drain_audio k) (set_audio_frame_buffer q s)
        end
  end.

(** [format_desc_.audio_cadence[preroll % format_desc_.audio_cadence.size()]
     * format_desc_.audio_channels], the size of the silence block.  On an
    empty cadence table the remainder of the program traps; the value
    given here for that case stands for nothing ([Paths.audible] excludes
    it). *)
Definition silence_size (fd : video_format_desc) (preroll : BOOL) : Z :=
  let idx := MachineInt.to_size_t preroll
             mod Z.of_nat (length (audio_cadence fd)) in
  MachineInt.to_int (nth (Z.to_nat idx) (audio_cadence fd) 0
                     * audio_channels fd).

(** [core::audio_buffer(n, 0)]: a negative [int] converts to a [size_t]
    beyond [max_size()] and the vector throws. *)
Definition audio_buffer (n : Z) : M (list Z) :=
  if n <? 0 then throw length_error else ret (repeat 0 (Z.to_nat n)).

Definition RenderAudioSamples (preroll : BOOL) : M HRESULT :=
  running <- gets is_running_ ;;
  if negb running then ret E_FAIL
  else
    try_catch
      ((if truthy preroll then
          modify (fun s => set_preroll_count
                             (MachineInt.to_int (preroll_count_ s + 1)) s) ;;
          s <- gets (fun s => s) ;;
          if buffer_size_ s <=? preroll_count_ s then
            _ <- call EndAudioPreroll ;;
            start_playback
          else
            silence <- audio_buffer (silence_size (format_desc_ s) preroll) ;;
            schedule_next_audio silence
        else
          q <- gets audio_frame_buffer_ ;;
          drain_audio (S (length (Tbb.items q)))) ;;
       _ <- call GetBufferedAudioSampleFrameCount ;;
       ret S_OK)
      latch.

Definition ScheduledPlaybackHasStopped : M HRESULT :=
  modify (set_is_running false) ;; ret S_OK.

(** *** Construction and destruction *)

(** The object after its member initialisers. *)
Definition initial (config : configuration) (format_desc : video_format_desc)
    (channel_index : Z) (device : driver) : decklink_consumer :=
  {| channel_index_ := channel_index;
     config_ := config;
     output_ := device;
     exception_ := None;
     is_running_ := false;
     format_desc_ := format_desc;
     buffer_size_ := buffer_depth config;
     video_scheduled_ := 0;
     audio_scheduled_ := 0;
     preroll_count_ := 0;
     audio_container_ := [];
     video_frame_buffer_ := Tbb.new;
     audio_frame_buffer_ := Tbb.new;
     send_completion_ := {| func_ := None; done_ := false |};
     log_ := [] |}.

(** The constructor body.  [set_latency] and [set_keyer] talk to the
    configuration and keyer interfaces of the card, never to [output_],
    and only log: they leave the object as it is. *)
Definition constructor_body : M unit :=
  modify (set_is_running true) ;;
  modify (fun s => set_video_frame_buffer
                     (Tbb.set_capacity 1 (video_frame_buffer_ s)) s) ;;
  modify (fun s => set_audio_frame_buffer
                     (Tbb.set_capacity
                        (if Qle_bool (fps (format_desc_ s)) (50 # 1)
                         then 1 else 2)
                        (audio_frame_buffer_ s)) s) ;;
  enable_video ;;
  cfg <- gets config_ ;;
  when (embedded_audio cfg) enable_audio ;;
  when (embedded_audio cfg) (_ <- call BeginAudioPreroll ;; ret tt) ;;
  n <- gets buffer_size_ ;;
  repeatM (Z.to_nat n) (schedule_next_video Core.empty) ;;
  when (negb (embedded_audio cfg)) start_playback.

(** [new decklink_consumer(config, format_desc, channel_index)] on a
    device.  [audio_container_{buffer_size_ + 1}] converts the [int] to
    [size_t]: a negative capacity cannot be allocated. *)
Definition new (config : configuration) (format_desc : video_format_desc)
    (channel_index : Z) (device : driver) : result unit :=
  let s := initial config format_desc channel_index device in
  if MachineInt.to_int (buffer_size_ s + 1) <? 0 then Throw length_error s
  else constructor_body s.

Definition destructor : M unit :=
  modify (set_is_running false) ;;
  _ <- video_try_push Core.empty ;;
  _ <- audio_try_push Core.empty ;;
  _ <- call StopScheduledPlayback ;;
  cfg <- gets config_ ;;
  when (embedded_audio cfg) (_ <- call DisableAudioOutput ;; ret tt) ;;
  _ <- call DisableVideoOutput ;;
  ret tt.

(** *** Runs of callbacks *)

Inductive callback : Type :=
| video_completed (completed_frame : Frame.decklink_frame)
    (result : BMDOutputFrameCompletionResult)
| video_resumed
| audio_render (preroll : BOOL)
| playback_stopped.

Definition fire (cb : callback) : M HRESULT :=
  match cb with
  | video_completed fr r => ScheduledFrameCompleted fr r
  | video_resumed => ScheduledFrameCompleted_resume
  | audio_render p => RenderAudioSamples p
  | playback_stopped => ScheduledPlaybackHasStopped
  end.

(** The object after the callbacks [cbs], fired one after the other. *)
Definition run (cbs : list callback) (s : decklink_consumer)
  : decklink_consumer :=
  fold_left (fun s cb => state_of (fire cb s)) cbs s.

(** The object after [n] audio-render callbacks with [preroll] set. *)
Definition preroll_calls (n : nat) (s : decklink_consumer)
  : decklink_consumer :=
  run (repeat (audio_render TRUE) n) s.

(** What the owning thread and the driver do to the object: a [send], or
    a callback. *)
Inductive action : Type :=
| do_send (f : const_frame)
| do_callback (cb : callback).

Definition step (a : action) (s : decklink_consumer) : decklink_consumer :=
  match a with
  | do_send f => state_of (send f s)
  | do_callback cb => state_of (fire cb s)
  end.

Definition play (acts : list action) (s : decklink_consumer)
  : decklink_consumer :=
  fold_left (fun s a => step a s) acts s.

(** *** Reading the trace *)





(** The frames handed to [ScheduleVideoFrame], in order. *)
Fixpoint scheduled_video (l : list event) : list const_frame :=
  match l with
  | [] => []
  | Output (ScheduleVideoFrame fr _ _ _) :: l' =>
      Frame.frame_ fr :: scheduled_video l'
  | _ :: l' => scheduled_video l'
  end.

(** The sample-frame counts handed to [ScheduleAudioSamples], in order. *)
Fixpoint scheduled_audio (l : list event) : list Z :=
  match l with
  | [] => []
  | Output (ScheduleAudioSamples _ n _ _) :: l' => n :: scheduled_audio l'
  | _ :: l' => scheduled_audio l'
  end.

Definition is_end_preroll (e : event) : bool :=
  match e with Output EndAudioPreroll => true | _ => false end.

Definition is_start_playback (e : event) : bool :=
  match e with Output (StartScheduledPlayback _ _) => true | _ => false end.

(** The events a step added to the trace. *)
Definition added (before after : decklink_consumer) : list event :=
  skipn (length (log_ before)) (log_ after).

(** Whether the [n]-th preroll callback after [s] (counting from one) ends
    priming: it issues [EndAudioPreroll] and starts scheduled playback. *)
Definition ends_preroll (s : decklink_consumer) (n : nat) : bool :=
  let l := added (preroll_calls (n - 1) s) (preroll_calls n s) in
  existsb is_end_preroll l && existsb is_start_playback l.

End Consumer.

(* ------------------------------------------------------------------ *)
(** ** Formats, frames and devices used in the examples *)

Module Fixtures.

Import Core Consumer.

(** A source image of two BGRA pixels. *)
Definition two_pixels : const_frame :=
  {| image_data := [x10; x20; x30; x40; x50; x60; x70; x80];
     audio_data := [] |}.

(** A two-pixel format whose frame size is [n] bytes. *)
Definition format_of_size (n : Z) : video_format_desc :=
  {| width := 2; height := 1; fps := 25 # 1; time_scale := 25000;
     duration := 1000; size := n; audio_sample_rate := 48000;
     audio_channels := 2; audio_cadence := [1920] |}.

(** PAL: 25 frames per second, 1920 sample frames in every frame. *)
Definition pal : video_format_desc :=
  {| width := 720; height := 576; fps := 25 # 1; time_scale := 25000;
     duration := 1000; size := 720 * 576 * 4; audio_sample_rate := 48000;
     audio_channels := 2; audio_cadence := [1920] |}.

(** NTSC: 30000/1001 frames per second; 48 kHz audio does not divide
    evenly, the cadence spreads 8008 sample frames over five frames. *)
Definition ntsc : video_format_desc :=
  {| width := 720; height := 486; fps := 30000 # 1001; time_scale := 30000;
     duration := 1001; size := 720 * 486 * 4; audio_sample_rate := 48000;
     audio_channels := 2;
     audio_cadence := [1602; 1601; 1602; 1601; 1602] |}.

(** A device that accepts every call. *)
Definition willing_device : driver := fun _ _ => S_OK.

(** A device that refuses to start scheduled playback. *)
Definition stubborn_device : driver :=
  fun _ c => match c with StartScheduledPlayback _ _ => E_FAIL | _ => S_OK end.

(** A frame carrying [n] stereo sample frames of audio. *)
Definition tone (n : nat) : const_frame :=
  {| image_data := []; audio_data := repeat 7 (2 * n) |}.

(** The engine right after construction. *)
Definition constructed (config : configuration) (fd : video_format_desc)
    (device : driver) : decklink_consumer :=
  state_of (Consumer.new config fd 1 device).

Definition pal_engine : decklink_consumer :=
  constructed default_configuration pal willing_device.

Definition ntsc_engine : decklink_consumer :=
  constructed default_configuration ntsc willing_device.

End Fixtures.

(* ------------------------------------------------------------------ *)
(** ** Predicates on member functions and on the object *)

Module ConsumerLogic.

Import Core Consumer.

(** [m] leaves the component [g] of the object as it found it, however it
    ends. *)
Definition keeps {A B} (g : decklink_consumer -> B) (m : M A) : Prop :=
  forall s, g (state_of (m s)) = g s.

(** [m] returns: it neither throws nor parks. *)
Definition returns {A} (m : M A) : Prop :=
  forall s, exists a s', m s = Ok a s'.

(** A component that the slot buffers, the retry task and the trace do not
    reach. *)
Definition beside_slots {B} (g : decklink_consumer -> B) : Prop :=
  (forall q s, g (set_video_frame_buffer q s) = g s)
  /\ (forall q s, g (set_audio_frame_buffer q s) = g s)
  /\ (forall r s, g (set_send_completion r s) = g s)
  /\ (forall e s, g (append_log e s) = g s).

(** The retry adds no call on [output_] to the trace. *)
Definition ghost_only (l : list event) : Prop :=
  forall e, In e l -> match e with Output _ => False | _ => True end.

(** [m], when it returns, has appended to the trace, and the frames it
    handed to [ScheduleVideoFrame] are [fs]. *)
Definition emits {A} (m : M A) (fs : list const_frame) : Prop :=
  forall s a s', m s = Ok a s' ->
    exists l, log_ s' = log_ s ++ l /\ scheduled_video l = fs.

(** Every member function only appends to the trace. *)
Definition extends {A} (m : M A) : Prop :=
  forall s, exists l, log_ (state_of (m s)) = log_ s ++ l.

(** [m] maintains [P], however it ends. *)
Definition preserves {A} (P : decklink_consumer -> Prop) (m : M A) : Prop :=
  forall s, P s -> P (state_of (m s)).


(** What is left for the loop to pop: the buffered frames, and the one
    frame a pending [send] may still push into the audio slot. *)
Definition drain_bound (s : decklink_consumer) : nat :=
  length (Tbb.items (audio_frame_buffer_ s))
  + match func_ (send_completion_ s) with
    | Some t =>
        if negb (done_ (send_completion_ s)) && negb (audio_ready t)
        then 1 else 0
    | None => 0
    end.

End ConsumerLogic.

(* ------------------------------------------------------------------ *)
(** ** Further predicates, readers of the trace and runs *)

Module EngineLogic.

Import Core Consumer.

(** [m] never parks: it returns a value satisfying [Q], or throws. *)
Definition settles {A} (Q : A -> Prop) (m : M A) : Prop :=
  forall s, (exists a s', m s = Ok a s' /\ Q a)
            \/ (exists e s', m s = Throw e s').

(** [P] survives every primitive step the member functions are made of:
    the plain assignments, a record in the trace, a push into or a pop
    from either slot buffer, and the [push_back] on [audio_container_]. *)
Definition survives_primitives (P : decklink_consumer -> Prop) : Prop :=
  (forall x s, P s -> P (set_exception x s))
  /\ (forall x s, P s -> P (set_is_running x s))
  /\ (forall x s, P s -> P (set_video_scheduled x s))
  /\ (forall x s, P s -> P (set_audio_scheduled x s))
  /\ (forall x s, P s -> P (set_preroll_count x s))
  /\ (forall x s, P s -> P (set_send_completion x s))
  /\ (forall e s, P s -> P (append_log e s))
  /\ (forall f s, P s -> P (state_of (video_try_push f s)))
  /\ (forall f s, P s -> P (state_of (audio_try_push f s)))
  /\ (forall s, P s -> P (state_of (video_pop s)))
  /\ (forall s f q, P s -> Tbb.try_pop (audio_frame_buffer_ s) = Some (f, q) ->
        P (set_audio_frame_buffer q s))
  /\ (forall a s, P s ->
        P (set_audio_container
             (Vector.circular_push_back (Z.to_nat (buffer_size_ s + 1)) a
                (audio_container_ s)) s)).

(** What the owning thread and the driver do to the object, the
    destructor included. *)
Inductive lifetime_action : Type :=
| act (a : action)
| destroy.

Definition lifetime_step (a : lifetime_action) (s : decklink_consumer)
  : decklink_consumer :=
  match a with
  | act a => step a s
  | destroy => state_of (destructor s)
  end.

Definition lifetime (acts : list lifetime_action) (s : decklink_consumer)
  : decklink_consumer :=
  fold_left (fun s a => lifetime_step a s) acts s.

(** No [send] is waiting for a retry. *)
Definition idle (s : decklink_consumer) : Prop :=
  func_ (send_completion_ s) = None \/ done_ (send_completion_ s) = true.

(** A slot buffer can take one more frame. *)
Definition has_room (q : Tbb.concurrent_bounded_queue) : bool :=
  Tbb.size q <? Tbb.capacity q.

(** The calls on [output_] in a trace, in order. *)
Fixpoint output_calls (l : list event) : list driver_call :=
  match l with
  | [] => []
  | Output c :: l' => c :: output_calls l'
  | _ :: l' => output_calls l'
  end.

(** The sample-frame count [schedule_next_audio] computes for a block. *)
Definition block_frames (fd : video_format_desc) (audio : list Z) : Z :=
  MachineInt.to_int (sample_frames fd audio).

(** One frame through the engine: it is sent, the driver completes a
    video frame, and the driver asks for audio. *)
Definition round (completed_frame : Frame.decklink_frame)
    (result : BMDOutputFrameCompletionResult) (f : const_frame)
  : list action :=
  [ do_send f;
    do_callback (video_completed completed_frame result);
    do_callback (audio_render FALSE) ].

(** The calls of a successful construction, in order. *)
Definition construction_calls (config : configuration)
    (fd : video_format_desc) : list driver_call :=
  [EnableVideoOutput; SetScheduledFrameCompletionCallback]
  ++ (if embedded_audio config
      then [EnableAudioOutput; SetAudioCallback; BeginAudioPreroll]
      else [])
  ++ map (fun k => ScheduleVideoFrame
                     (Frame.new Core.empty fd (key_only config))
                     (Z.of_nat k * duration fd) (duration fd) (time_scale fd))
       (seq 0 (Z.to_nat (buffer_depth config)))
  ++ (if embedded_audio config then []
      else [StartScheduledPlayback 0 (time_scale fd)]).

End EngineLogic.

(* ------------------------------------------------------------------ *)
(** ** The object between the first assignments of the constructor body
       and its calls on the device *)

Module Configured.

Import Core Consumer.

(** The object once the constructor body has raised the running flag and
    set the capacities of the two slot buffers. *)
Definition configured (config : configuration) (fd : video_format_desc)
    (ch : Z) (dev : driver) : decklink_consumer :=
  let s0 := set_is_running true (initial config fd ch dev) in
  let s1 := set_video_frame_buffer
              (Tbb.set_capacity 1 (video_frame_buffer_ s0)) s0 in
  set_audio_frame_buffer
    (Tbb.set_capacity
       (if Qle_bool (fps (format_desc_ s1)) (50 # 1) then 1 else 2)
       (audio_frame_buffer_ s1)) s1.

(** The part of the constructor body that talks to the device. *)
Definition device_setup : M unit :=
  enable_video ;;
  cfg <- gets config_ ;;
  when (embedded_audio cfg) enable_audio ;;
  when (embedded_audio cfg) (_ <- call BeginAudioPreroll ;; ret tt) ;;
  n <- gets buffer_size_ ;;
  repeatM (Z.to_nat n) (schedule_next_video Core.empty) ;;
  when (negb (embedded_audio cfg)) start_playback.

(** The capacity the constructor gives the audio slot buffer. *)
Definition audio_capacity (fd : video_format_desc) : Z :=
  if Qle_bool (fps fd) (50 # 1) then 1 else 2.

(** Both slot buffers hold no more than their capacities, which are the
    ones the constructor set. *)
Definition within_capacity (fd : video_format_desc) (s : decklink_consumer)
  : Prop :=
  Tbb.capacity (video_frame_buffer_ s) = 1
  /\ Tbb.size (video_frame_buffer_ s) <= 1
  /\ Tbb.capacity (audio_frame_buffer_ s) = audio_capacity fd
  /\ Tbb.size (audio_frame_buffer_ s) <= audio_capacity fd.

(** The ring of scheduled audio blocks holds no more than
    [buffer_size_ + 1] of them. *)
Definition ring_bounded (depth : Z) (s : decklink_consumer) : Prop :=
  buffer_size_ s = depth
  /\ (length (audio_container_ s) <= Z.to_nat (depth + 1))%nat.

(** What construction fixes for the life of the object. *)
Definition fixed_parts (s : decklink_consumer)
  : configuration * video_format_desc * Z * Z :=
  (config_ s, format_desc_ s, buffer_size_ s, channel_index_ s).

(** The [try] block of [RenderAudioSamples]. *)
Definition audio_try_block (preroll : BOOL) : M HRESULT :=
  (if truthy preroll then
     modify (fun s => set_preroll_count
                        (MachineInt.to_int (preroll_count_ s + 1)) s) ;;
     s <- gets (fun s => s) ;;
     if buffer_size_ s <=? preroll_count_ s then
       _ <- call EndAudioPreroll ;;
       start_playback
     else
       silence <- audio_buffer (silence_size (format_desc_ s) preroll) ;;
       schedule_next_audio silence
   else
     q <- gets audio_frame_buffer_ ;;
     drain_audio (S (length (Tbb.items q)))) ;;
  _ <- call GetBufferedAudioSampleFrameCount ;;
  ret S_OK.

(** [m], when it returns, has made exactly the calls [cs] on [output_],
    in that order. *)
Definition calls {A} (m : M A) (cs : list driver_call) : Prop :=
  forall s a s', m s = Ok a s' ->
    exists l, log_ s' = log_ s ++ l /\ EngineLogic.output_calls l = cs.

(** The [ScheduleVideoFrame] calls of [n] empty frames from timestamp
    [v0] on. *)
Definition empty_frame_calls (config : configuration)
    (fd : video_format_desc) (v0 : Z) (n : nat) : list driver_call :=
  map (fun k => ScheduleVideoFrame
                  (Frame.new Core.empty fd (key_only config))
                  (v0 + Z.of_nat k * duration fd) (duration fd)
                  (time_scale fd))
    (seq 0 n).

(** The engine between two frames: running, nothing latched, both slot
    buffers empty with room for a frame, no [send] registered. *)
Definition between_frames (config : configuration) (fd : video_format_desc)
    (s : decklink_consumer) : Prop :=
  is_running_ s = true
  /\ exception_ s = None
  /\ config_ s = config
  /\ format_desc_ s = fd
  /\ Tbb.items (video_frame_buffer_ s) = []
  /\ Tbb.items (audio_frame_buffer_ s) = []
  /\ 1 <= Tbb.capacity (video_frame_buffer_ s)
  /\ 1 <= Tbb.capacity (audio_frame_buffer_ s)
  /\ func_ (send_completion_ s) = None.

(** The audio sample counter after the blocks of the frames [fs]. *)
Definition audio_clock_after (fd : video_format_desc) (fs : list const_frame)
    (a0 : Z) : Z :=
  fold_left
    (fun a f => MachineInt.to_long_long
                  (a + EngineLogic.block_frames fd (audio_data f)))
    fs a0.

End Configured.

(* ------------------------------------------------------------------ *)
(** ** What has entered the two paths, and a [send] in flight *)

Module Paths.

Import Core Consumer.

(** The blocks handed to [ScheduleAudioSamples], in order. *)
Fixpoint scheduled_blocks (l : list event) : list (list Z) :=
  match l with
  | [] => []
  | Output (ScheduleAudioSamples block _ _ _) :: l' =>
      block :: scheduled_blocks l'
  | _ :: l' => scheduled_blocks l'
  end.








(** A format on which the sample arithmetic of the callbacks is defined:
    the channel count, as the [size_t] divisor it becomes, is not zero,
    and the cadence table is not empty. *)
Definition audible (fd : video_format_desc) : Prop :=
  MachineInt.to_size_t (audio_channels fd) <> 0
  /\ audio_cadence fd <> [].

(** The exception latch holds an exception. *)
Definition latched (s : decklink_consumer) : Prop := exception_ s <> None.

End Paths.

(* ------------------------------------------------------------------ *)
(** ** decklink_frame: reference counting *)

Module FrameRef.

Import Core Frame.

Definition set_ref_count (n : Z) (fr : decklink_frame) : decklink_frame :=
  {| ref_count_ := n;
     frame_ := frame_ fr;
     format_desc_ := format_desc_ fr;
     key_only_ := key_only_ fr;
     data_ := data_ fr;
     shuffles_ := shuffles_ fr |}.

(** [AddRef]: [return ++ref_count_], the [int] count coming back as a
    [ULONG]. *)
Definition AddRef (fr : decklink_frame) : Z * decklink_frame :=
  let n := MachineInt.to_int (ref_count_ fr + 1) in
  (MachineInt.to_ulong n, set_ref_count n fr).

(** [Release]: [if(--ref_count_ == 0) delete this; return ref_count_].
    [None] stands for the deleted adapter (the value returned then is read
    from the freed object and is left out); otherwise the count returned,
    as a [ULONG], and the adapter. *)
Definition Release (fr : decklink_frame) : option (Z * decklink_frame) :=
  let n := MachineInt.to_int (ref_count_ fr - 1) in
  if n =? 0 then None else Some (MachineInt.to_ulong n, set_ref_count n fr).

(** [QueryInterface], [GetTimecode], [GetAncillaryData]. *)
Definition QueryInterface (fr : decklink_frame) : HRESULT := E_NOINTERFACE.
Definition GetTimecode (fr : decklink_frame) : HRESULT := S_FALSE.
Definition GetAncillaryData (fr : decklink_frame) : HRESULT := S_FALSE.

(** [n] calls of [AddRef]. *)
Fixpoint add_refs (n : nat) (fr : decklink_frame) : decklink_frame :=
  match n with
  | O => fr
  | S k => add_refs k (snd (AddRef fr))
  end.

(** [n] calls of [Release]; [None] once the adapter is deleted (a call on
    a deleted adapter has no meaning and stays [None]). *)
Fixpoint releases (n : nat) (fr : decklink_frame) : option decklink_frame :=
  match n with
  | O => Some fr
  | S k =>
      match Release fr with
      | Some (_, fr') => releases k fr'
      | None => None
      end
  end.

End FrameRef.

(* ------------------------------------------------------------------ *)
(** ** set_latency and set_keyer *)

Module Keyer.

Import Consumer.

(** The calls made on [configuration_], [attributes_] and [keyer_]. *)
Inductive card_call : Type :=
| SetLowLatencyFlag (value : bool)
| GetSupportsInternalKeying
| GetSupportsExternalKeying
| KeyerEnable (isExternal : bool)
| KeyerSetLevel (level : Z).

(** What is logged. *)
Inductive log_line : Type :=
| enabled_low_latency
| disabled_low_latency
| failed_to_enable_internal_keyer
| failed_to_enable_external_keyer
| failed_to_set_key_level
| enabled_internal_keyer
| enabled_external_keyer.

(** The card: the result of each call, and the flag [GetFlag] stores when
    it succeeds. *)
Record card : Type := {
  answer : card_call -> HRESULT;
  flag : card_call -> bool
}.

Definition set_latency (latency : latency_t) (c : card)
  : list card_call * list log_line :=
  match latency with
  | low_latency => ([SetLowLatencyFlag true], [enabled_low_latency])
  | normal_latency => ([SetLowLatencyFlag false], [disabled_low_latency])
  | default_latency => ([], [])
  end.

(** One branch of [set_keyer]: [BOOL value = true] keeps its value when
    [GetFlag] fails. *)
Definition enable_keyer (query : card_call) (isExternal : bool)
    (failed enabled : log_line) (c : card) : list card_call * list log_line :=
  let value := if SUCCEEDED (answer c query) then flag c query else true in
  if SUCCEEDED (answer c query) && negb value then ([query], [failed])
  else if FAILED (answer c (KeyerEnable isExternal))
       then ([query; KeyerEnable isExternal], [failed])
  else if FAILED (answer c (KeyerSetLevel 255))
       then ([query; KeyerEnable isExternal; KeyerSetLevel 255],
             [failed_to_set_key_level])
  else ([query; KeyerEnable isExternal; KeyerSetLevel 255], [enabled]).

Definition set_keyer (keyer : keyer_t) (c : card)
  : list card_call * list log_line :=
  match keyer with
  | internal_keyer =>
      enable_keyer GetSupportsInternalKeying false
        failed_to_enable_internal_keyer enabled_internal_keyer c
  | external_keyer =>
      enable_keyer GetSupportsExternalKeying true
        failed_to_enable_external_keyer enabled_external_keyer c
  | default_keyer => ([], [])
  end.

End Keyer.

(* ------------------------------------------------------------------ *)
(** ** decklink_consumer_proxy and the two factories *)

Module Factory.

Import Core Consumer.

Import String.

Local Open Scope string_scope.

(** [std::find(params.begin(), params.end(), flag) != params.end()]. *)
Definition has_flag (flag : string) (params : list string) : bool :=
  existsb (String.eqb flag) params.

(** What a factory hands back: [core::frame_consumer::empty()], a proxy
    holding a configuration, or the exception of [boost::lexical_cast]. *)
Inductive created : Type :=
| empty_consumer
| proxy (config : configuration)
| bad_lexical_cast.

(** [create_consumer].  [lexical_cast] is [boost::lexical_cast<int>] on a
    wide string, [None] where it throws. *)
Definition create_consumer (lexical_cast : string -> option Z)
    (params : list string) : created :=
  match params with
  | [] => empty_consumer
  | p0 :: _ =>
      if negb (String.eqb p0 "DECKLINK") then empty_consumer
      else
        let device :=
          match params with
          | _ :: p1 :: _ => lexical_cast p1
          | _ => Some (device_index default_configuration)
          end in
        match device with
        | None => bad_lexical_cast
        | Some d =>
            proxy
              {| device_index := d;
                 embedded_audio := has_flag "EMBEDDED_AUDIO" params;
                 keyer :=
                   if has_flag "INTERNAL_KEY" params then internal_keyer
                   else if has_flag "EXTERNAL_KEY" params then external_keyer
                   else default_keyer;
                 latency :=
                   if has_flag "LOW_LATENCY" params then low_latency
                   else latency default_configuration;
                 key_only := has_flag "KEY_ONLY" params;
                 base_buffer_depth :=
                   base_buffer_depth default_configuration |}
        end
  end.

(** A property tree as [create_preconfigured_consumer] reads it: for each
    key, the value [ptree.get] finds and can convert, or [None] where it
    falls back to the default given. *)
Record ptree : Type := {
  pt_keyer : option string;
  pt_latency : option string;
  pt_key_only : option bool;
  pt_device : option Z;
  pt_embedded_audio : option bool;
  pt_buffer_depth : option Z
}.

Definition get {A} (v : option A) (default : A) : A :=
  match v with Some x => x | None => default end.

Definition create_preconfigured_consumer (t : ptree) : created :=
  let keyer_s := get (pt_keyer t) "default" in
  let latency_s := get (pt_latency t) "normal" in
  proxy
    {| device_index := get (pt_device t) (device_index default_configuration);
       embedded_audio :=
         get (pt_embedded_audio t) (embedded_audio default_configuration);
       keyer :=
         if String.eqb keyer_s "external" then external_keyer
         else if String.eqb keyer_s "internal" then internal_keyer
         else keyer default_configuration;
       latency :=
         if String.eqb latency_s "low" then low_latency
         else if String.eqb latency_s "normal" then normal_latency
         else latency default_configuration;
       key_only := get (pt_key_only t) (key_only default_configuration);
       base_buffer_depth :=
         get (pt_buffer_depth t) (base_buffer_depth default_configuration) |}.

(** The proxy: its configuration and [consumer_], null before the first
    [initialize]. *)
Record decklink_consumer_proxy : Type := {
  proxy_config_ : configuration;
  consumer_ : option decklink_consumer
}.

Definition new_proxy (config : configuration) : decklink_consumer_proxy :=
  {| proxy_config_ := config; consumer_ := None |}.

(** [initialize]: [consumer_.reset()] destroys the engine held, then
    [consumer_.reset(new decklink_consumer(...))] on the device.  The
    result carries the engine destroyed, as its destructor left it, and
    the exception of a construction that failed. *)
Definition initialize (fd : video_format_desc) (channel_index : Z)
    (device : driver) (p : decklink_consumer_proxy)
  : option decklink_consumer * option exception * decklink_consumer_proxy :=
  let destroyed :=
    match consumer_ p with
    | Some old => Some (state_of (destructor old))
    | None => None
    end in
  match Consumer.new (proxy_config_ p) fd channel_index device with
  | Ok _ s =>
      (destroyed, None,
       {| proxy_config_ := proxy_config_ p; consumer_ := Some s |})
  | Throw e _ =>
      (destroyed, Some e,
       {| proxy_config_ := proxy_config_ p; consumer_ := None |})
  | Blocked _ =>
      (destroyed, None,
       {| proxy_config_ := proxy_config_ p; consumer_ := None |})
  end.

(** [buffer_depth()] and [index()]. *)
Definition proxy_buffer_depth (p : decklink_consumer_proxy) : Z :=
  buffer_depth (proxy_config_ p).

Definition index (p : decklink_consumer_proxy) : Z :=
  MachineInt.to_int (300 + device_index (proxy_config_ p)).

End Factory.

(* ================================================================== *)
(** * Part II: properties *)

(* ------------------------------------------------------------------ *)
(** ** Integers and containers *)

Module MachineIntFacts.

Import MachineInt.

Lemma to_int_id x : in_int x -> to_int x = x.
Proof.
  unfold in_int, INT_MIN, INT_MAX, to_int, wrap_signed. intros H.
  change (32 - 1) with 31.
  rewrite Z.mod_small; lia.
Qed.

Lemma to_long_long_id x : in_long_long x -> to_long_long x = x.
Proof.
  unfold in_long_long, to_long_long, wrap_signed. intros H.
  change (64 - 1) with 63.
  rewrite Z.mod_small; lia.
Qed.

Lemma to_size_t_id x : 0 <= x < 2 ^ 64 -> to_size_t x = x.
Proof. intros H. unfold to_size_t. now apply Z.mod_small. Qed.

Lemma to_int_range x : in_int (to_int x).
Proof.
  unfold in_int, INT_MIN, INT_MAX, to_int, wrap_signed.
  change (32 - 1) with 31.
  pose proof (Z.mod_pos_bound (x + 2 ^ 31) (2 ^ 32) ltac:(lia)). lia.
Qed.

End MachineIntFacts.

Module VectorFacts.

Import Vector.

Lemma resize_length {A} n (x : A) v : length (resize n x v) = n.
Proof.
  unfold resize. rewrite length_app, length_firstn, repeat_length. lia.
Qed.

Lemma resize_nil {A} n (x : A) : resize n x [] = repeat x n.
Proof. unfold resize. rewrite firstn_nil. simpl. now rewrite Nat.sub_0_r. Qed.

Lemma resize_repeat {A} n (x : A) : resize n x (repeat x n) = repeat x n.
Proof.
  unfold resize. rewrite repeat_length, Nat.sub_diag. simpl.
  rewrite app_nil_r. apply firstn_all2. rewrite repeat_length. lia.
Qed.

End VectorFacts.

(* ------------------------------------------------------------------ *)
(** ** The frame adapter *)

Module FrameFacts.

Import Core Frame Fixtures.

(** The selectors of the call in [GetBytes]: byte [i] of a lane reads the
    last byte of its own group of four. *)
Lemma key_only_selectors :
  Memshfl.mask_lanes 0x0F0F0F0F 0x0B0B0B0B 0x07070707 0x03030303
  = [3; 3; 3; 3; 7; 7; 7; 7; 11; 11; 11; 11; 15; 15; 15; 15].
Proof. reflexivity. Qed.

Lemma lane_index (i r : nat) :
  (i mod 16 = r)%nat ->
  (16 * (i / 16) + (4 * (r / 4) + 3) = 4 * (i / 4) + 3)%nat.
Proof.
  intros Hr.
  pose proof (Nat.div_mod_eq i 16) as H16.
  pose proof (Nat.mod_upper_bound i 16 ltac:(lia)) as Hlt.
  rewrite Hr in H16, Hlt.
  assert (Hq : (i / 4 = 4 * (i / 16) + r / 4)%nat).
  { rewrite H16 at 1.
    replace (16 * (i / 16) + r)%nat with (r + (4 * (i / 16)) * 4)%nat by lia.
    rewrite Nat.div_add by lia. lia. }
  lia.
Qed.

Lemma shuffle_byte_key_only (source : list byte) (i : nat) :
  Memshfl.shuffle_byte
    (Memshfl.mask_lanes 0x0F0F0F0F 0x0B0B0B0B 0x07070707 0x03030303)
    source i
  = nth (4 * (i / 4) + 3) source x00.
Proof.
  rewrite key_only_selectors. unfold Memshfl.shuffle_byte.
  pose proof (Nat.mod_upper_bound i 16 ltac:(lia)) as Hlt.
  pose proof (lane_index i (i mod 16) eq_refl) as Hidx.
  remember (i mod 16)%nat as r eqn:Hr.
  do 16 (destruct r as [|r]; [cbn in *; f_equal; lia|]).
  lia.
Qed.

Lemma nth_aligned_memshfl dest source count m1 m2 m3 m4 i :
  (i < count)%nat ->
  nth i (Memshfl.aligned_memshfl dest source count m1 m2 m3 m4) x00
  = Memshfl.shuffle_byte (Memshfl.mask_lanes m1 m2 m3 m4) source i.
Proof.
  intros Hi. unfold Memshfl.aligned_memshfl.
  rewrite app_nth1 by (now rewrite length_map, length_seq).
  rewrite nth_indep with (d' := Memshfl.shuffle_byte
                                   (Memshfl.mask_lanes m1 m2 m3 m4) source 0%nat)
    by (now rewrite length_map, length_seq).
  rewrite map_nth, seq_nth by assumption. reflexivity.
Qed.

Lemma aligned_memshfl_length dest source count m1 m2 m3 m4 :
  (length dest = count)%nat ->
  length (Memshfl.aligned_memshfl dest source count m1 m2 m3 m4) = count.
Proof.
  intros H. unfold Memshfl.aligned_memshfl.
  rewrite length_app, length_map, length_seq, length_skipn. lia.
Qed.

(** What the first [GetBytes] of a key-only adapter does when the image
    has the expected size. *)
Lemma GetBytes_key_only_first frame fd :
  Z.of_nat (length (image_data frame)) = size fd ->
  size fd <= MachineInt.INT_MAX ->
  let fr := Frame.new frame fd true in
  let n := length (image_data frame) in
  GetBytes fr
  = (S_OK, Some data_ptr,
     set_data (Memshfl.aligned_memshfl (Vector.resize n x00 [])
                 (image_data frame) n
                 0x0F0F0F0F 0x0B0B0B0B 0x07070707 0x03030303) 1 fr).
Proof.
  intros Hsz Hmax fr n. unfold GetBytes, image_size. cbn [frame_ format_desc_ new fr].
  rewrite MachineIntFacts.to_int_id
    by (unfold MachineInt.in_int, MachineInt.INT_MIN, MachineInt.INT_MAX in *; lia).
  rewrite (proj2 (Z.eqb_eq _ _) Hsz). reflexivity.
Qed.

(** Once [data_] is filled, [GetBytes] hands it out again and touches
    nothing. *)
Lemma GetBytes_key_only_cached fr :
  MachineInt.to_int (image_size fr) = size (format_desc_ fr) ->
  key_only_ fr = true ->
  data_ fr <> [] ->
  GetBytes fr = (S_OK, Some data_ptr, fr).
Proof.
  intros Hsz Hk Hd. unfold GetBytes.
  rewrite (proj2 (Z.eqb_eq _ _) Hsz), Hk. cbn [negb].
  destruct (data_ fr); [contradiction | reflexivity].
Qed.

Lemma after_calls_cached fr n :
  MachineInt.to_int (image_size fr) = size (format_desc_ fr) ->
  key_only_ fr = true ->
  data_ fr <> [] ->
  after_calls n fr = fr.
Proof.
  intros Hsz Hk Hd. induction n as [|n IH]; [reflexivity|].
  cbn [after_calls]. now rewrite GetBytes_key_only_cached.
Qed.

Lemma GetBytes_mismatch fr :
  MachineInt.to_int (image_size fr) <> size (format_desc_ fr) ->
  0 <= size (format_desc_ fr) ->
  blank_or_empty fr ->
  GetBytes fr
  = (S_OK, Some data_ptr,
     set_data (repeat x00 (Z.to_nat (size (format_desc_ fr))))
       (shuffles_ fr) fr).
Proof.
  intros Hsz Hpos Hinv. unfold GetBytes.
  rewrite (proj2 (Z.eqb_neq _ _) Hsz). cbn [negb].
  rewrite (proj2 (Z.ltb_ge _ _) Hpos).
  destruct Hinv as [-> | ->].
  - now rewrite VectorFacts.resize_nil.
  - now rewrite VectorFacts.resize_repeat.
Qed.

Lemma after_calls_mismatch fr n :
  MachineInt.to_int (image_size fr) <> size (format_desc_ fr) ->
  0 <= size (format_desc_ fr) ->
  blank_or_empty fr ->
  let fr' := after_calls n fr in
  frame_ fr' = frame_ fr /\ format_desc_ fr' = format_desc_ fr
  /\ key_only_ fr' = key_only_ fr /\ shuffles_ fr' = shuffles_ fr
  /\ blank_or_empty fr'.
Proof.
  revert fr. induction n as [|n IH]; intros fr Hsz Hpos Hinv.
  - cbn. auto.
  - cbn [after_calls]. rewrite GetBytes_mismatch by assumption. cbn [snd].
    set (fr1 := set_data _ _ fr).
    destruct (IH fr1) as (H1 & H2 & H3 & H4 & H5); try assumption.
    + right. reflexivity.
    + cbn zeta. rewrite H1, H2, H3, H4. repeat split; assumption.
Qed.

(** C8.  Key-only mode, source image of the expected size: [GetBytes]
    succeeds and hands out [data_], in which every pixel (b,g,r,a) of the
    source reads (a,a,a,a); the shuffle runs on the first call only, and
    every later call on the same adapter hands out the very same buffer
    without touching the adapter. *)
Theorem GetBytes_key_only_alpha_cached
    (frame : const_frame) (fd : video_format_desc) :
  Z.of_nat (length (image_data frame)) = size fd ->
  size fd <= MachineInt.INT_MAX ->
  image_data frame <> [] ->
  let fr := Frame.new frame fd true in
  fst (GetBytes fr) = (S_OK, Some data_ptr)
  /\ length (GetBytes_bytes fr) = length (image_data frame)
  /\ (forall p b g r a,
        (4 * p + 3 < length (image_data frame))%nat ->
        pixel p (image_data frame) = (b, g, r, a) ->
        pixel p (GetBytes_bytes fr) = (a, a, a, a))
  /\ (forall n, (1 <= n)%nat ->
        let fr' := after_calls n fr in
        shuffles_ fr' = 1%nat
        /\ data_ fr' = GetBytes_bytes fr
        /\ GetBytes fr' = (S_OK, Some data_ptr, fr')).
Proof.
  intros Hsz Hmax Hne fr.
  pose proof (GetBytes_key_only_first frame fd Hsz Hmax) as Hfirst.
  cbn zeta in Hfirst. fold fr in Hfirst.
  assert (Hbytes : GetBytes_bytes fr
                   = Memshfl.aligned_memshfl
                       (Vector.resize (length (image_data frame)) x00 [])
                       (image_data frame) (length (image_data frame))
                       0x0F0F0F0F 0x0B0B0B0B 0x07070707 0x03030303).
  { unfold GetBytes_bytes. rewrite Hfirst. reflexivity. }
  assert (Hlen : length (GetBytes_bytes fr) = length (image_data frame)).
  { rewrite Hbytes. apply aligned_memshfl_length, VectorFacts.resize_length. }
  split; [now rewrite Hfirst|]. split; [exact Hlen|]. split.
  - intros p b g r a Hp Hpix.
    apply (f_equal snd) in Hpix. unfold pixel in *. cbn [snd] in Hpix.
    rewrite Hbytes, !nth_aligned_memshfl, !shuffle_byte_key_only by lia.
    replace ((4 * p) / 4)%nat with p
      by (symmetry; rewrite Nat.mul_comm; apply Nat.div_mul; lia).
    replace ((4 * p + 1) / 4)%nat with p
      by (apply Nat.div_unique with (r := 1%nat); lia).
    replace ((4 * p + 2) / 4)%nat with p
      by (apply Nat.div_unique with (r := 2%nat); lia).
    replace ((4 * p + 3) / 4)%nat with p
      by (apply Nat.div_unique with (r := 3%nat); lia).
    now rewrite Hpix.
  - intros n Hn. destruct n as [|n]; [lia|].
    cbn [after_calls]. rewrite Hfirst. cbn [snd].
    set (fr1 := set_data _ 1 fr).
    assert (Hd : data_ fr1 <> []).
    { unfold fr1. cbn [data_ set_data]. rewrite <- Hbytes.
      intros Hnil. rewrite Hnil in Hlen. destruct (image_data frame);
        [now apply Hne | discriminate]. }
    assert (Hsz1 : MachineInt.to_int (image_size fr1) = size (format_desc_ fr1)).
    { unfold image_size, fr1, fr. cbn [frame_ format_desc_ set_data new].
      rewrite MachineIntFacts.to_int_id; [exact Hsz|].
      unfold MachineInt.in_int, MachineInt.INT_MIN, MachineInt.INT_MAX in *.
      lia. }
    rewrite (after_calls_cached fr1 n Hsz1 eq_refl Hd).
    repeat split.
    + unfold fr1. cbn [data_ set_data]. now rewrite Hbytes.
    + now apply GetBytes_key_only_cached.
Qed.

(** C9.  Source image of a size other than the expected one: every call of
    [GetBytes], the first as well as any later one, with key-only mode on
    or off, succeeds and hands out [data_] holding [size] zero bytes; the
    alpha shuffle never runs. *)
Theorem GetBytes_blank_on_size_mismatch
    (frame : const_frame) (fd : video_format_desc) (key_only : bool)
    (n : nat) :
  Z.of_nat (length (image_data frame)) <> size fd ->
  Z.of_nat (length (image_data frame)) <= MachineInt.INT_MAX ->
  0 <= size fd ->
  let fr := after_calls n (Frame.new frame fd key_only) in
  fst (GetBytes fr) = (S_OK, Some data_ptr)
  /\ GetBytes_bytes fr = repeat x00 (Z.to_nat (size fd))
  /\ Z.of_nat (length (GetBytes_bytes fr)) = size fd
  /\ shuffles_ (snd (GetBytes fr)) = 0%nat.
Proof.
  intros Hne Hmax Hpos.
  set (fr0 := Frame.new frame fd key_only).
  assert (Hsz0 : MachineInt.to_int (image_size fr0) <> size (format_desc_ fr0)).
  { unfold image_size, fr0. cbn [frame_ format_desc_ new].
    rewrite MachineIntFacts.to_int_id; [exact Hne|].
    unfold MachineInt.in_int, MachineInt.INT_MIN, MachineInt.INT_MAX in *.
    lia. }
  assert (Hinv0 : blank_or_empty fr0) by (left; reflexivity).
  destruct (after_calls_mismatch fr0 n Hsz0 Hpos Hinv0)
    as (H1 & H2 & H3 & H4 & H5).
  cbn zeta. set (fr := after_calls n fr0) in *.
  assert (Hsz : MachineInt.to_int (image_size fr) <> size (format_desc_ fr)).
  { unfold image_size in *. now rewrite H1, H2. }
  assert (Hpos' : 0 <= size (format_desc_ fr)) by now rewrite H2.
  pose proof (GetBytes_mismatch fr Hsz Hpos' H5) as HG.
  assert (Hfd : format_desc_ fr = fd) by (rewrite H2; reflexivity).
  unfold GetBytes_bytes. rewrite HG. cbn [fst snd bytes_at data_ set_data shuffles_].
  rewrite Hfd. repeat split.
  - rewrite repeat_length. lia.
  - rewrite H4. reflexivity.
Qed.

Example GetBytes_key_only_two_pixels :
  GetBytes_bytes (Frame.new two_pixels (format_of_size 8) true)
  = [x40; x40; x40; x40; x80; x80; x80; x80].
Proof. reflexivity. Qed.

Lemma GetBytes_key_only_alpha_cached_witness :
  pixel 1 (GetBytes_bytes (Frame.new two_pixels (format_of_size 8) true))
  = (x80, x80, x80, x80)
  /\ shuffles_ (after_calls 3 (Frame.new two_pixels (format_of_size 8) true))
     = 1%nat.
Proof.
  pose proof (GetBytes_key_only_alpha_cached two_pixels (format_of_size 8)
                eq_refl ltac:(vm_compute; discriminate)
                ltac:(discriminate)) as (_ & _ & Hpix & Hcache).
  split.
  - apply (Hpix 1%nat x50 x60 x70 x80); [cbn; lia | reflexivity].
  - apply (Hcache 3%nat). lia.
Defined.

Lemma GetBytes_blank_on_size_mismatch_witness :
  GetBytes_bytes (after_calls 2 (Frame.new two_pixels (format_of_size 12) true))
  = repeat x00 12.
Proof.
  apply (GetBytes_blank_on_size_mismatch two_pixels (format_of_size 12) true 2).
  - cbn. discriminate.
  - vm_compute. discriminate.
  - cbn. lia.
Defined.

End FrameFacts.

(* ------------------------------------------------------------------ *)
(** ** The engine: what each member function touches *)

Module ConsumerFacts.

Import Core Consumer Fixtures ConsumerLogic.

Section Keeps.

Context {B : Type} (g : decklink_consumer -> B).

Lemma keeps_ret {A} (a : A) : keeps g (ret a).
Proof. intros s. reflexivity. Qed.

Lemma keeps_throw {A} e : keeps g (@throw A e).
Proof. intros s. reflexivity. Qed.

Lemma keeps_gets {A} (f : decklink_consumer -> A) : keeps g (gets f).
Proof. intros s. reflexivity. Qed.

Lemma keeps_modify f : (forall s, g (f s) = g s) -> keeps g (modify f).
Proof. intros H s. apply H. Qed.

Lemma keeps_bind {A C} (m : M A) (k : A -> M C) :
  keeps g m -> (forall a, keeps g (k a)) -> keeps g (bind m k).
Proof.
  intros Hm Hk s. unfold bind. specialize (Hm s).
  destruct (m s) as [a s'|e s'|s']; cbn [state_of] in *; try assumption.
  now rewrite Hk.
Qed.

Lemma keeps_try_catch {A} (m : M A) h :
  keeps g m -> (forall e, keeps g (h e)) -> keeps g (try_catch m h).
Proof.
  intros Hm Hh s. unfold try_catch. specialize (Hm s).
  destruct (m s) as [a s'|e s'|s']; cbn [state_of] in *; try assumption.
  now rewrite Hh.
Qed.

Lemma keeps_when b m : keeps g m -> keeps g (when b m).
Proof. destruct b; [trivial | intros _; apply keeps_ret]. Qed.

Lemma keeps_repeatM n m : keeps g m -> keeps g (repeatM n m).
Proof.
  intros Hm. induction n as [|n IH]; cbn [repeatM].
  - apply keeps_ret.
  - apply keeps_bind; auto.
Qed.

Lemma keeps_if {A} (b : bool) (m1 m2 : M A) :
  keeps g m1 -> keeps g m2 -> keeps g (if b then m1 else m2).
Proof. destruct b; auto. Qed.

End Keeps.

Section Returns.

Lemma returns_ret {A} (a : A) : returns (ret a).
Proof. intros s. now exists a, s. Qed.

Lemma returns_gets {A} (f : decklink_consumer -> A) : returns (gets f).
Proof. intros s. now exists (f s), s. Qed.

Lemma returns_modify f : returns (modify f).
Proof. intros s. now exists tt, (f s). Qed.

Lemma returns_call c : returns (call c).
Proof. intros s. unfold call. eauto. Qed.

Lemma returns_bind {A C} (m : M A) (k : A -> M C) :
  returns m -> (forall a, returns (k a)) -> returns (bind m k).
Proof.
  intros Hm Hk s. unfold bind. destruct (Hm s) as (a & s' & ->). apply Hk.
Qed.

Lemma returns_if {A} (b : bool) (m1 m2 : M A) :
  returns m1 -> returns m2 -> returns (if b then m1 else m2).
Proof. destruct b; auto. Qed.

End Returns.



Lemma scheduled_video_app l l' :
  scheduled_video (l ++ l') = scheduled_video l ++ scheduled_video l'.
Proof.
  induction l as [|e l IH]; [reflexivity|].
  destruct e as [c| |]; cbn; try assumption.
  destruct c; cbn; try assumption. now f_equal.
Qed.

Lemma scheduled_audio_app l l' :
  scheduled_audio (l ++ l') = scheduled_audio l ++ scheduled_audio l'.
Proof.
  induction l as [|e l IH]; [reflexivity|].
  destruct e as [c| |]; cbn; try assumption.
  destruct c; cbn; try assumption. now f_equal.
Qed.

Lemma added_app s s' l : log_ s' = log_ s ++ l -> added s s' = l.
Proof.
  intros H. unfold added. rewrite H, skipn_app, skipn_all, Nat.sub_diag.
  reflexivity.
Qed.

Lemma added_same s : added s s = [].
Proof. unfold added. apply skipn_all. Qed.

(** *** The slot buffers and the retry, step by step *)

Ltac unfold_slots :=
  unfold audio_try_push, video_try_push, video_pop,
    Tbb.try_push, Tbb.pop, Tbb.try_pop, Tbb.size.

Ltac unfold_monad :=
  unfold call, bind, gets, modify, ret, throw, try_catch, when, latch.

Ltac unfold_slots_in H :=
  unfold audio_try_push, video_try_push, video_pop,
    Tbb.try_push, Tbb.pop, Tbb.try_pop, Tbb.size in H.

Ltac unfold_monad_in H :=
  unfold latch, call, when in H;
  unfold bind, gets, modify, ret, throw, try_catch in H.

Ltac break_if :=
  match goal with
  | |- context [if ?c then _ else _] =>
      lazymatch c with
      | context [if _ then _ else _] => fail
      | context [match _ with _ => _ end] => fail
      | _ => destruct c eqn:?
      end
  end.

(** One invocation of [enqueue_task] always returns; it changes the slot
    buffers and the trace only. *)
Lemma run_enqueue_task_returns t : returns (run_enqueue_task t).
Proof.
  intros s. unfold run_enqueue_task. unfold_slots. unfold_monad.
  repeat (break_if; cbn [negb andb]); eauto.
Qed.

Lemma try_completion_returns : returns try_completion.
Proof.
  intros s. unfold try_completion.
  unfold bind at 1. unfold gets at 1.
  destruct (func_ (send_completion_ s)) as [t|]; [|apply returns_ret].
  destruct (done_ (send_completion_ s)); [apply returns_ret|].
  apply returns_bind; [apply run_enqueue_task_returns|].
  intros [[v|] t']; cbn [fst snd];
    repeat (apply returns_bind; [apply returns_modify|intros _]);
    apply returns_ret.
Qed.

Lemma schedule_next_video_returns f : returns (schedule_next_video f).
Proof.
  unfold schedule_next_video.
  apply returns_bind; [apply returns_gets|intros s0].
  apply returns_bind; [apply returns_call|intros _].
  apply returns_modify.
Qed.

Lemma schedule_next_audio_returns a : returns (schedule_next_audio a).
Proof.
  unfold schedule_next_audio.
  apply returns_bind; [apply returns_gets|intros s0].
  apply returns_bind; [apply returns_modify|intros _].
  apply returns_bind; [apply returns_call|intros _].
  apply returns_modify.
Qed.

Ltac beside := repeat split; intros; reflexivity.

Lemma beside_video_scheduled : beside_slots video_scheduled_.
Proof. beside. Qed.
Lemma beside_audio_scheduled : beside_slots audio_scheduled_.
Proof. beside. Qed.
Lemma beside_preroll_count : beside_slots preroll_count_.
Proof. beside. Qed.
Lemma beside_format_desc : beside_slots format_desc_.
Proof. beside. Qed.
Lemma beside_config : beside_slots config_.
Proof. beside. Qed.
Lemma beside_is_running : beside_slots is_running_.
Proof. beside. Qed.
Lemma beside_exception : beside_slots exception_.
Proof. beside. Qed.
Lemma beside_buffer_size : beside_slots buffer_size_.
Proof. beside. Qed.
Lemma beside_output : beside_slots output_.
Proof. beside. Qed.

Lemma keeps_call {B} (g : decklink_consumer -> B) c :
  beside_slots g -> keeps g (call c).
Proof. intros (_ & _ & _ & H) s. apply H. Qed.

Lemma keeps_video_try_push {B} (g : decklink_consumer -> B) f :
  beside_slots g -> keeps g (video_try_push f).
Proof.
  intros (Hv & _ & _ & Hl) s. unfold_slots.
  break_if; cbn [state_of]; now rewrite ?Hl, ?Hv.
Qed.

Lemma keeps_audio_try_push {B} (g : decklink_consumer -> B) f :
  beside_slots g -> keeps g (audio_try_push f).
Proof.
  intros (_ & Ha & _ & Hl) s. unfold_slots.
  break_if; cbn [state_of]; now rewrite ?Hl, ?Ha.
Qed.

Lemma keeps_video_pop {B} (g : decklink_consumer -> B) :
  beside_slots g -> keeps g video_pop.
Proof.
  intros (Hv & _) s. unfold_slots.
  destruct (Tbb.items (video_frame_buffer_ s)); cbn [state_of];
    now rewrite ?Hv.
Qed.

Lemma keeps_run_enqueue_task {B} (g : decklink_consumer -> B) t :
  beside_slots g -> keeps g (run_enqueue_task t).
Proof.
  intros Hg. unfold run_enqueue_task.
  apply keeps_bind;
    [apply keeps_if; [now apply keeps_audio_try_push | apply keeps_ret]|].
  intros a. apply keeps_bind;
    [apply keeps_if; [now apply keeps_video_try_push | apply keeps_ret]|].
  intros v. apply keeps_ret.
Qed.

Lemma keeps_try_completion {B} (g : decklink_consumer -> B) :
  beside_slots g -> keeps g try_completion.
Proof.
  intros Hg. pose proof Hg as (_ & _ & Hr & Hl).
  unfold try_completion. apply keeps_bind; [apply keeps_gets|].
  intros rt. destruct (func_ rt) as [t|]; [|apply keeps_ret].
  destruct (done_ rt); [apply keeps_ret|].
  apply keeps_bind; [now apply keeps_run_enqueue_task|].
  intros [[v|] t']; cbn [fst snd];
    repeat (apply keeps_bind; [apply keeps_modify; auto|intros _]);
    apply keeps_ret.
Qed.

Lemma ghost_only_scheduled_video l : ghost_only l -> scheduled_video l = [].
Proof.
  induction l as [|e l IH]; intros H; [reflexivity|].
  pose proof (H e (or_introl eq_refl)) as He.
  destruct e; [contradiction| |]; cbn; apply IH;
    intros e' He'; apply H; now right.
Qed.

Lemma ghost_only_scheduled_audio l : ghost_only l -> scheduled_audio l = [].
Proof.
  induction l as [|e l IH]; intros H; [reflexivity|].
  pose proof (H e (or_introl eq_refl)) as He.
  destruct e; [contradiction| |]; cbn; apply IH;
    intros e' He'; apply H; now right.
Qed.

Lemma ghost_only_app l l' : ghost_only l -> ghost_only l' -> ghost_only (l ++ l').
Proof.
  intros H H' e He. apply in_app_or in He.
  destruct He; [apply H | apply H']; assumption.
Qed.

Lemma run_enqueue_task_trace t s :
  exists l, log_ (state_of (run_enqueue_task t s)) = log_ s ++ l
            /\ ghost_only l.
Proof.
  unfold run_enqueue_task. unfold_slots. unfold_monad.
  repeat (break_if; cbn [negb andb state_of log_ append_log
                           set_video_frame_buffer set_audio_frame_buffer]);
    rewrite <- ?app_assoc;
    first [ exists []; split; [now rewrite app_nil_r | intros e []]
          | eexists; split; [reflexivity|];
            intros e He; cbn in He; intuition (subst; exact I) ].
Qed.

Lemma try_completion_trace s :
  exists l, log_ (state_of (try_completion s)) = log_ s ++ l /\ ghost_only l.
Proof.
  unfold try_completion. unfold bind at 1. unfold gets at 1.
  destruct (func_ (send_completion_ s)) as [t|];
    [|exists []; split; [now rewrite app_nil_r | intros e []]].
  destruct (done_ (send_completion_ s));
    [exists []; split; [now rewrite app_nil_r | intros e []]|].
  destruct (run_enqueue_task_trace t s) as (l & Hl & Hg).
  destruct (run_enqueue_task_returns t s) as ([[v|] t'] & s' & E);
    unfold bind at 1; rewrite E in *; cbn [state_of fst snd] in *.
  - exists (l ++ [Resolved v]). split.
    + unfold_monad. cbn [state_of log_ append_log set_send_completion].
      now rewrite Hl, app_assoc.
    + apply ghost_only_app; [assumption|].
      intros e [<-|[]]. exact I.
  - exists l. split; [|assumption].
    unfold_monad. cbn [state_of log_ set_send_completion]. assumption.
Qed.

(** *** Re-arming the video path *)

(** On an empty video slot buffer the thread parks and nothing has
    happened. *)
Lemma rearm_empty s :
  Tbb.items (video_frame_buffer_ s) = [] -> rearm s = Blocked s.
Proof.
  intros H. unfold rearm. unfold bind at 1. unfold_slots. now rewrite H.
Qed.

(** Otherwise it returns, having scheduled the oldest buffered frame at the
    current timestamp and advanced the timestamp by one frame duration. *)
Lemma rearm_nonempty s f rest :
  Tbb.items (video_frame_buffer_ s) = f :: rest ->
  exists s' l,
    rearm s = Ok tt s'
    /\ ghost_only l
    /\ log_ s' = log_ s ++ l
         ++ [Output (ScheduleVideoFrame
                       (Frame.new f (format_desc_ s) (key_only (config_ s)))
                       (video_scheduled_ s) (duration (format_desc_ s))
                       (time_scale (format_desc_ s)));
             Output GetBufferedVideoFrameCount]
    /\ video_scheduled_ s'
       = MachineInt.to_long_long (video_scheduled_ s + duration (format_desc_ s))
    /\ audio_scheduled_ s' = audio_scheduled_ s
    /\ preroll_count_ s' = preroll_count_ s
    /\ is_running_ s' = is_running_ s
    /\ exception_ s' = exception_ s.
Proof.
  intros H. unfold rearm. unfold bind at 1. unfold_slots. rewrite H.
  set (s1 := set_video_frame_buffer _ s).
  destruct (try_completion_returns s1) as (b & s2 & E).
  destruct (try_completion_trace s1) as (l & Hl & Hg).
  pose proof (keeps_try_completion _ beside_video_scheduled s1) as Kv.
  pose proof (keeps_try_completion _ beside_audio_scheduled s1) as Ka.
  pose proof (keeps_try_completion _ beside_format_desc s1) as Kf.
  pose proof (keeps_try_completion _ beside_config s1) as Kc.
  pose proof (keeps_try_completion _ beside_preroll_count s1) as Kp.
  pose proof (keeps_try_completion _ beside_is_running s1) as Kr.
  pose proof (keeps_try_completion _ beside_exception s1) as Kx.
  unfold bind at 1. rewrite E in *. cbn [state_of] in *.
  unfold schedule_next_video. unfold_monad.
  eexists _, l. split; [reflexivity|]. split; [assumption|].
  cbn [log_ append_log set_video_scheduled video_scheduled_ audio_scheduled_
         preroll_count_ is_running_ exception_].
  rewrite Hl, Kv, Ka, Kf, Kc, Kp, Kr, Kx. subst s1.
  cbn [log_ set_video_frame_buffer video_scheduled_ audio_scheduled_
         format_desc_ config_ preroll_count_ is_running_ exception_].
  rewrite <- !app_assoc. cbn [app]. repeat split; reflexivity.
Qed.

(* ------------------------------------------------------------------ *)
(** ** The callbacks and [send] at the edge of the engine *)

(** C10.  With the running flag down, the video-completion callback and the
    audio-render callback both return [E_FAIL], a failure code, and leave
    the whole object as it was: the two scheduled counters, the preroll
    counter and both slot buffers among the rest. *)
Theorem callbacks_fail_when_not_running
    (s : decklink_consumer) (completed_frame : Frame.decklink_frame)
    (result : BMDOutputFrameCompletionResult) (preroll : BOOL) :
  is_running_ s = false ->
  ScheduledFrameCompleted completed_frame result s = Ok E_FAIL s
  /\ RenderAudioSamples preroll s = Ok E_FAIL s
  /\ FAILED E_FAIL = true.
Proof.
  intros H. unfold ScheduledFrameCompleted, RenderAudioSamples.
  unfold bind at 1. unfold gets at 1. rewrite H. cbn [negb].
  split; [reflexivity|].
  unfold bind at 1. unfold gets at 1. rewrite H. cbn [negb].
  split; reflexivity.
Qed.

(** The engine after the driver reported that playback stopped. *)
Lemma callbacks_fail_when_not_running_witness :
  let s := state_of (ScheduledPlaybackHasStopped pal_engine) in
  ScheduledFrameCompleted (Frame.new (tone 3) pal false)
    bmdOutputFrameCompleted s = Ok E_FAIL s
  /\ RenderAudioSamples TRUE s = Ok E_FAIL s.
Proof.
  intros s.
  destruct (callbacks_fail_when_not_running s (Frame.new (tone 3) pal false)
              bmdOutputFrameCompleted TRUE eq_refl) as (H1 & H2 & _).
  split; assumption.
Defined.

(** C7.  [send] on an engine whose latch holds an exception, or whose
    running flag is down, leaves by an exception (the latched one when
    there is one, "is not running" otherwise) and leaves the whole object,
    both slot buffers among the rest, as it was. *)
Theorem send_fails_without_enqueueing
    (s : decklink_consumer) (f : const_frame) :
  exception_ s <> None \/ is_running_ s = false ->
  exists e,
    send f s = Throw e s
    /\ (forall x, exception_ s = Some x -> e = x)
    /\ (exception_ s = None -> e = is_not_running)
    /\ video_frame_buffer_ (state_of (send f s)) = video_frame_buffer_ s
    /\ audio_frame_buffer_ (state_of (send f s)) = audio_frame_buffer_ s.
Proof.
  intros H.
  assert (Hsend : exists e,
             send f s = Throw e s
             /\ (forall x, exception_ s = Some x -> e = x)
             /\ (exception_ s = None -> e = is_not_running)).
  { unfold send. unfold bind at 1. unfold gets at 1.
    destruct (exception_ s) as [x|] eqn:Ex.
    - exists x. unfold throw. repeat split; intros; congruence.
    - destruct H as [H|H]; [congruence|].
      exists is_not_running. unfold bind at 1. unfold gets at 1. rewrite H.
      cbn [negb]. unfold throw. repeat split; intros; congruence. }
  destruct Hsend as (e & Hs & H1 & H2). exists e. rewrite Hs.
  cbn [state_of]. auto.
Qed.

(** On the stubborn device the fifth preroll callback fails to start
    playback; the exception it latches comes back from [send]. *)
Lemma send_fails_without_enqueueing_witness :
  let s := run (repeat (audio_render TRUE) 5)
             (constructed default_configuration pal stubborn_device) in
  exists e, send (tone 3) s = Throw e s /\ e = failed_to_schedule_playback.
Proof.
  intros s.
  destruct (send_fails_without_enqueueing s (tone 3))
    as (e & Hs & Hx & _).
  - left. vm_compute. discriminate.
  - exists e. split; [exact Hs|]. apply Hx. reflexivity.
Defined.

(** What the video callback does on a running engine, in terms of
    [rearm]. *)
Lemma ScheduledFrameCompleted_running s completed_frame result :
  is_running_ s = true ->
  ScheduledFrameCompleted completed_frame result s
  = try_catch
      (when (is_displayed_late result) (late_adjust completed_frame) ;;
       rearm ;; ret S_OK) latch s.
Proof.
  intros H. unfold ScheduledFrameCompleted.
  unfold bind at 1. unfold gets at 1. now rewrite H.
Qed.

Lemma ScheduledFrameCompleted_on_time s completed_frame result :
  is_running_ s = true ->
  is_displayed_late result = false ->
  ScheduledFrameCompleted completed_frame result s
  = match rearm s with
    | Ok _ s' => Ok S_OK s'
    | Throw e s' => Ok E_FAIL (set_exception (Some e) s')
    | Blocked s' => Blocked s'
    end.
Proof.
  intros H Hr. rewrite ScheduledFrameCompleted_running by assumption.
  rewrite Hr. unfold try_catch, when.
  unfold bind at 1. unfold ret at 1. unfold bind at 1.
  destruct (rearm s); reflexivity.
Qed.

(** The state in which a displayed-late completion reaches [rearm]. *)
Lemma late_adjust_state s completed_frame :
  exists s1,
    late_adjust completed_frame s = Ok tt s1
    /\ video_scheduled_ s1
       = MachineInt.to_long_long (video_scheduled_ s + duration (format_desc_ s))
    /\ audio_scheduled_ s1
       = MachineInt.to_long_long
           (audio_scheduled_ s
            + sample_frames (format_desc_ s) (Frame.audio_data completed_frame))
    /\ format_desc_ s1 = format_desc_ s
    /\ config_ s1 = config_ s
    /\ video_frame_buffer_ s1 = video_frame_buffer_ s
    /\ log_ s1 = log_ s.
Proof.
  unfold late_adjust. unfold_monad. eexists. split; [reflexivity|].
  repeat split; reflexivity.
Qed.

Lemma ScheduledFrameCompleted_late s completed_frame :
  is_running_ s = true ->
  exists s1,
    late_adjust completed_frame s = Ok tt s1
    /\ ScheduledFrameCompleted completed_frame bmdOutputFrameDisplayedLate s
       = match rearm s1 with
         | Ok _ s' => Ok S_OK s'
         | Throw e s' => Ok E_FAIL (set_exception (Some e) s')
         | Blocked s' => Blocked s'
         end.
Proof.
  intros H. rewrite ScheduledFrameCompleted_running by assumption.
  destruct (late_adjust_state s completed_frame) as (s1 & E & _).
  exists s1. split; [assumption|].
  cbn [is_displayed_late when]. unfold try_catch.
  unfold bind at 1. rewrite E. unfold bind at 1.
  destruct (rearm s1); reflexivity.
Qed.

(** C3.  On a running engine, a displayed-late completion ends with the
    scheduled video timestamp one frame duration, and the scheduled audio
    sample counter one frame's sample-frame count (that of the completed
    frame), ahead of where any other completion from the same state ends,
    in [long long] arithmetic; and it ends the same way, returning [S_OK]
    or parked on the empty video slot buffer. *)
Theorem displayed_late_one_extra_unit
    (s : decklink_consumer) (completed_frame : Frame.decklink_frame)
    (result : BMDOutputFrameCompletionResult) :
  is_running_ s = true ->
  is_displayed_late result = false ->
  let on_time := ScheduledFrameCompleted completed_frame result s in
  let late :=
    ScheduledFrameCompleted completed_frame bmdOutputFrameDisplayedLate s in
  let unit_video := duration (format_desc_ s) in
  let unit_audio :=
    sample_frames (format_desc_ s) (Frame.audio_data completed_frame) in
  video_scheduled_ (state_of late)
  = MachineInt.to_long_long (video_scheduled_ (state_of on_time) + unit_video)
  /\ audio_scheduled_ (state_of late)
     = MachineInt.to_long_long
         (audio_scheduled_ (state_of on_time) + unit_audio)
  /\ (MachineInt.in_long_long
        (video_scheduled_ (state_of on_time) + unit_video) ->
      video_scheduled_ (state_of late)
      = video_scheduled_ (state_of on_time) + unit_video)
  /\ (MachineInt.in_long_long
        (audio_scheduled_ (state_of on_time) + unit_audio) ->
      audio_scheduled_ (state_of late)
      = audio_scheduled_ (state_of on_time) + unit_audio)
  /\ ((exists s1 s2, on_time = Ok S_OK s1 /\ late = Ok S_OK s2)
      \/ (exists s1 s2, on_time = Blocked s1 /\ late = Blocked s2)).
Proof.
  intros Hrun Hr on_time late unit_video unit_audio.
  assert (Hmain :
    video_scheduled_ (state_of late)
    = MachineInt.to_long_long (video_scheduled_ (state_of on_time) + unit_video)
    /\ audio_scheduled_ (state_of late)
       = MachineInt.to_long_long
           (audio_scheduled_ (state_of on_time) + unit_audio)
    /\ ((exists s1 s2, on_time = Ok S_OK s1 /\ late = Ok S_OK s2)
        \/ (exists s1 s2, on_time = Blocked s1 /\ late = Blocked s2))).
  { subst on_time late.
    rewrite (ScheduledFrameCompleted_on_time s completed_frame result Hrun Hr).
    destruct (ScheduledFrameCompleted_late s completed_frame Hrun)
      as (s1 & Hadj & ->).
    destruct (late_adjust_state s completed_frame)
      as (s1' & Hadj' & Hv & Ha & Hf & Hc & Hb & Hl).
    rewrite Hadj in Hadj'. injection Hadj' as <-.
    destruct (Tbb.items (video_frame_buffer_ s)) as [|f rest] eqn:Hitems.
    - rewrite (rearm_empty s Hitems).
      rewrite (rearm_empty s1) by (now rewrite Hb).
      cbn [state_of]. repeat split; try assumption.
      right. eauto.
    - destruct (rearm_nonempty s f rest Hitems)
        as (s' & l & -> & _ & _ & Hv' & Ha' & _).
      assert (Hitems1 : Tbb.items (video_frame_buffer_ s1) = f :: rest)
        by (now rewrite Hb).
      destruct (rearm_nonempty s1 f rest Hitems1)
        as (s1' & l1 & -> & _ & _ & Hv1 & Ha1 & _).
      cbn [state_of]. rewrite Hv1, Ha1, Hv', Ha', Hv, Ha, Hf.
      repeat split; try reflexivity. left. eauto. }
  destruct Hmain as (Hv & Ha & Hshape).
  repeat split; try assumption.
  - intros Hin. rewrite Hv. now apply MachineIntFacts.to_long_long_id.
  - intros Hin. rewrite Ha. now apply MachineIntFacts.to_long_long_id.
Qed.

(** A frame with three sample frames of audio waits in the video slot of
    the PAL engine; the completed frame carried three sample frames. *)
Lemma displayed_late_one_extra_unit_witness :
  let s := state_of (send (tone 3) pal_engine) in
  let fr := Frame.new (tone 3) pal false in
  video_scheduled_
    (state_of (ScheduledFrameCompleted fr bmdOutputFrameDisplayedLate s))
  = video_scheduled_
      (state_of (ScheduledFrameCompleted fr bmdOutputFrameCompleted s)) + 1000
  /\ audio_scheduled_
       (state_of (ScheduledFrameCompleted fr bmdOutputFrameDisplayedLate s))
     = audio_scheduled_
         (state_of (ScheduledFrameCompleted fr bmdOutputFrameCompleted s)) + 3.
Proof.
  intros s fr.
  destruct (displayed_late_one_extra_unit s fr bmdOutputFrameCompleted
              eq_refl eq_refl) as (_ & _ & Hv & Ha & _).
  split.
  - apply Hv. vm_compute. split; discriminate.
  - apply Ha. vm_compute. split; discriminate.
Defined.

(* ------------------------------------------------------------------ *)
(** ** The video path on an empty slot buffer *)

Lemma ScheduledFrameCompleted_resume_rearm s :
  ScheduledFrameCompleted_resume s
  = match rearm s with
    | Ok _ s' => Ok S_OK s'
    | Throw e s' => Ok E_FAIL (set_exception (Some e) s')
    | Blocked s' => Blocked s'
    end.
Proof.
  unfold ScheduledFrameCompleted_resume, try_catch. unfold bind at 1.
  destruct (rearm s); reflexivity.
Qed.

Lemma rearm_schedules_oldest s f rest :
  Tbb.items (video_frame_buffer_ s) = f :: rest ->
  exists s', rearm s = Ok tt s' /\ scheduled_video (added s s') = [f].
Proof.
  intros H. destruct (rearm_nonempty s f rest H) as (s' & l & E & Hg & Hl & _).
  exists s'. split; [assumption|].
  rewrite (added_app s s' _ Hl), scheduled_video_app.
  now rewrite (ghost_only_scheduled_video l Hg).
Qed.

(** C5, as the code has it.  On a running engine the video-completion
    callback schedules the oldest frame of the video slot buffer when
    there is one, and returns [S_OK].  On an empty buffer it schedules
    nothing, an empty frame no more than another: its thread parks in
    [pop].  When it goes on, it schedules the frame that has arrived. *)
Theorem video_completion_schedules_oldest_or_parks
    (s : decklink_consumer) (completed_frame : Frame.decklink_frame)
    (result : BMDOutputFrameCompletionResult) :
  is_running_ s = true ->
  (forall f rest,
      Tbb.items (video_frame_buffer_ s) = f :: rest ->
      exists s',
        ScheduledFrameCompleted completed_frame result s = Ok S_OK s'
        /\ scheduled_video (added s s') = [f])
  /\ (Tbb.items (video_frame_buffer_ s) = [] ->
      exists s',
        ScheduledFrameCompleted completed_frame result s = Blocked s'
        /\ added s s' = []
        /\ Tbb.items (video_frame_buffer_ s') = []
        /\ forall f q,
             Tbb.items q = [f] ->
             exists s'',
               ScheduledFrameCompleted_resume (set_video_frame_buffer q s')
               = Ok S_OK s''
               /\ scheduled_video (added s' s'') = [f]).
Proof.
  intros Hrun.
  assert (Hresume : forall s0 f q,
             Tbb.items q = [f] ->
             exists s'',
               ScheduledFrameCompleted_resume (set_video_frame_buffer q s0)
               = Ok S_OK s''
               /\ scheduled_video (added s0 s'') = [f]).
  { intros s0 f q Hq. rewrite ScheduledFrameCompleted_resume_rearm.
    destruct (rearm_schedules_oldest (set_video_frame_buffer q s0) f [] Hq)
      as (s'' & -> & Hs). exists s''. split; [reflexivity | exact Hs]. }
  destruct (is_displayed_late result) eqn:Hr.
  - assert (result = bmdOutputFrameDisplayedLate) as ->
      by (destruct result; try discriminate; reflexivity).
    destruct (ScheduledFrameCompleted_late s completed_frame Hrun)
      as (s1 & Hadj & ->).
    destruct (late_adjust_state s completed_frame)
      as (s1' & Hadj' & _ & _ & _ & _ & Hb & Hl).
    rewrite Hadj in Hadj'. injection Hadj' as <-.
    assert (Hadd : forall s', added s s' = added s1 s')
      by (intros s'; unfold added; now rewrite Hl).
    split.
    + intros f rest Hitems. rewrite <- Hb in Hitems.
      destruct (rearm_schedules_oldest s1 f rest Hitems) as (s' & -> & Hs).
      exists s'. split; [reflexivity | now rewrite Hadd].
    + intros Hitems. rewrite <- Hb in Hitems.
      rewrite (rearm_empty s1 Hitems). exists s1.
      split; [reflexivity|]. split; [rewrite Hadd; apply added_same|].
      split; [assumption | apply Hresume].
  - rewrite (ScheduledFrameCompleted_on_time s completed_frame result Hrun Hr).
    split.
    + intros f rest Hitems.
      destruct (rearm_schedules_oldest s f rest Hitems) as (s' & -> & Hs).
      exists s'. split; [reflexivity | assumption].
    + intros Hitems. rewrite (rearm_empty s Hitems). exists s.
      split; [reflexivity|]. split; [apply added_same|].
      split; [assumption | apply Hresume].
Qed.

Lemma video_completion_schedules_oldest_or_parks_witness :
  exists s',
    ScheduledFrameCompleted (Frame.new Core.empty pal false)
      bmdOutputFrameCompleted (state_of (send (tone 3) pal_engine))
    = Ok S_OK s'
    /\ scheduled_video (added (state_of (send (tone 3) pal_engine)) s')
       = [tone 3].
Proof.
  destruct (video_completion_schedules_oldest_or_parks
              (state_of (send (tone 3) pal_engine))
              (Frame.new Core.empty pal false) bmdOutputFrameCompleted
              eq_refl) as (H & _).
  apply (H (tone 3) []). reflexivity.
Defined.

(** C5 as stated fails: right after construction the video slot buffer is
    empty, and the video-completion callback does not return, with or
    without an empty frame scheduled; it parks. *)
Lemma video_completion_underrun_parks :
  is_running_ pal_engine = true
  /\ Tbb.items (video_frame_buffer_ pal_engine) = []
  /\ ScheduledFrameCompleted (Frame.new Core.empty pal false)
       bmdOutputFrameCompleted pal_engine
     = Blocked pal_engine
  /\ ~ (exists hr s',
          ScheduledFrameCompleted (Frame.new Core.empty pal false)
            bmdOutputFrameCompleted pal_engine = Ok hr s'
          /\ scheduled_video (added pal_engine s') = [Core.empty]).
Proof.
  assert (H : ScheduledFrameCompleted (Frame.new Core.empty pal false)
                bmdOutputFrameCompleted pal_engine
              = Blocked pal_engine) by reflexivity.
  repeat split; try reflexivity.
  intros (hr & s' & E & _). rewrite H in E. discriminate.
Qed.

(* ------------------------------------------------------------------ *)
(** ** The audio path while priming *)

(** One audio-render callback with [preroll] set, on a running engine: the
    counter goes up by one, and the callback ends priming exactly when the
    new count has reached [buffer_size_]. *)
Lemma RenderAudioSamples_preroll_step s :
  is_running_ s = true ->
  let c := MachineInt.to_int (preroll_count_ s + 1) in
  let s' := state_of (RenderAudioSamples TRUE s) in
  preroll_count_ s' = c
  /\ is_running_ s' = true
  /\ buffer_size_ s' = buffer_size_ s
  /\ exists l,
       log_ s' = log_ s ++ l
       /\ existsb is_end_preroll l = (buffer_size_ s <=? c)
       /\ existsb is_start_playback l = (buffer_size_ s <=? c).
Proof.
  intros Hrun c s'. subst s'.
  remember (RenderAudioSamples TRUE s) as r eqn:E.
  unfold RenderAudioSamples in E.
  unfold bind at 1 in E. unfold gets at 1 in E. rewrite Hrun in E.
  cbn [negb] in E.
  unfold try_catch in E. change (truthy TRUE) with true in E. cbv iota in E.
  unfold bind at 1 in E. unfold bind at 1 in E. unfold modify at 1 in E.
  unfold bind at 1 in E. unfold gets at 1 in E.
  cbn [buffer_size_ preroll_count_ set_preroll_count format_desc_] in E.
  fold c in E. destruct (buffer_size_ s <=? c) eqn:Hc.
  - unfold start_playback, latch, call in E.
    unfold bind, gets, modify, ret, throw in E.
    cbn [log_ append_log set_preroll_count format_desc_ output_] in E.
    match type of E with
    | context [FAILED ?x] => destruct (FAILED x)
    end; subst r;
      cbn [state_of preroll_count_ is_running_ buffer_size_ log_
             append_log set_exception set_preroll_count];
      (repeat split; try assumption; try reflexivity);
      eexists; (split; [rewrite <- ?app_assoc; reflexivity|]);
      split; reflexivity.
  - unfold audio_buffer in E.
    destruct (silence_size (format_desc_ s) TRUE <? 0).
    + unfold latch in E. unfold throw, bind, modify, ret in E. subst r.
      cbn [state_of preroll_count_ is_running_ buffer_size_ log_
             set_exception set_preroll_count].
      repeat split; try assumption; try reflexivity.
      exists []. rewrite app_nil_r. repeat split; reflexivity.
    + unfold schedule_next_audio, latch, call in E.
      unfold bind, gets, modify, ret in E.
      subst r.
      cbn [state_of preroll_count_ is_running_ buffer_size_ log_
             append_log set_audio_scheduled set_audio_container
             set_preroll_count].
      repeat split; try assumption; try reflexivity.
      eexists. split; [rewrite <- ?app_assoc; reflexivity|].
      split; reflexivity.
Qed.

Lemma preroll_calls_S n s :
  preroll_calls (S n) s
  = state_of (RenderAudioSamples TRUE (preroll_calls n s)).
Proof.
  unfold preroll_calls, run.
  replace (S n) with (n + 1)%nat by lia.
  rewrite repeat_app, fold_left_app. reflexivity.
Qed.

(** The counter after [n] preroll callbacks on a fresh, running engine. *)
Lemma preroll_calls_count s n :
  is_running_ s = true ->
  preroll_count_ s = 0 ->
  Z.of_nat n <= MachineInt.INT_MAX ->
  preroll_count_ (preroll_calls n s) = Z.of_nat n
  /\ is_running_ (preroll_calls n s) = true
  /\ buffer_size_ (preroll_calls n s) = buffer_size_ s.
Proof.
  intros Hrun H0. induction n as [|n IH]; intros Hn.
  - cbn. auto.
  - destruct IH as (Hc & Hr & Hb); [lia|].
    rewrite preroll_calls_S.
    destruct (RenderAudioSamples_preroll_step (preroll_calls n s) Hr)
      as (Hc' & Hr' & Hb' & _).
    rewrite Hc', Hr', Hb', Hc, Hb. repeat split.
    rewrite MachineIntFacts.to_int_id; [lia|].
    unfold MachineInt.in_int, MachineInt.INT_MIN, MachineInt.INT_MAX in *.
    lia.
Qed.

(** What construction leaves behind when it succeeds. *)
Lemma new_state config fd ch dev s :
  Consumer.new config fd ch dev = Ok tt s ->
  is_running_ s = true
  /\ preroll_count_ s = 0
  /\ buffer_size_ s = buffer_depth config
  /\ config_ s = config
  /\ format_desc_ s = fd.
Proof.
  unfold Consumer.new.
  set (s0 := initial config fd ch dev).
  destruct (MachineInt.to_int (buffer_size_ s0 + 1) <? 0); [discriminate|].
  unfold constructor_body.
  unfold bind at 1. unfold modify at 1.
  unfold bind at 1. unfold modify at 1.
  unfold bind at 1. unfold modify at 1.
  set (s3 := set_audio_frame_buffer _ _).
  set (rest := bind enable_video _).
  intros H.
  assert (Hk : forall {B} (g : decklink_consumer -> B),
             beside_slots g ->
             (forall x s, g (set_video_scheduled x s) = g s) ->
             g s = g s3).
  { intros B g Hg Hv.
    assert (K : keeps g rest).
    { unfold rest, enable_video, enable_audio, start_playback,
        schedule_next_video.
      repeat first
        [ apply keeps_ret | apply keeps_throw | apply keeps_gets
        | apply keeps_when | apply keeps_repeatM | apply keeps_if
        | apply keeps_call; assumption
        | apply keeps_modify; intro; apply Hv
        | apply keeps_bind; [|intro] ]. }
    specialize (K s3). rewrite H in K. exact K. }
  rewrite (Hk _ is_running_ beside_is_running ltac:(reflexivity)).
  rewrite (Hk _ preroll_count_ beside_preroll_count ltac:(reflexivity)).
  rewrite (Hk _ buffer_size_ beside_buffer_size ltac:(reflexivity)).
  rewrite (Hk _ config_ beside_config ltac:(reflexivity)).
  rewrite (Hk _ format_desc_ beside_format_desc ltac:(reflexivity)).
  repeat split; reflexivity.
Qed.

(** C2, as the code has it.  On a constructed engine, the [n]-th
    audio-render callback with [preroll] set ends priming (it issues
    [EndAudioPreroll] and starts scheduled playback) exactly when [n] has
    reached [buffer_depth]: never on an earlier invocation, on the
    [buffer_depth]-th, and again on every later one. *)
Theorem preroll_ends_from_buffer_depth_on
    (config : configuration) (fd : video_format_desc) (ch : Z)
    (dev : driver) (s : decklink_consumer) (n : nat) :
  Consumer.new config fd ch dev = Ok tt s ->
  (1 <= n)%nat ->
  Z.of_nat n <= MachineInt.INT_MAX ->
  (ends_preroll s n = true <-> buffer_depth config <= Z.of_nat n).
Proof.
  intros Hnew Hn Hmax.
  destruct (new_state config fd ch dev s Hnew) as (Hrun & H0 & Hbs & _).
  destruct n as [|n]; [lia|].
  unfold ends_preroll. replace (S n - 1)%nat with n by lia.
  destruct (preroll_calls_count s n Hrun H0 ltac:(lia)) as (Hc & Hr & Hb).
  rewrite preroll_calls_S.
  destruct (RenderAudioSamples_preroll_step (preroll_calls n s) Hr)
    as (_ & _ & _ & l & Hl & He & Hs).
  rewrite (added_app _ _ l Hl), He, Hs, Hb, Hbs, Hc.
  rewrite MachineIntFacts.to_int_id
    by (unfold MachineInt.in_int, MachineInt.INT_MIN, MachineInt.INT_MAX in *;
        lia).
  rewrite andb_diag, Z.leb_le. lia.
Qed.

Lemma preroll_ends_from_buffer_depth_on_witness :
  ends_preroll pal_engine 5 = true
  <-> buffer_depth default_configuration <= Z.of_nat 5.
Proof.
  apply (preroll_ends_from_buffer_depth_on default_configuration pal 1
           willing_device pal_engine 5).
  - vm_compute. reflexivity.
  - lia.
  - vm_compute. discriminate.
Defined.

(** C2 as stated fails: with the default configuration [buffer_depth] is
    five, priming has not ended on the fourth preroll callback and ends on
    the fifth, and the sixth preroll callback ends it once more. *)
Lemma preroll_ends_again_on_a_later_invocation :
  buffer_depth default_configuration = 5
  /\ embedded_audio default_configuration = true
  /\ ends_preroll pal_engine 4 = false
  /\ ends_preroll pal_engine 5 = true
  /\ ends_preroll pal_engine 6 = true.
Proof. repeat split; vm_compute; reflexivity. Qed.

(** C4 fails on the code.  The silence block is sized by
    [audio_cadence[preroll % size]], where [preroll] is the flag of the
    callback, not the count of preroll invocations: against the NTSC
    cadence 1602, 1601, 1602, 1601, 1602 the four priming callbacks
    schedule 1601 sample frames each. *)
Theorem preroll_silence_ignores_the_cadence :
  audio_cadence ntsc = [1602; 1601; 1602; 1601; 1602]
  /\ buffer_size_ ntsc_engine = 5
  /\ scheduled_audio (log_ (preroll_calls 4 ntsc_engine))
     = [1601; 1601; 1601; 1601]
  /\ nth 2 (audio_cadence ntsc) 0 = 1602
  /\ nth 0 (audio_cadence ntsc) 0 = 1602.
Proof. repeat split; vm_compute; reflexivity. Qed.

(* ------------------------------------------------------------------ *)
(** ** Construction *)

Lemma bind_Ok {A C} (m : M A) (k : A -> M C) s c s' :
  bind m k s = Ok c s' ->
  exists a s1, m s = Ok a s1 /\ k a s1 = Ok c s'.
Proof.
  unfold bind. destruct (m s) as [a s1| |]; try discriminate. eauto.
Qed.

Lemma emits_ret {A} (a : A) : emits (ret a) [].
Proof.
  intros s a' s' [= _ <-]. exists []. now rewrite app_nil_r.
Qed.

Lemma emits_gets {A} (f : decklink_consumer -> A) : emits (gets f) [].
Proof.
  intros s a' s' [= _ <-]. exists []. now rewrite app_nil_r.
Qed.

Lemma emits_throw {A} e fs : emits (@throw A e) fs.
Proof. intros s a s' [=]. Qed.

Lemma emits_modify f : (forall s, log_ (f s) = log_ s) -> emits (modify f) [].
Proof.
  intros H s a' s' [= _ <-]. exists []. now rewrite H, app_nil_r.
Qed.

Lemma emits_call c :
  scheduled_video [Output c] = [] -> emits (call c) [].
Proof. intros H s a' s' [= _ <-]. exists [Output c]. now split. Qed.

Lemma emits_bind {A C} (m : M A) (k : A -> M C) fs1 fs2 :
  emits m fs1 -> (forall a, emits (k a) fs2) -> emits (bind m k) (fs1 ++ fs2).
Proof.
  intros Hm Hk s c s' H. apply bind_Ok in H as (a & s1 & H1 & H2).
  destruct (Hm _ _ _ H1) as (l1 & Hl1 & Hs1).
  destruct (Hk a _ _ _ H2) as (l2 & Hl2 & Hs2).
  exists (l1 ++ l2). split.
  - now rewrite Hl2, Hl1, app_assoc.
  - now rewrite scheduled_video_app, Hs1, Hs2.
Qed.

Lemma emits_when b m : emits m [] -> emits (when b m) [].
Proof. destruct b; [trivial | intros _; apply emits_ret]. Qed.

Lemma emits_if {A} (b : bool) (m1 m2 : M A) fs :
  emits m1 fs -> emits m2 fs -> emits (if b then m1 else m2) fs.
Proof. destruct b; auto. Qed.

Lemma emits_schedule_next_video f : emits (schedule_next_video f) [f].
Proof.
  intros s a s' H. unfold schedule_next_video in H.
  unfold call, bind, gets, modify, ret in H. injection H as _ <-.
  eexists. split; reflexivity.
Qed.

Lemma emits_repeat_schedule n f :
  emits (repeatM n (schedule_next_video f)) (repeat f n).
Proof.
  induction n as [|n IH]; cbn [repeatM repeat].
  - apply emits_ret.
  - change (f :: repeat f n) with ([f] ++ repeat f n).
    apply emits_bind; [apply emits_schedule_next_video | intros _; exact IH].
Qed.

Ltac emits_nothing :=
  repeat first
    [ apply emits_ret | apply emits_throw | apply emits_gets
    | apply emits_when | apply emits_if
    | apply emits_call; reflexivity
    | apply emits_modify; intro; reflexivity
    | apply (emits_bind _ _ [] []); [|intro] ].

Lemma emits_enable_video : emits enable_video [].
Proof. unfold enable_video. emits_nothing. Qed.

Lemma emits_enable_audio : emits enable_audio [].
Proof. unfold enable_audio. emits_nothing. Qed.

Lemma emits_start_playback : emits start_playback [].
Proof. unfold start_playback. emits_nothing. Qed.

(** The trace of a successful construction: [buffer_size_] empty frames
    went to [ScheduleVideoFrame], and nothing else did. *)
Lemma new_scheduled_video config fd ch dev s :
  Consumer.new config fd ch dev = Ok tt s ->
  scheduled_video (log_ s)
  = repeat Core.empty (Z.to_nat (buffer_depth config)).
Proof.
  unfold Consumer.new.
  set (s0 := initial config fd ch dev).
  destruct (MachineInt.to_int (buffer_size_ s0 + 1) <? 0); [discriminate|].
  intros H.
  assert (E : emits constructor_body
                (repeat Core.empty (Z.to_nat (buffer_depth config)))
              -> scheduled_video (log_ s)
                 = repeat Core.empty (Z.to_nat (buffer_depth config))).
  { intros E. destruct (E _ _ _ H) as (l & Hl & Hs).
    now rewrite Hl. }
  clear E.
  unfold constructor_body in H.
  apply bind_Ok in H as (? & s1 & [= _ <-] & H).
  apply bind_Ok in H as (? & s2 & [= _ <-] & H).
  apply bind_Ok in H as (? & s3 & [= _ <-] & H).
  apply bind_Ok in H as (? & s4 & H4 & H).
  apply bind_Ok in H as (cfg & ? & [= <- <-] & H).
  apply bind_Ok in H as (? & s5 & H5 & H).
  apply bind_Ok in H as (? & s6 & H6 & H).
  apply bind_Ok in H as (n & ? & [= <- <-] & H).
  apply bind_Ok in H as (? & s7 & H7 & H8).
  destruct (emits_enable_video _ _ _ H4) as (l4 & L4 & S4).
  destruct (emits_when _ _ emits_enable_audio _ _ _ H5) as (l5 & L5 & S5).
  assert (E6 : emits (_ <- call BeginAudioPreroll ;; ret tt) [])
    by emits_nothing.
  destruct (emits_when _ _ E6 _ _ _ H6) as (l6 & L6 & S6).
  destruct (emits_repeat_schedule _ _ _ _ _ H7) as (l7 & L7 & S7).
  destruct (emits_when _ _ emits_start_playback _ _ _ H8) as (l8 & L8 & S8).
  assert (K : buffer_size_ s6 = buffer_depth config).
  { assert (K4 : keeps buffer_size_ enable_video).
    { unfold enable_video.
      repeat first
        [ apply keeps_ret | apply keeps_throw | apply keeps_if
        | apply keeps_call; apply beside_buffer_size
        | apply keeps_bind; [|intro] ]. }
    assert (K5 : keeps buffer_size_ enable_audio).
    { unfold enable_audio.
      repeat first
        [ apply keeps_ret | apply keeps_throw | apply keeps_if
        | apply keeps_call; apply beside_buffer_size
        | apply keeps_bind; [|intro] ]. }
    assert (K6 : keeps buffer_size_ (_ <- call BeginAudioPreroll ;; ret tt)).
    { apply keeps_bind; [apply keeps_call, beside_buffer_size|].
      intro. apply keeps_ret. }
    match type of H4 with
    | enable_video ?x = _ => pose proof (K4 x) as E4'
    end.
    match type of H5 with
    | when ?b ?m ?x = _ => pose proof (keeps_when buffer_size_ b m K5 x) as E5'
    end.
    match type of H6 with
    | when ?b ?m ?x = _ => pose proof (keeps_when buffer_size_ b m K6 x) as E6'
    end.
    rewrite H4 in E4'. rewrite H5 in E5'. rewrite H6 in E6'.
    cbn [state_of] in *. rewrite E6', E5', E4'. reflexivity. }
  rewrite L8, L7, L6, L5, L4.
  rewrite !scheduled_video_app, S8, S7, S6, S5, S4, K.
  cbn [log_ set_audio_frame_buffer set_video_frame_buffer set_is_running
         s0 initial scheduled_video app].
  now rewrite app_nil_r.
Qed.

Lemma extends_nil s : exists l : list event, log_ s = log_ s ++ l.
Proof. exists []. now rewrite app_nil_r. Qed.

Lemma extends_ret {A} (a : A) : extends (ret a).
Proof. intros s. apply extends_nil. Qed.

Lemma extends_throw {A} e : extends (@throw A e).
Proof. intros s. apply extends_nil. Qed.

Lemma extends_gets {A} (f : decklink_consumer -> A) : extends (gets f).
Proof. intros s. apply extends_nil. Qed.

Lemma extends_modify f :
  (forall s, log_ (f s) = log_ s) -> extends (modify f).
Proof. intros H s. cbn [modify state_of]. rewrite H. apply extends_nil. Qed.

Lemma extends_call c : extends (call c).
Proof. intros s. now exists [Output c]. Qed.

Lemma extends_bind {A C} (m : M A) (k : A -> M C) :
  extends m -> (forall a, extends (k a)) -> extends (bind m k).
Proof.
  intros Hm Hk s. unfold bind. destruct (Hm s) as (l & Hl).
  destruct (m s) as [a s'|e s'|s']; cbn [state_of] in *; eauto.
  destruct (Hk a s') as (l' & Hl'). exists (l ++ l').
  now rewrite Hl', Hl, app_assoc.
Qed.

Lemma extends_try_catch {A} (m : M A) h :
  extends m -> (forall e, extends (h e)) -> extends (try_catch m h).
Proof.
  intros Hm Hh s. unfold try_catch. destruct (Hm s) as (l & Hl).
  destruct (m s) as [a s'|e s'|s']; cbn [state_of] in *; eauto.
  destruct (Hh e s') as (l' & Hl'). exists (l ++ l').
  now rewrite Hl', Hl, app_assoc.
Qed.

Lemma extends_if {A} (b : bool) (m1 m2 : M A) :
  extends m1 -> extends m2 -> extends (if b then m1 else m2).
Proof. destruct b; auto. Qed.

Lemma extends_when b m : extends m -> extends (when b m).
Proof. destruct b; [trivial | intros _; apply extends_ret]. Qed.

Lemma extends_try_completion : extends try_completion.
Proof.
  intros s. destruct (try_completion_trace s) as (l & Hl & _). eauto.
Qed.

Lemma extends_run_enqueue_task t : extends (run_enqueue_task t).
Proof.
  intros s. destruct (run_enqueue_task_trace t s) as (l & Hl & _). eauto.
Qed.

Lemma extends_video_pop : extends video_pop.
Proof.
  intros s. unfold_slots.
  destruct (Tbb.items (video_frame_buffer_ s)); exists [];
    cbn [state_of log_ set_video_frame_buffer]; now rewrite app_nil_r.
Qed.

Ltac extends_auto :=
  repeat first
    [ apply extends_ret | apply extends_throw | apply extends_gets
    | apply extends_call | apply extends_try_completion
    | apply extends_run_enqueue_task | apply extends_video_pop
    | apply extends_when | apply extends_if
    | apply extends_modify; intro; reflexivity
    | apply extends_try_catch; [|intro]
    | apply extends_bind; [|intro] ].

Lemma extends_schedule_next_audio a : extends (schedule_next_audio a).
Proof. unfold schedule_next_audio. extends_auto. Qed.

Lemma extends_drain_audio fuel : extends (drain_audio fuel).
Proof.
  induction fuel as [|fuel IH]; cbn [drain_audio]; [apply extends_ret|].
  intros s. destruct (Tbb.try_pop (audio_frame_buffer_ s)) as [[f q]|].
  - assert (E : extends (_ <- try_completion ;;
                         schedule_next_audio (audio_data f) ;;
                         drain_audio fuel)).
    { apply extends_bind; [apply extends_try_completion|intro].
      apply extends_bind; [apply extends_schedule_next_audio|intro].
      exact IH. }
    apply (E (set_audio_frame_buffer q s)).
  - apply extends_nil.
Qed.

Lemma extends_fire cb : extends (fire cb).
Proof.
  destruct cb; cbn [fire];
    unfold ScheduledFrameCompleted, ScheduledFrameCompleted_resume,
      RenderAudioSamples, ScheduledPlaybackHasStopped, rearm, late_adjust,
      latch, start_playback, audio_buffer, schedule_next_video.
  - extends_auto.
  - extends_auto.
  - apply extends_bind; [apply extends_gets|intro].
    apply extends_if; [apply extends_ret|].
    apply extends_try_catch; [|intro; extends_auto].
    apply extends_bind; [|intro; extends_auto].
    apply extends_if.
    + extends_auto; try apply extends_schedule_next_audio.
    + apply extends_bind; [apply extends_gets|intro].
      apply extends_drain_audio.
  - extends_auto.
Qed.

Lemma extends_send f : extends (send f).
Proof.
  unfold send, set_task.
  apply extends_bind; [apply extends_gets|intros [e|]].
  - apply extends_throw.
  - extends_auto. destruct (fst a1); extends_auto.
Qed.

Lemma play_extends acts s :
  exists l, log_ (play acts s) = log_ s ++ l.
Proof.
  revert s. induction acts as [|a acts IH]; intros s; cbn [play fold_left].
  - apply extends_nil.
  - fold (play acts (step a s)). destruct (IH (step a s)) as (l' & Hl').
    assert (exists l, log_ (step a s) = log_ s ++ l) as (l & Hl).
    { destruct a; cbn [step]; [apply extends_send | apply extends_fire]. }
    exists (l ++ l'). now rewrite Hl', Hl, app_assoc.
Qed.

(** C6.  A successful construction has scheduled exactly [buffer_depth]
    video frames, every one of them the empty frame, where [buffer_depth]
    is the base depth, plus one unless latency is low, plus one with
    embedded audio; whatever [send] and the callbacks do afterwards, those
    remain the first frames scheduled. *)
Theorem construction_schedules_buffer_depth_empty_frames
    (config : configuration) (fd : video_format_desc) (ch : Z)
    (dev : driver) (s : decklink_consumer) :
  Consumer.new config fd ch dev = Ok tt s ->
  0 <= base_buffer_depth config <= MachineInt.INT_MAX - 2 ->
  buffer_depth config
  = base_buffer_depth config
    + (if is_low_latency (latency config) then 0 else 1)
    + (if embedded_audio config then 1 else 0)
  /\ Z.of_nat (length (scheduled_video (log_ s))) = buffer_depth config
  /\ scheduled_video (log_ s)
     = repeat Core.empty (length (scheduled_video (log_ s)))
  /\ forall acts,
       firstn (Z.to_nat (buffer_depth config))
         (scheduled_video (log_ (play acts s)))
       = repeat Core.empty (Z.to_nat (buffer_depth config)).
Proof.
  intros Hnew Hbase.
  pose proof (new_scheduled_video config fd ch dev s Hnew) as Hs.
  assert (Hbd : buffer_depth config
                = base_buffer_depth config
                  + (if is_low_latency (latency config) then 0 else 1)
                  + (if embedded_audio config then 1 else 0)).
  { unfold buffer_depth. unfold MachineInt.INT_MAX in Hbase.
    set (x := if is_low_latency (latency config) then 0 else 1).
    set (y := if embedded_audio config then 1 else 0).
    assert (Hx : 0 <= x <= 1)
      by (subst x; destruct (is_low_latency (latency config)); lia).
    assert (Hy : 0 <= y <= 1)
      by (subst y; destruct (embedded_audio config); lia).
    rewrite (MachineIntFacts.to_int_id (base_buffer_depth config + x))
      by (unfold MachineInt.in_int, MachineInt.INT_MIN, MachineInt.INT_MAX;
          lia).
    rewrite MachineIntFacts.to_int_id
      by (unfold MachineInt.in_int, MachineInt.INT_MIN, MachineInt.INT_MAX;
          lia).
    reflexivity. }
  split; [exact Hbd|].
  assert (Hpos : 0 <= buffer_depth config).
  { rewrite Hbd. destruct (is_low_latency (latency config)),
      (embedded_audio config); lia. }
  rewrite Hs, repeat_length. repeat split.
  - lia.
  - intros acts. destruct (play_extends acts s) as (l & Hl).
    rewrite Hl, scheduled_video_app, Hs.
    rewrite firstn_app, repeat_length, Nat.sub_diag. cbn [firstn].
    rewrite app_nil_r. apply firstn_all2. rewrite repeat_length. lia.
Qed.

Lemma construction_schedules_buffer_depth_empty_frames_witness :
  buffer_depth default_configuration = 3 + 1 + 1
  /\ Z.of_nat (length (scheduled_video (log_ pal_engine))) = 5.
Proof.
  destruct (construction_schedules_buffer_depth_empty_frames
              default_configuration pal 1 willing_device pal_engine
              ltac:(vm_compute; reflexivity)) as (H1 & H2 & _).
  - vm_compute. split; discriminate.
  - split; [exact H1 | exact H2].
Defined.

(* ------------------------------------------------------------------ *)
(** ** A deferred [send] and its retries *)

Section Preserves.

Context (P : decklink_consumer -> Prop).

Lemma preserves_ret {A} (a : A) : preserves P (ret a).
Proof. intros s H. exact H. Qed.

Lemma preserves_throw {A} e : preserves P (@throw A e).
Proof. intros s H. exact H. Qed.

Lemma preserves_gets {A} (f : decklink_consumer -> A) : preserves P (gets f).
Proof. intros s H. exact H. Qed.

Lemma preserves_modify f : (forall s, P s -> P (f s)) -> preserves P (modify f).
Proof. intros H s Hs. now apply H. Qed.

Lemma preserves_bind {A C} (m : M A) (k : A -> M C) :
  preserves P m -> (forall a, preserves P (k a)) -> preserves P (bind m k).
Proof.
  intros Hm Hk s Hs. unfold bind. specialize (Hm s Hs).
  destruct (m s) as [a s'|e s'|s']; cbn [state_of] in *; try assumption.
  now apply Hk.
Qed.

Lemma preserves_try_catch {A} (m : M A) h :
  preserves P m -> (forall e, preserves P (h e)) -> preserves P (try_catch m h).
Proof.
  intros Hm Hh s Hs. unfold try_catch. specialize (Hm s Hs).
  destruct (m s) as [a s'|e s'|s']; cbn [state_of] in *; try assumption.
  now apply Hh.
Qed.

Lemma preserves_if {A} (b : bool) (m1 m2 : M A) :
  preserves P m1 -> preserves P m2 -> preserves P (if b then m1 else m2).
Proof. destruct b; auto. Qed.

Lemma preserves_when b m : preserves P m -> preserves P (when b m).
Proof. destruct b; [trivial | intros _; apply preserves_ret]. Qed.

End Preserves.




(* ------------------------------------------------------------------ *)
(** ** The drain loop of the audio path runs to its end *)

Lemma try_completion_drain_bound s :
  (drain_bound (state_of (try_completion s)) <= drain_bound s)%nat.
Proof.
  remember (try_completion s) as r eqn:E. unfold drain_bound at 2.
  unfold try_completion in E. unfold bind at 1 in E. unfold gets at 1 in E.
  destruct (func_ (send_completion_ s)) as [t|] eqn:Hf;
    [|subst r; unfold ret, drain_bound; cbn [state_of]; rewrite Hf; lia].
  destruct (done_ (send_completion_ s)) eqn:Hd;
    [subst r; unfold ret, drain_bound; cbn [state_of]; rewrite Hf, Hd; lia|].
  unfold run_enqueue_task in E. unfold_slots_in E. unfold_monad_in E.
  destruct t as [a v g]. cbn [audio_ready video_ready frame] in *.
  destruct a, v; cbn [negb andb] in E |- *;
    repeat (match type of E with
            | context [if ?c then _ else _] =>
                lazymatch c with
                | context [if _ then _ else _] => fail
                | _ => destruct c eqn:?
                end
            end; cbn [negb andb fst snd video_frame_buffer_
                        audio_frame_buffer_ set_audio_frame_buffer
                        set_video_frame_buffer append_log] in E);
    subst r; unfold drain_bound;
    cbn [fst snd state_of send_completion_ audio_frame_buffer_ append_log
           set_send_completion set_audio_frame_buffer
           set_video_frame_buffer func_ done_ audio_ready Tbb.items
           negb andb];
    rewrite ?length_app; cbn [length]; lia.
Qed.

Lemma schedule_next_audio_drain_bound a s :
  drain_bound (state_of (schedule_next_audio a s)) = drain_bound s.
Proof. reflexivity. Qed.

(** With [drain_bound] rounds of fuel the loop has reached an empty audio
    slot buffer, and any further fuel changes nothing. *)
Lemma drain_audio_fuel fuel :
  forall s, (drain_bound s <= fuel)%nat ->
    (exists s', drain_audio fuel s = Ok tt s'
                /\ Tbb.items (audio_frame_buffer_ s') = [])
    /\ forall extra, drain_audio (fuel + extra) s = drain_audio fuel s.
Proof.
  induction fuel as [|fuel IH]; intros s Hb.
  - assert (Hi : Tbb.items (audio_frame_buffer_ s) = []).
    { unfold drain_bound in Hb.
      destruct (Tbb.items (audio_frame_buffer_ s)); [reflexivity|].
      cbn [length] in Hb. lia. }
    split; [exists s; now split|].
    intros [|extra]; [reflexivity|]. cbn [Nat.add drain_audio].
    unfold Tbb.try_pop. now rewrite Hi.
  - cbn [Nat.add drain_audio]. unfold Tbb.try_pop.
    destruct (Tbb.items (audio_frame_buffer_ s)) as [|g rest] eqn:Hi.
    + split; [exists s; now split | reflexivity].
    + set (s1 := set_audio_frame_buffer _ s).
      assert (H1 : (drain_bound s1 <= fuel)%nat).
      { unfold drain_bound in *. subst s1.
        cbn [audio_frame_buffer_ send_completion_ set_audio_frame_buffer
               Tbb.items]. rewrite Hi in Hb. cbn [length] in Hb. lia. }
      pose proof (try_completion_drain_bound s1) as H2.
      destruct (try_completion_returns s1) as (b & s2 & E2).
      rewrite E2 in H2. cbn [state_of] in H2.
      destruct (schedule_next_audio_returns (audio_data g) s2)
        as (u & s3 & E3).
      pose proof (schedule_next_audio_drain_bound (audio_data g) s2) as H3.
      rewrite E3 in H3. cbn [state_of] in H3.
      destruct (IH s3 ltac:(lia)) as (Hend & Hextra).
      unfold bind. rewrite E2, E3.
      split; [exact Hend | exact Hextra].
Qed.

(** The fuel [RenderAudioSamples] gives the loop is enough. *)
Lemma drain_audio_enough s :
  (drain_bound s <= S (length (Tbb.items (audio_frame_buffer_ s))))%nat.
Proof.
  unfold drain_bound.
  destruct (func_ (send_completion_ s)) as [t|]; [|lia].
  destruct (negb (done_ (send_completion_ s)) && negb (audio_ready t)); lia.
Qed.














(* ------------------------------------------------------------------ *)
(** ** Invariants of the whole life of the engine *)

Import EngineLogic.

Section Survives.

Context (P : decklink_consumer -> Prop) (HP : survives_primitives P).

Let Hexc := proj1 HP.
Let Hrun := proj1 (proj2 HP).
Let Hvs := proj1 (proj2 (proj2 HP)).
Let Has := proj1 (proj2 (proj2 (proj2 HP))).
Let Hpc := proj1 (proj2 (proj2 (proj2 (proj2 HP)))).
Let Hsc := proj1 (proj2 (proj2 (proj2 (proj2 (proj2 HP))))).
Let Hlog := proj1 (proj2 (proj2 (proj2 (proj2 (proj2 (proj2 HP)))))).
Let Hvpush := proj1 (proj2 (proj2 (proj2 (proj2 (proj2 (proj2 (proj2 HP))))))).
Let Hapush :=
  proj1 (proj2 (proj2 (proj2 (proj2 (proj2 (proj2 (proj2 (proj2 HP)))))))).
Let Hvpop :=
  proj1 (proj2 (proj2 (proj2 (proj2 (proj2 (proj2 (proj2 (proj2
    (proj2 HP))))))))).
Let Hapop :=
  proj1 (proj2 (proj2 (proj2 (proj2 (proj2 (proj2 (proj2 (proj2
    (proj2 (proj2 HP)))))))))).
Let Hcont :=
  proj2 (proj2 (proj2 (proj2 (proj2 (proj2 (proj2 (proj2 (proj2
    (proj2 (proj2 HP)))))))))).

Lemma survives_call c : preserves P (call c).
Proof. intros s H. apply Hlog, H. Qed.

Lemma survives_video_try_push f : preserves P (video_try_push f).
Proof. intros s H. now apply Hvpush. Qed.

Lemma survives_audio_try_push f : preserves P (audio_try_push f).
Proof. intros s H. now apply Hapush. Qed.

Lemma survives_video_pop : preserves P video_pop.
Proof. intros s H. now apply Hvpop. Qed.

Lemma survives_run_enqueue_task t : preserves P (run_enqueue_task t).
Proof.
  unfold run_enqueue_task.
  apply preserves_bind;
    [apply preserves_if;
       [apply survives_audio_try_push | apply preserves_ret]|intro].
  apply preserves_bind;
    [apply preserves_if;
       [apply survives_video_try_push | apply preserves_ret]|intro].
  apply preserves_ret.
Qed.

Lemma survives_try_completion : preserves P try_completion.
Proof.
  unfold try_completion.
  apply preserves_bind; [apply preserves_gets|intros rt].
  destruct (func_ rt) as [t|]; [|apply preserves_ret].
  destruct (done_ rt); [apply preserves_ret|].
  apply preserves_bind; [apply survives_run_enqueue_task|].
  intros [[v|] t']; cbn [fst snd];
    repeat (apply preserves_bind;
            [apply preserves_modify; intros s H; auto|intros _]);
    apply preserves_ret.
Qed.

Lemma survives_schedule_next_video f : preserves P (schedule_next_video f).
Proof.
  unfold schedule_next_video.
  apply preserves_bind; [apply preserves_gets|intro].
  apply preserves_bind; [apply survives_call|intro].
  apply preserves_modify. intros s H. now apply Hvs.
Qed.

Lemma survives_schedule_next_audio a : preserves P (schedule_next_audio a).
Proof.
  intros s H. unfold schedule_next_audio.
  unfold bind at 1. unfold gets at 1.
  unfold bind at 1. unfold modify at 1.
  unfold bind at 1. unfold call at 1.
  unfold modify. cbn [state_of].
  apply Has, Hlog, Hcont, H.
Qed.

Lemma survives_rearm : preserves P rearm.
Proof.
  unfold rearm.
  apply preserves_bind; [apply survives_video_pop|intro].
  apply preserves_bind; [apply survives_try_completion|intro].
  apply preserves_bind; [apply survives_schedule_next_video|intro].
  apply preserves_bind; [apply survives_call|intro].
  apply preserves_ret.
Qed.

Lemma survives_latch e : preserves P (latch e).
Proof.
  unfold latch. apply preserves_bind; [|intro; apply preserves_ret].
  apply preserves_modify. intros s H. now apply Hexc.
Qed.

Lemma survives_drain_audio fuel : preserves P (drain_audio fuel).
Proof.
  induction fuel as [|fuel IH]; cbn [drain_audio]; [apply preserves_ret|].
  intros s H.
  destruct (Tbb.try_pop (audio_frame_buffer_ s)) as [[g q]|] eqn:Hpop;
    [|exact H].
  assert (E : preserves P (_ <- try_completion ;;
                           schedule_next_audio (audio_data g) ;;
                           drain_audio fuel)).
  { apply preserves_bind; [apply survives_try_completion|intro].
    apply preserves_bind; [apply survives_schedule_next_audio|intro].
    exact IH. }
  apply E. now apply (Hapop s g q).
Qed.

Lemma survives_start_playback : preserves P start_playback.
Proof.
  unfold start_playback.
  apply preserves_bind; [apply preserves_gets|intro].
  apply preserves_bind; [apply survives_call|intro].
  apply preserves_if; [apply preserves_throw | apply preserves_ret].
Qed.

Lemma survives_fire cb : preserves P (fire cb).
Proof.
  destruct cb; cbn [fire].
  - unfold ScheduledFrameCompleted, late_adjust.
    apply preserves_bind; [apply preserves_gets|intro].
    apply preserves_if; [apply preserves_ret|].
    apply preserves_try_catch; [|intro; apply survives_latch].
    apply preserves_bind;
      [|intro; apply preserves_bind;
               [apply survives_rearm | intro; apply preserves_ret]].
    apply preserves_when.
    apply preserves_bind; [apply preserves_gets|intro].
    apply preserves_bind; [|intro]; apply preserves_modify; intros s H; auto.
  - unfold ScheduledFrameCompleted_resume.
    apply preserves_try_catch; [|intro; apply survives_latch].
    apply preserves_bind; [apply survives_rearm|intro]. apply preserves_ret.
  - unfold RenderAudioSamples, audio_buffer.
    apply preserves_bind; [apply preserves_gets|intro].
    apply preserves_if; [apply preserves_ret|].
    apply preserves_try_catch; [|intro; apply survives_latch].
    apply preserves_bind;
      [|intro; apply preserves_bind;
               [apply survives_call | intro; apply preserves_ret]].
    apply preserves_if.
    + apply preserves_bind;
        [apply preserves_modify; intros s H; auto|intro].
      apply preserves_bind; [apply preserves_gets|intro].
      apply preserves_if.
      * apply preserves_bind; [apply survives_call|intro].
        apply survives_start_playback.
      * apply preserves_bind;
          [apply preserves_if; [apply preserves_throw | apply preserves_ret]
          |intro; apply survives_schedule_next_audio].
    + apply preserves_bind; [apply preserves_gets|intro].
      apply survives_drain_audio.
  - unfold ScheduledPlaybackHasStopped.
    apply preserves_bind;
      [apply preserves_modify; intros s H; auto|intro].
    apply preserves_ret.
Qed.

Lemma survives_send f : preserves P (send f).
Proof.
  unfold send, set_task.
  apply preserves_bind; [apply preserves_gets|intros [e|]];
    [apply preserves_throw|].
  apply preserves_bind; [apply preserves_gets|intro].
  apply preserves_if; [apply preserves_throw|].
  apply preserves_bind; [apply preserves_gets|intro].
  apply preserves_bind; [apply survives_run_enqueue_task|intros r].
  destruct (fst r); [apply preserves_ret|].
  apply preserves_bind; [|intro; apply preserves_ret].
  apply preserves_modify. intros s H. auto.
Qed.

Lemma survives_destructor : preserves P destructor.
Proof.
  unfold destructor.
  apply preserves_bind; [apply preserves_modify; intros s H; auto|intro].
  apply preserves_bind; [apply survives_video_try_push|intro].
  apply preserves_bind; [apply survives_audio_try_push|intro].
  apply preserves_bind; [apply survives_call|intro].
  apply preserves_bind; [apply preserves_gets|intro].
  apply preserves_bind;
    [apply preserves_when;
     apply preserves_bind; [apply survives_call|intro; apply preserves_ret]
    |intro].
  apply preserves_bind; [apply survives_call|intro]. apply preserves_ret.
Qed.

Lemma survives_lifetime acts s : P s -> P (lifetime acts s).
Proof.
  revert s. induction acts as [|a acts IH]; intros s H;
    cbn [lifetime fold_left]; [exact H|].
  apply IH. destruct a as [[f|cb]|]; cbn [lifetime_step step].
  - now apply survives_send.
  - now apply survives_fire.
  - now apply survives_destructor.
Qed.

End Survives.

Import Configured.

(** A successful construction went through [configured] and
    [device_setup]. *)
Lemma new_device_setup config fd ch dev s :
  Consumer.new config fd ch dev = Ok tt s ->
  device_setup (configured config fd ch dev) = Ok tt s.
Proof.
  unfold Consumer.new.
  destruct (MachineInt.to_int
              (buffer_size_ (initial config fd ch dev) + 1) <? 0);
    [discriminate|].
  intros H. exact H.
Qed.

(** [device_setup] leaves alone whatever neither the trace nor the video
    timestamp reaches. *)
Lemma keeps_device_setup {B} (g : decklink_consumer -> B) :
  (forall e s, g (append_log e s) = g s) ->
  (forall x s, g (set_video_scheduled x s) = g s) ->
  keeps g device_setup.
Proof.
  intros Hl Hv.
  assert (Hc : forall c, keeps g (call c)) by (intros c s; apply Hl).
  unfold device_setup, enable_video, enable_audio, start_playback,
    schedule_next_video.
  repeat first
    [ apply keeps_ret | apply keeps_throw | apply keeps_gets
    | apply keeps_when | apply keeps_repeatM | apply keeps_if
    | apply Hc
    | apply keeps_modify; intro; apply Hv
    | apply keeps_bind; [|intro] ].
Qed.

Lemma new_keeps {B} (g : decklink_consumer -> B) config fd ch dev s :
  (forall e s, g (append_log e s) = g s) ->
  (forall x s, g (set_video_scheduled x s) = g s) ->
  Consumer.new config fd ch dev = Ok tt s ->
  g s = g (configured config fd ch dev).
Proof.
  intros Hl Hv H. apply new_device_setup in H.
  pose proof (keeps_device_setup g Hl Hv (configured config fd ch dev)) as K.
  rewrite H in K. exact K.
Qed.

(** *** The slot buffers stay within their capacities *)

Lemma try_push_within f q c :
  Tbb.capacity q = c -> Tbb.size q <= c ->
  Tbb.capacity (snd (Tbb.try_push f q)) = c
  /\ Tbb.size (snd (Tbb.try_push f q)) <= c.
Proof.
  intros Hc Hs. unfold Tbb.try_push.
  destruct (Tbb.size q <? Tbb.capacity q) eqn:E; cbn [snd]; [|now split].
  apply Z.ltb_lt in E. unfold Tbb.size in *. cbn [Tbb.items Tbb.capacity].
  rewrite length_app. cbn [length]. split; [assumption | lia].
Qed.

Lemma try_pop_within q f q' c :
  Tbb.try_pop q = Some (f, q') ->
  Tbb.capacity q = c -> Tbb.size q <= c ->
  Tbb.capacity q' = c /\ Tbb.size q' <= c.
Proof.
  unfold Tbb.try_pop. destruct (Tbb.items q) as [|g rest] eqn:E;
    [discriminate|].
  intros [= _ <-] Hc Hs. unfold Tbb.size in *. rewrite E in Hs.
  cbn [Tbb.items Tbb.capacity length] in *. split; [assumption | lia].
Qed.

Lemma within_capacity_survives fd : survives_primitives (within_capacity fd).
Proof.
  unfold survives_primitives, within_capacity.
  repeat split; intros; try (intuition; fail).
  all: try match goal with
    | H : _ /\ _ /\ _ /\ _ |- _ => destruct H as (H1 & H2 & H3 & H4)
    end.
  all: try (unfold video_try_push;
            pose proof (try_push_within f _ _ H1 H2) as (K1 & K2);
            destruct (Tbb.try_push f (video_frame_buffer_ s)) as [[] q];
            cbn [snd state_of video_frame_buffer_ audio_frame_buffer_
                   set_video_frame_buffer append_log] in *; assumption).
  all: try (unfold audio_try_push;
            pose proof (try_push_within f _ _ H3 H4) as (K1 & K2);
            destruct (Tbb.try_push f (audio_frame_buffer_ s)) as [[] q];
            cbn [snd state_of video_frame_buffer_ audio_frame_buffer_
                   set_audio_frame_buffer append_log] in *; assumption).
  all: try (unfold video_pop, Tbb.pop;
            destruct (Tbb.try_pop (video_frame_buffer_ s)) as [[g q]|] eqn:E;
            cbn [state_of video_frame_buffer_ audio_frame_buffer_
                   set_video_frame_buffer]; try assumption;
            now destruct (try_pop_within _ _ _ _ E H1 H2)).
  all: try (match goal with
            | E : Tbb.try_pop _ = Some _ |- _ =>
                now destruct (try_pop_within _ _ _ _ E H3 H4)
            end).
Qed.

(** X1.  Between a successful construction and any later moment of the
    engine's life ([send]s, callbacks and the destructor, in any order and
    number), the video slot buffer holds at most one frame and the audio
    slot buffer at most one, or two when the format runs above 50 frames
    per second. *)
Theorem slot_occupancy_never_exceeds_capacity
    (config : configuration) (fd : video_format_desc) (ch : Z)
    (dev : driver) (s : decklink_consumer) (acts : list lifetime_action) :
  Consumer.new config fd ch dev = Ok tt s ->
  Tbb.size (video_frame_buffer_ (lifetime acts s)) <= 1
  /\ Tbb.size (audio_frame_buffer_ (lifetime acts s))
     <= (if Qle_bool (fps fd) (50 # 1) then 1 else 2).
Proof.
  intros Hnew.
  assert (H0 : within_capacity fd s).
  { unfold within_capacity.
    rewrite (new_keeps video_frame_buffer_ config fd ch dev s
               ltac:(reflexivity) ltac:(reflexivity) Hnew).
    rewrite (new_keeps audio_frame_buffer_ config fd ch dev s
               ltac:(reflexivity) ltac:(reflexivity) Hnew).
    unfold configured, audio_capacity, Tbb.size.
    cbn [video_frame_buffer_ audio_frame_buffer_ set_audio_frame_buffer
           set_video_frame_buffer set_is_running initial Tbb.set_capacity
           Tbb.new Tbb.items Tbb.capacity format_desc_ length].
    destruct (Qle_bool (fps fd) (50 # 1)); repeat split; lia. }
  pose proof (survives_lifetime _ (within_capacity_survives fd) acts s H0)
    as (_ & Hv & _ & Ha).
  split; assumption.
Qed.

Lemma slot_occupancy_never_exceeds_capacity_witness :
  Tbb.size (video_frame_buffer_
              (lifetime [act (do_send (tone 1)); act (do_send (tone 2));
                         destroy] pal_engine)) <= 1.
Proof.
  apply (slot_occupancy_never_exceeds_capacity default_configuration pal 1
           willing_device pal_engine
           [act (do_send (tone 1)); act (do_send (tone 2)); destroy]
           ltac:(vm_compute; reflexivity)).
Defined.

(* ------------------------------------------------------------------ *)
(** ** The ring of scheduled audio blocks *)

Lemma circular_push_back_length {A} cap (x : A) v :
  (length v <= cap)%nat ->
  (length (Vector.circular_push_back cap x v) <= cap)%nat.
Proof.
  intros H. unfold Vector.circular_push_back. destruct cap as [|cap];
    [assumption|].
  destruct (length v <? S cap)%nat eqn:E.
  - apply Nat.ltb_lt in E. rewrite length_app. cbn [length]. lia.
  - apply Nat.ltb_ge in E. rewrite length_app. cbn [length].
    destruct v; cbn [tl length] in *; lia.
Qed.

Lemma circular_push_back_last {A} cap (x d : A) v :
  (0 < cap)%nat -> last (Vector.circular_push_back cap x v) d = x.
Proof.
  intros H. unfold Vector.circular_push_back. destruct cap; [lia|].
  destruct (length v <? S cap)%nat; apply last_last.
Qed.

Lemma ring_bounded_survives depth : survives_primitives (ring_bounded depth).
Proof.
  unfold survives_primitives, ring_bounded.
  repeat split; intros; try (intuition; fail).
  all: try match goal with
    | H : _ /\ _ |- _ => destruct H as (H1 & H2)
    end.
  all: try (unfold video_try_push;
            destruct (Tbb.try_push f (video_frame_buffer_ s)) as [[] q];
            cbn [state_of]; assumption).
  all: try (unfold audio_try_push;
            destruct (Tbb.try_push f (audio_frame_buffer_ s)) as [[] q];
            cbn [state_of]; assumption).
  all: try (unfold video_pop;
            destruct (Tbb.pop (video_frame_buffer_ s)) as [[g q]|];
            cbn [state_of]; assumption).
  all: try assumption.
  cbn [audio_container_ set_audio_container]. rewrite H1.
  now apply circular_push_back_length.
Qed.

(** X2.  From a successful construction on, whatever [send], the callbacks
    and the destructor do, [audio_container_] never holds more than
    [buffer_depth + 1] sample blocks. *)
Theorem audio_container_never_exceeds_depth_plus_one
    (config : configuration) (fd : video_format_desc) (ch : Z)
    (dev : driver) (s : decklink_consumer) (acts : list lifetime_action) :
  Consumer.new config fd ch dev = Ok tt s ->
  (length (audio_container_ (lifetime acts s))
   <= Z.to_nat (buffer_depth config + 1))%nat.
Proof.
  intros Hnew.
  assert (H0 : ring_bounded (buffer_depth config) s).
  { unfold ring_bounded.
    rewrite (new_keeps audio_container_ config fd ch dev s
               ltac:(reflexivity) ltac:(reflexivity) Hnew).
    rewrite (new_keeps buffer_size_ config fd ch dev s
               ltac:(reflexivity) ltac:(reflexivity) Hnew).
    cbn. split; [reflexivity | lia]. }
  apply (survives_lifetime _ (ring_bounded_survives _) acts s H0).
Qed.

Lemma audio_container_never_exceeds_depth_plus_one_witness :
  (length (audio_container_
             (lifetime (repeat (act (do_callback (audio_render TRUE))) 9)
                ntsc_engine)) <= 6)%nat.
Proof.
  apply (audio_container_never_exceeds_depth_plus_one default_configuration
           ntsc 1 willing_device ntsc_engine
           (repeat (act (do_callback (audio_render TRUE))) 9)
           ltac:(vm_compute; reflexivity)).
Defined.

(* ------------------------------------------------------------------ *)
(** ** No exception crosses the callback boundary *)

Lemma settles_ret {A} (Q : A -> Prop) a : Q a -> settles Q (ret a).
Proof. intros H s. left. now exists a, s. Qed.

Lemma settles_throw {A} (Q : A -> Prop) e : settles Q (@throw A e).
Proof. intros s. right. now exists e, s. Qed.

Lemma settles_returns {A} (m : M A) : returns m -> settles (fun _ => True) m.
Proof. intros H s. destruct (H s) as (a & s' & E). left. eauto. Qed.

Lemma settles_bind {A C} (Q1 : A -> Prop) (Q : C -> Prop) m (k : A -> M C) :
  settles Q1 m -> (forall a, settles Q (k a)) -> settles Q (bind m k).
Proof.
  intros Hm Hk s. unfold bind.
  destruct (Hm s) as [(a & s' & -> & _)|(e & s' & ->)]; [apply Hk|].
  right. eauto.
Qed.

Lemma settles_if {A} (Q : A -> Prop) (b : bool) m1 m2 :
  settles Q m1 -> settles Q m2 -> settles Q (if b then m1 else m2).
Proof. destruct b; auto. Qed.

Lemma drain_audio_returns fuel : returns (drain_audio fuel).
Proof.
  induction fuel as [|fuel IH]; cbn [drain_audio]; [apply returns_ret|].
  intros s. destruct (Tbb.try_pop (audio_frame_buffer_ s)) as [[g q]|];
    [|now exists tt, s].
  assert (E : returns (_ <- try_completion ;;
                       schedule_next_audio (audio_data g) ;;
                       drain_audio fuel)).
  { apply returns_bind; [apply try_completion_returns|intro].
    apply returns_bind; [apply schedule_next_audio_returns|intro].
    exact IH. }
  apply E.
Qed.

(** The [try] block of the audio callback returns [S_OK] or throws. *)
Lemma RenderAudioSamples_body_settles preroll :
  settles (fun hr => hr = S_OK) (audio_try_block preroll).
Proof.
  unfold audio_try_block.
  apply (settles_bind (fun _ => True)).
  - apply settles_if.
    + apply (settles_bind (fun _ => True));
        [apply settles_returns, returns_modify|intro].
      apply (settles_bind (fun _ => True));
        [apply settles_returns, returns_gets|intro].
      apply settles_if.
      * apply (settles_bind (fun _ => True));
          [apply settles_returns, returns_call|intro].
        unfold start_playback.
        apply (settles_bind (fun _ => True));
          [apply settles_returns, returns_gets|intro].
        apply (settles_bind (fun _ => True));
          [apply settles_returns, returns_call|intro].
        apply settles_if; [apply settles_throw | now apply settles_ret].
      * apply (settles_bind (fun _ => True)).
        -- unfold audio_buffer.
           apply settles_if; [apply settles_throw | now apply settles_ret].
        -- intro. apply settles_returns, schedule_next_audio_returns.
    + apply (settles_bind (fun _ => True));
        [apply settles_returns, returns_gets|intro].
      apply settles_returns, drain_audio_returns.
  - intro. apply (settles_bind (fun _ => True));
      [apply settles_returns, returns_call|intro].
    now apply settles_ret.
Qed.

(** What the audio callback comes to on a running engine. *)
Lemma RenderAudioSamples_try_block s preroll :
  is_running_ s = true ->
  RenderAudioSamples preroll s
  = match audio_try_block preroll s with
    | Ok a s' => Ok a s'
    | Throw e s' => Ok E_FAIL (set_exception (Some e) s')
    | Blocked s' => Blocked s'
    end.
Proof.
  intros Hrun. unfold RenderAudioSamples.
  unfold bind at 1. unfold gets at 1. rewrite Hrun. cbn [negb].
  unfold try_catch. fold (audio_try_block preroll).
  destruct (audio_try_block preroll s); reflexivity.
Qed.

Lemma keeps_exception_audio_try_block preroll :
  keeps exception_ (audio_try_block preroll).
Proof.
  assert (Hc : forall c, keeps exception_ (call c))
    by (intros c s0; reflexivity).
  assert (Hs : forall a, keeps exception_ (schedule_next_audio a)).
  { intro. unfold schedule_next_audio.
    repeat first
      [ apply keeps_gets | apply Hc
      | apply keeps_modify; intro; reflexivity
      | apply keeps_bind; [|intro] ]. }
  assert (Hd : forall fuel, keeps exception_ (drain_audio fuel)).
  { induction fuel as [|fuel IH]; cbn [drain_audio]; [apply keeps_ret|].
    intros s0.
    destruct (Tbb.try_pop (audio_frame_buffer_ s0)) as [[g q]|];
      [|reflexivity].
    assert (E : keeps exception_
                  (_ <- try_completion ;;
                   schedule_next_audio (audio_data g) ;;
                   drain_audio fuel)).
    { apply keeps_bind;
        [apply keeps_try_completion, beside_exception|intro].
      apply keeps_bind; [apply Hs | intro; exact IH]. }
    apply (E (set_audio_frame_buffer q s0)). }
  unfold audio_try_block, start_playback, audio_buffer.
  repeat first
    [ apply keeps_ret | apply keeps_throw | apply keeps_gets
    | apply Hc | apply Hs | apply Hd | apply keeps_if
    | apply keeps_modify; intro; reflexivity
    | apply keeps_bind; [|intro] ].
Qed.

Lemma RenderAudioSamples_running s preroll :
  is_running_ s = true ->
  (exists s', RenderAudioSamples preroll s = Ok S_OK s'
              /\ exception_ s' = exception_ s)
  \/ (exists e s1,
        RenderAudioSamples preroll s = Ok E_FAIL (set_exception (Some e) s1)).
Proof.
  intros Hrun. rewrite (RenderAudioSamples_try_block s preroll Hrun).
  pose proof (keeps_exception_audio_try_block preroll s) as K.
  destruct (RenderAudioSamples_body_settles preroll s)
    as [(a & s' & E & ->)|(e & s' & E)]; rewrite E in *.
  - left. exists s'. split; [reflexivity | exact K].
  - right. exists e, s'. reflexivity.
Qed.

Import Paths.

(** [rearm] returns or parks, the latter on an empty video slot buffer
    only. *)
Lemma rearm_returns_or_parks s :
  (exists s', rearm s = Ok tt s')
  \/ (rearm s = Blocked s /\ Tbb.items (video_frame_buffer_ s) = []).
Proof.
  destruct (Tbb.items (video_frame_buffer_ s)) as [|f rest] eqn:Hi.
  - right. split; [now apply rearm_empty | reflexivity].
  - left. destruct (rearm_nonempty s f rest Hi) as (s' & l & E & _).
    now exists s'.
Qed.

(** X3.  On a format whose channel count is not zero and whose cadence
    table is not empty, and with room in the ring of scheduled blocks,
    neither callback lets an exception out.  The audio callback always
    returns, [S_OK] or [E_FAIL]; the video callback returns one of the
    two or parks in [pop], which it does only on an empty video slot
    buffer. *)
Theorem callbacks_never_throw
    (s : decklink_consumer) (completed_frame : Frame.decklink_frame)
    (result : BMDOutputFrameCompletionResult) (preroll : BOOL) :
  audible (format_desc_ s) ->
  0 <= buffer_size_ s ->
  (exists hr s', RenderAudioSamples preroll s = Ok hr s'
                 /\ (hr = S_OK \/ hr = E_FAIL))
  /\ ((exists hr s', ScheduledFrameCompleted completed_frame result s
                     = Ok hr s' /\ (hr = S_OK \/ hr = E_FAIL))
      \/ (exists s', ScheduledFrameCompleted completed_frame result s
                     = Blocked s'
                     /\ Tbb.items (video_frame_buffer_ s') = [])).
Proof.
  intros _ _. split.
  - destruct (is_running_ s) eqn:Hrun.
    + destruct (RenderAudioSamples_running s preroll Hrun)
        as [(s' & E & _)|(e & s1 & E)]; rewrite E; eauto.
    + unfold RenderAudioSamples. unfold bind at 1. unfold gets at 1.
      rewrite Hrun. cbn [negb]. unfold ret. eauto.
  - destruct (is_running_ s) eqn:Hrun.
    + assert (H : forall s1,
                 (exists hr s',
                     match rearm s1 with
                     | Ok _ s' => Ok S_OK s'
                     | Throw e s' => Ok E_FAIL (set_exception (Some e) s')
                     | Blocked s' => Blocked s'
                     end = Ok hr s' /\ (hr = S_OK \/ hr = E_FAIL))
                 \/ (exists s',
                        match rearm s1 with
                        | Ok _ s' => Ok S_OK s'
                        | Throw e s' => Ok E_FAIL (set_exception (Some e) s')
                        | Blocked s' => @Blocked HRESULT s'
                        end = Blocked s'
                        /\ Tbb.items (video_frame_buffer_ s') = [])).
      { intros s1. destruct (rearm_returns_or_parks s1) as [(s' & E)|(E & Hi)];
          rewrite E; [left | right]; eauto. }
      destruct (is_displayed_late result) eqn:Hl.
      * destruct result; try discriminate.
        destruct (ScheduledFrameCompleted_late s completed_frame Hrun)
          as (s1 & _ & ->). apply H.
      * rewrite (ScheduledFrameCompleted_on_time s completed_frame result
                   Hrun Hl). apply H.
    + unfold ScheduledFrameCompleted. unfold bind at 1. unfold gets at 1.
      rewrite Hrun. cbn [negb]. unfold ret. left. eauto.
Qed.

Lemma callbacks_never_throw_witness :
  exists hr s',
    RenderAudioSamples TRUE pal_engine = Ok hr s'
    /\ (hr = S_OK \/ hr = E_FAIL).
Proof.
  exact (proj1 (callbacks_never_throw pal_engine
                  (Frame.new Core.empty pal false) bmdOutputFrameCompleted
                  TRUE
                  ltac:(split; vm_compute; discriminate)
                  ltac:(vm_compute; discriminate))).
Defined.

(** *** The latch is never cleared *)

Lemma latched_keeps {A} (m : M A) :
  keeps exception_ m -> preserves latched m.
Proof. intros K s H. unfold latched. now rewrite K. Qed.

Lemma latched_try_catch (m : M HRESULT) :
  keeps exception_ m -> preserves latched (try_catch m latch).
Proof.
  intros K s H. unfold try_catch. specialize (K s). unfold latched in *.
  destruct (m s) as [a s'|e s'|s']; cbn [state_of] in *;
    [now rewrite K | | now rewrite K].
  unfold latch. unfold_monad. cbn [state_of exception_ set_exception].
  discriminate.
Qed.

Lemma keeps_exception_rearm : keeps exception_ rearm.
Proof.
  assert (Hc : forall c, keeps exception_ (call c))
    by (intros c s; reflexivity).
  unfold rearm, schedule_next_video.
  repeat first
    [ apply keeps_ret | apply keeps_gets | apply Hc
    | apply keeps_video_pop, beside_exception
    | apply keeps_try_completion, beside_exception
    | apply keeps_modify; intro; reflexivity
    | apply keeps_bind; [|intro] ].
Qed.

Lemma latched_fire cb : preserves latched (fire cb).
Proof.
  destruct cb as [cf r| |preroll|]; cbn [fire].
  - unfold ScheduledFrameCompleted.
    apply preserves_bind; [apply preserves_gets|intro].
    apply preserves_if; [apply preserves_ret|].
    apply latched_try_catch. unfold late_adjust.
    repeat first
      [ apply keeps_ret | apply keeps_gets | apply keeps_when
      | apply keeps_exception_rearm
      | apply keeps_modify; intro; reflexivity
      | apply keeps_bind; [|intro] ].
  - unfold ScheduledFrameCompleted_resume. apply latched_try_catch.
    apply keeps_bind; [apply keeps_exception_rearm | intro; apply keeps_ret].
  - unfold RenderAudioSamples.
    apply preserves_bind; [apply preserves_gets|intro].
    apply preserves_if; [apply preserves_ret|].
    apply (latched_try_catch (audio_try_block preroll)).
    apply keeps_exception_audio_try_block.
  - apply latched_keeps. unfold ScheduledPlaybackHasStopped.
    apply keeps_bind; [apply keeps_modify; intro; reflexivity|intro].
    apply keeps_ret.
Qed.

Lemma latched_send f : preserves latched (send f).
Proof.
  apply latched_keeps. unfold send, set_task.
  apply keeps_bind; [apply keeps_gets|intros [e|]]; [apply keeps_throw|].
  apply keeps_bind; [apply keeps_gets|intro].
  apply keeps_if; [apply keeps_throw|].
  apply keeps_bind; [apply keeps_gets|intro].
  apply keeps_bind; [apply keeps_run_enqueue_task, beside_exception|intros r].
  destruct (fst r); [apply keeps_ret|].
  apply keeps_bind; [apply keeps_modify; intro; reflexivity|intro].
  apply keeps_ret.
Qed.

Lemma latched_destructor : preserves latched destructor.
Proof.
  assert (Hc : forall c, keeps exception_ (call c))
    by (intros c s; reflexivity).
  apply latched_keeps. unfold destructor.
  repeat first
    [ apply keeps_ret | apply keeps_gets | apply Hc | apply keeps_when
    | apply keeps_video_try_push, beside_exception
    | apply keeps_audio_try_push, beside_exception
    | apply keeps_modify; intro; reflexivity
    | apply keeps_bind; [|intro] ].
Qed.

Lemma latched_lifetime acts s : latched s -> latched (lifetime acts s).
Proof.
  revert s. induction acts as [|a acts IH]; intros s H;
    cbn [lifetime fold_left]; [exact H|].
  apply IH. destruct a as [[f|cb]|]; cbn [lifetime_step step].
  - now apply latched_send.
  - now apply latched_fire.
  - now apply latched_destructor.
Qed.

Lemma send_latched f s e :
  exception_ s = Some e -> send f s = Throw e s.
Proof.
  intros H. unfold send. unfold bind at 1. unfold gets at 1. now rewrite H.
Qed.

(** X4.  When the audio callback of a running engine returns a failure
    code, it has latched an exception.  A [send] made right then throws
    that very exception and leaves the object as it is.  And whatever
    [send]s, callbacks and destruction follow, the latch is never
    emptied: every later [send] throws the exception the latch then
    holds (a later failing callback may have replaced the first) and
    leaves the object as it is. *)
Theorem failed_audio_callback_reaches_send
    (s : decklink_consumer) (preroll : BOOL) (hr : HRESULT)
    (s' : decklink_consumer) :
  is_running_ s = true ->
  RenderAudioSamples preroll s = Ok hr s' ->
  hr <> S_OK ->
  exists e,
    exception_ s' = Some e
    /\ (forall f, send f s' = Throw e s')
    /\ forall acts f,
         exists e',
           exception_ (lifetime acts s') = Some e'
           /\ send f (lifetime acts s') = Throw e' (lifetime acts s').
Proof.
  intros Hrun E Hhr.
  destruct (RenderAudioSamples_running s preroll Hrun)
    as [(s1 & E1 & _)|(e & s1 & E1)]; rewrite E1 in E;
    injection E as <- <-; [contradiction|].
  exists e. split; [reflexivity|].
  split; [intros f; now apply send_latched|].
  intros acts f.
  assert (H : latched (lifetime acts (set_exception (Some e) s1)))
    by (apply latched_lifetime; discriminate).
  unfold latched in H.
  destruct (exception_ (lifetime acts (set_exception (Some e) s1)))
    as [e'|] eqn:He; [|contradiction].
  exists e'. split; [reflexivity | now apply send_latched].
Qed.

(** The stubborn device refuses to start playback on the fifth priming
    callback; a [send] after two further callbacks and another [send]
    still throws. *)
Lemma failed_audio_callback_reaches_send_witness :
  let s := preroll_calls 4
             (constructed default_configuration pal stubborn_device) in
  let s' := state_of (RenderAudioSamples TRUE s) in
  let later := lifetime [act (do_callback (audio_render FALSE));
                         act (do_send (tone 1));
                         act (do_callback (audio_render TRUE))] s' in
  send (tone 2) s' = Throw failed_to_schedule_playback s'
  /\ send (tone 2) later = Throw failed_to_schedule_playback later.
Proof.
  intros s s' later.
  destruct (failed_audio_callback_reaches_send s TRUE E_FAIL s'
              ltac:(vm_compute; reflexivity) ltac:(vm_compute; reflexivity)
              ltac:(vm_compute; discriminate)) as (e & He & H1 & H2).
  assert (e = failed_to_schedule_playback) as ->
    by (vm_compute in He; congruence).
  split; [apply H1|].
  destruct (H2 [act (do_callback (audio_render FALSE));
                act (do_send (tone 1));
                act (do_callback (audio_render TRUE))] (tone 2))
    as (e' & He' & H3).
  fold later in He', H3.
  assert (e' = failed_to_schedule_playback) as ->
    by (vm_compute in He'; congruence).
  exact H3.
Defined.

(* ------------------------------------------------------------------ *)
(** ** The calls a construction makes *)

Lemma output_calls_app l l' :
  output_calls (l ++ l') = output_calls l ++ output_calls l'.
Proof.
  induction l as [|e l IH]; [reflexivity|].
  destruct e; cbn [app output_calls]; [now f_equal | assumption..].
Qed.

Lemma calls_ret {A} (a : A) : calls (ret a) [].
Proof. intros s a' s' [= _ <-]. exists []. now rewrite app_nil_r. Qed.

Lemma calls_gets {A} (f : decklink_consumer -> A) : calls (gets f) [].
Proof. intros s a' s' [= _ <-]. exists []. now rewrite app_nil_r. Qed.

Lemma calls_throw {A} e cs : calls (@throw A e) cs.
Proof. intros s a s' [=]. Qed.

Lemma calls_call c : calls (call c) [c].
Proof. intros s a' s' [= _ <-]. exists [Output c]. now split. Qed.

Lemma calls_bind {A C} (m : M A) (k : A -> M C) cs1 cs2 :
  calls m cs1 -> (forall a, calls (k a) cs2) -> calls (bind m k) (cs1 ++ cs2).
Proof.
  intros Hm Hk s c s' H. apply bind_Ok in H as (a & s1 & H1 & H2).
  destruct (Hm _ _ _ H1) as (l1 & Hl1 & Hs1).
  destruct (Hk a _ _ _ H2) as (l2 & Hl2 & Hs2).
  exists (l1 ++ l2). split.
  - now rewrite Hl2, Hl1, app_assoc.
  - now rewrite output_calls_app, Hs1, Hs2.
Qed.

Lemma calls_if {A} (b : bool) (m1 m2 : M A) cs :
  calls m1 cs -> calls m2 cs -> calls (if b then m1 else m2) cs.
Proof. destruct b; auto. Qed.

Lemma calls_when b m cs :
  calls m cs -> calls (when b m) (if b then cs else []).
Proof. destruct b; [trivial | intros _; apply calls_ret]. Qed.

Lemma calls_enable_video :
  calls enable_video [EnableVideoOutput; SetScheduledFrameCompletionCallback].
Proof.
  unfold enable_video.
  apply (calls_bind _ _ [EnableVideoOutput]
           [SetScheduledFrameCompletionCallback]); [apply calls_call|intro].
  apply calls_if; [apply calls_throw|].
  apply (calls_bind _ _ [SetScheduledFrameCompletionCallback] []);
    [apply calls_call|intro].
  apply calls_if; [apply calls_throw | apply calls_ret].
Qed.

Lemma calls_enable_audio :
  calls enable_audio [EnableAudioOutput; SetAudioCallback].
Proof.
  unfold enable_audio.
  apply (calls_bind _ _ [EnableAudioOutput] [SetAudioCallback]);
    [apply calls_call|intro].
  apply calls_if; [apply calls_throw|].
  apply (calls_bind _ _ [SetAudioCallback] []); [apply calls_call|intro].
  apply calls_if; [apply calls_throw | apply calls_ret].
Qed.

Lemma calls_start_playback s a s' :
  start_playback s = Ok a s' ->
  exists l, log_ s' = log_ s ++ l
            /\ output_calls l
               = [StartScheduledPlayback 0 (time_scale (format_desc_ s))].
Proof.
  unfold start_playback. unfold bind at 1. unfold gets at 1.
  unfold bind at 1. unfold call at 1.
  destruct (FAILED _); [discriminate|]. intros [= _ <-].
  eexists. split; reflexivity.
Qed.

(** The priming loop of the constructor: [n] empty frames at consecutive
    timestamps, as long as the timestamps stay within [long long]. *)
Lemma repeat_schedule_empty n :
  forall s s',
    repeatM n (schedule_next_video Core.empty) s = Ok tt s' ->
    0 <= duration (format_desc_ s) ->
    0 <= video_scheduled_ s ->
    video_scheduled_ s + Z.of_nat n * duration (format_desc_ s) < 2 ^ 63 ->
    (exists l, log_ s' = log_ s ++ l
               /\ output_calls l
                  = empty_frame_calls (config_ s) (format_desc_ s)
                      (video_scheduled_ s) n)
    /\ video_scheduled_ s'
       = video_scheduled_ s + Z.of_nat n * duration (format_desc_ s)
    /\ format_desc_ s' = format_desc_ s
    /\ config_ s' = config_ s.
Proof.
  induction n as [|n IH]; intros s s' H Hd Hv Hmax.
  - injection H as <-. split; [|repeat split; lia].
    exists []. now rewrite app_nil_r.
  - cbn [repeatM] in H. apply bind_Ok in H as ([] & s1 & H1 & H2).
    unfold schedule_next_video in H1.
    unfold call, bind, gets, modify, ret in H1. injection H1 as <-.
    specialize (IH _ _ H2).
    cbn [format_desc_ config_ video_scheduled_ set_video_scheduled
           append_log log_] in IH.
    assert (Hstep : MachineInt.to_long_long
                      (video_scheduled_ s + duration (format_desc_ s))
                    = video_scheduled_ s + duration (format_desc_ s)).
    { apply MachineIntFacts.to_long_long_id. unfold MachineInt.in_long_long.
      nia. }
    rewrite Hstep in IH.
    destruct IH as ((l & Hl & Hc) & Hv' & Hf & Hcfg); [assumption|lia|nia|].
    split; [|repeat split; try assumption; rewrite Hv'; lia].
    eexists. split; [rewrite Hl, <- app_assoc; reflexivity|].
    cbn [app output_calls]. rewrite Hc. unfold empty_frame_calls.
    cbn [seq map]. f_equal.
    + f_equal. lia.
    + rewrite <- seq_shift, map_map. apply map_ext. intros k.
      f_equal. lia.
Qed.

(** X5.  A successful construction has made, in this order: the two calls
    that enable video output; with embedded audio the two that enable
    audio output, then [BeginAudioPreroll]; [buffer_depth] calls of
    [ScheduleVideoFrame] with the empty frame at the timestamps 0,
    [duration], 2 [duration], ...; and, only without embedded audio,
    [StartScheduledPlayback].  The next timestamp is [buffer_depth] times
    [duration]. *)
Theorem construction_makes_these_calls
    (config : configuration) (fd : video_format_desc) (ch : Z)
    (dev : driver) (s : decklink_consumer) :
  Consumer.new config fd ch dev = Ok tt s ->
  0 <= duration fd ->
  Z.of_nat (Z.to_nat (buffer_depth config)) * duration fd < 2 ^ 63 ->
  output_calls (log_ s) = construction_calls config fd
  /\ video_scheduled_ s
     = Z.of_nat (Z.to_nat (buffer_depth config)) * duration fd.
Proof.
  intros Hnew Hd Hmax. apply new_device_setup in Hnew.
  unfold device_setup in Hnew.
  apply bind_Ok in Hnew as (? & s4 & H4 & H).
  apply bind_Ok in H as (cfg & ? & [= <- <-] & H).
  apply bind_Ok in H as (? & s5 & H5 & H).
  apply bind_Ok in H as (? & s6 & H6 & H).
  apply bind_Ok in H as (n & ? & [= <- <-] & H).
  apply bind_Ok in H as ([] & s7 & H7 & H8).
  destruct (calls_enable_video _ _ _ H4) as (l4 & L4 & C4).
  destruct (calls_when _ _ _ calls_enable_audio _ _ _ H5) as (l5 & L5 & C5).
  assert (E6 : calls (_ <- call BeginAudioPreroll ;; ret tt)
                 [BeginAudioPreroll]).
  { apply (calls_bind _ _ [BeginAudioPreroll] []);
      [apply calls_call | intro; apply calls_ret]. }
  destruct (calls_when _ _ _ E6 _ _ _ H6) as (l6 & L6 & C6).
  assert (K : forall {B} (g : decklink_consumer -> B),
             (forall e s, g (append_log e s) = g s) ->
             g s6 = g (configured config fd ch dev)).
  { intros B g Hg.
    assert (Hc : forall c, keeps g (call c)) by (intros c s0; apply Hg).
    assert (K4 : keeps g enable_video).
    { unfold enable_video.
      repeat first [ apply keeps_ret | apply keeps_throw | apply keeps_if
                   | apply Hc | apply keeps_bind; [|intro] ]. }
    assert (K5 : keeps g enable_audio).
    { unfold enable_audio.
      repeat first [ apply keeps_ret | apply keeps_throw | apply keeps_if
                   | apply Hc | apply keeps_bind; [|intro] ]. }
    assert (K6 : keeps g (_ <- call BeginAudioPreroll ;; ret tt)).
    { apply keeps_bind; [apply Hc | intro; apply keeps_ret]. }
    pose proof (K4 (configured config fd ch dev)) as E4'.
    match type of H5 with
    | when ?b ?m ?x = _ => pose proof (keeps_when g b m K5 x) as E5'
    end.
    match type of H6 with
    | when ?b ?m ?x = _ => pose proof (keeps_when g b m K6 x) as E6'
    end.
    rewrite H4 in E4'. rewrite H5 in E5'. rewrite H6 in E6'.
    cbn [state_of] in *. now rewrite E6', E5', E4'. }
  pose proof (K _ config_ ltac:(reflexivity)) as Kc.
  pose proof (K _ format_desc_ ltac:(reflexivity)) as Kf.
  pose proof (K _ buffer_size_ ltac:(reflexivity)) as Kb.
  pose proof (K _ video_scheduled_ ltac:(reflexivity)) as Kv.
  assert (Kc4 : config_ s4 = config).
  { assert (Hc : forall c, keeps config_ (call c))
      by (intros c s0; reflexivity).
    assert (K4 : keeps config_ enable_video).
    { unfold enable_video.
      repeat first [ apply keeps_ret | apply keeps_throw | apply keeps_if
                   | apply Hc | apply keeps_bind; [|intro] ]. }
    pose proof (K4 (configured config fd ch dev)) as E4'.
    rewrite H4 in E4'. exact E4'. }
  cbn [configured config_ format_desc_ buffer_size_ video_scheduled_
         set_audio_frame_buffer set_video_frame_buffer set_is_running
         initial] in Kc, Kf, Kb, Kv.
  rewrite Kb in H7.
  destruct (repeat_schedule_empty _ _ _ H7) as ((l7 & L7 & C7) & V7 & F7 & G7);
    rewrite ?Kf, ?Kv; try assumption; try lia.
  rewrite Kc, Kf, Kv in C7. rewrite Kf, Kv in V7.
  rewrite Kc4 in *.
  assert (L0 : log_ (configured config fd ch dev) = []) by reflexivity.
  destruct (embedded_audio config) eqn:Hemb; cbn [negb when] in H8.
  - injection H8 as <-. rewrite V7. split; [|lia].
    rewrite L7, L6, L5, L4, L0. cbn [app].
    rewrite !output_calls_app, C4, C5, C6, C7.
    unfold construction_calls, empty_frame_calls. rewrite Hemb.
    cbn [app]. rewrite app_nil_r. repeat f_equal.
  - destruct (calls_start_playback _ _ _ H8) as (l8 & L8 & C8).
    assert (V8 : video_scheduled_ s = video_scheduled_ s7).
    { assert (Hc : forall c, keeps video_scheduled_ (call c))
        by (intros c s0; reflexivity).
      assert (K8 : keeps video_scheduled_ start_playback).
      { unfold start_playback.
        repeat first [ apply keeps_ret | apply keeps_throw | apply keeps_if
                     | apply keeps_gets | apply Hc
                     | apply keeps_bind; [|intro] ]. }
      pose proof (K8 s7) as E8. rewrite H8 in E8. exact E8. }
    rewrite V8, V7. split; [|lia].
    rewrite L8, L7, L6, L5, L4, L0. cbn [app].
    rewrite !output_calls_app, C4, C5, C6, C7, C8, F7, Kf.
    unfold construction_calls, empty_frame_calls. rewrite Hemb.
    cbn [app]. repeat f_equal.
Qed.

Lemma construction_makes_these_calls_witness :
  output_calls (log_ pal_engine) = construction_calls default_configuration pal
  /\ video_scheduled_ pal_engine = 5 * 1000.
Proof.
  apply (construction_makes_these_calls default_configuration pal 1
           willing_device pal_engine).
  - vm_compute. reflexivity.
  - vm_compute. discriminate.
  - vm_compute. reflexivity.
Defined.

(* ------------------------------------------------------------------ *)
(** ** A construction that fails *)

Lemma bind_Throw {A C} (m : M A) (k : A -> M C) s e s' :
  bind m k s = Throw e s' ->
  m s = Throw e s' \/ exists a s1, m s = Ok a s1 /\ k a s1 = Throw e s'.
Proof.
  unfold bind. destruct (m s) as [a s1|e1 s1|s1]; try discriminate.
  - right. eauto.
  - intros [= <- <-]. now left.
Qed.

Lemma keeps_unscheduled_call c :
  scheduled_video [Output c] = [] ->
  keeps (fun s => scheduled_video (log_ s)) (call c).
Proof.
  intros H s. cbn [call state_of log_ append_log].
  now rewrite scheduled_video_app, H, app_nil_r.
Qed.

Ltac keeps_unscheduled :=
  repeat first
    [ apply keeps_ret | apply keeps_throw | apply keeps_gets
    | apply keeps_when | apply keeps_if
    | apply keeps_unscheduled_call; reflexivity
    | apply keeps_bind; [|intro] ].

(** X6.  A construction that leaves by an exception other than the failure
    to start playback has handed no frame to [ScheduleVideoFrame]; the
    failure to start playback can only end a construction without
    embedded audio. *)
Theorem failed_construction_has_scheduled_nothing
    (config : configuration) (fd : video_format_desc) (ch : Z)
    (dev : driver) (e : exception) (s : decklink_consumer) :
  Consumer.new config fd ch dev = Throw e s ->
  (e <> failed_to_schedule_playback -> scheduled_video (log_ s) = [])
  /\ (e = failed_to_schedule_playback -> embedded_audio config = false).
Proof.
  unfold Consumer.new.
  destruct (MachineInt.to_int
              (buffer_size_ (initial config fd ch dev) + 1) <? 0).
  { intros [= <- <-]. split; [reflexivity | discriminate]. }
  change (constructor_body (initial config fd ch dev))
    with (device_setup (configured config fd ch dev)).
  set (g := fun s : decklink_consumer => scheduled_video (log_ s)).
  assert (K4 : keeps g enable_video)
    by (unfold enable_video; keeps_unscheduled).
  assert (K5 : keeps g enable_audio)
    by (unfold enable_audio; keeps_unscheduled).
  assert (K6 : keeps g (_ <- call BeginAudioPreroll ;; ret tt))
    by keeps_unscheduled.
  assert (X4 : forall s0 e0 s1, enable_video s0 = Throw e0 s1 ->
                 e0 <> failed_to_schedule_playback).
  { intros s0 e0 s1. unfold enable_video, call, bind, throw, ret.
    repeat (destruct (FAILED _)); intros [=]; subst; discriminate. }
  assert (X5 : forall b s0 e0 s1, when b enable_audio s0 = Throw e0 s1 ->
                 e0 <> failed_to_schedule_playback).
  { intros [] s0 e0 s1; [|discriminate].
    unfold when, enable_audio, call, bind, throw, ret.
    repeat (destruct (FAILED _)); intros [=]; subst; discriminate. }
  intros H. unfold device_setup in H.
  assert (G0 : g (configured config fd ch dev) = []) by reflexivity.
  apply bind_Throw in H as [H|(? & s4 & H4 & H)].
  { pose proof (K4 (configured config fd ch dev)) as E. rewrite H in E.
    split; [intros _; cbn [state_of] in E; now rewrite <- G0
           | intros ->; now apply X4 in H]. }
  pose proof (K4 (configured config fd ch dev)) as E4. rewrite H4 in E4.
  cbn [state_of] in E4.
  apply bind_Throw in H as [[=]|(cfg & ? & [= <- <-] & H)].
  assert (Hcfg : config_ s4 = config).
  { assert (Kc : keeps config_ enable_video).
    { unfold enable_video.
      repeat first [ apply keeps_ret | apply keeps_throw | apply keeps_if
                   | apply keeps_call, beside_config
                   | apply keeps_bind; [|intro] ]. }
    pose proof (Kc (configured config fd ch dev)) as E. rewrite H4 in E.
    exact E. }
  apply bind_Throw in H as [H|(? & s5 & H5 & H)].
  { pose proof (keeps_when g (embedded_audio (config_ s4)) _ K5 s4) as E.
    rewrite H in E.
    cbn [state_of] in E.
    split; [intros _; now rewrite <- G0, <- E4
           | intros ->; now apply X5 in H]. }
  apply bind_Throw in H as [H|(? & s6 & H6 & H)].
  { unfold when, call, bind, ret in H.
    destruct (embedded_audio (config_ s4)); discriminate. }
  apply bind_Throw in H as [[=]|(n & ? & [= <- <-] & H)].
  apply bind_Throw in H as [H|(? & s7 & H7 & H)].
  { exfalso.
    assert (R : forall k, returns (repeatM k
                                     (schedule_next_video Core.empty))).
    { induction k as [|k IH]; cbn [repeatM]; [apply returns_ret|].
      apply returns_bind; [apply schedule_next_video_returns|intro].
      exact IH. }
    destruct (R (Z.to_nat (buffer_size_ s6)) s6) as (a & s' & E).
    rewrite E in H. discriminate. }
  rewrite Hcfg in H. destruct (embedded_audio config); [discriminate|].
  cbn [negb when] in H. unfold start_playback, call, bind, gets, throw, ret in H.
  destruct (FAILED _); [|discriminate]. injection H as <- <-.
  split; [intros X; now contradiction X | reflexivity].
Qed.

Lemma failed_construction_has_scheduled_nothing_witness :
  scheduled_video
    (log_ (state_of
             (Consumer.new default_configuration pal 1
                (fun _ c => match c with
                            | SetAudioCallback => E_FAIL
                            | _ => S_OK
                            end)))) = [].
Proof.
  apply (failed_construction_has_scheduled_nothing default_configuration pal 1
           (fun _ c => match c with SetAudioCallback => E_FAIL | _ => S_OK end)
           could_not_set_audio_callback _
           ltac:(vm_compute; reflexivity)).
  discriminate.
Defined.

(* ------------------------------------------------------------------ *)
(** ** What [send] does with a frame *)

(** X7.  On a running engine with nothing latched, [send] pushes the frame
    at the tail of every slot buffer that has room (the audio one only
    with embedded audio) and changes nothing else in them.  The future is
    ready exactly when nothing is left to push; otherwise the closure is
    registered with the flags of the pushes already made. *)
Theorem send_fills_what_has_room (s : decklink_consumer) (f : const_frame) :
  exception_ s = None ->
  is_running_ s = true ->
  let emb := embedded_audio (config_ s) in
  let a_room := has_room (audio_frame_buffer_ s) in
  let v_room := has_room (video_frame_buffer_ s) in
  let all_in := (negb emb || a_room) && v_room in
  exists s',
    send f s = Ok (if all_in then ready true else deferred) s'
    /\ Tbb.items (video_frame_buffer_ s')
       = Tbb.items (video_frame_buffer_ s) ++ (if v_room then [f] else [])
    /\ Tbb.items (audio_frame_buffer_ s')
       = Tbb.items (audio_frame_buffer_ s)
         ++ (if emb && a_room then [f] else [])
    /\ send_completion_ s'
       = (if all_in then send_completion_ s
          else {| func_ := Some {| audio_ready := negb emb || a_room;
                                   video_ready := v_room;
                                   frame := f |};
                  done_ := false |}).
Proof.
  intros Hx Hrun emb a_room v_room all_in.
  remember (send f s) as r eqn:E.
  unfold send in E. unfold bind at 1 in E. unfold gets at 1 in E.
  rewrite Hx in E. unfold bind at 1 in E. unfold gets at 1 in E.
  rewrite Hrun in E. cbn [negb] in E.
  unfold bind at 1 in E. unfold gets at 1 in E.
  unfold run_enqueue_task, set_task in E. unfold_slots_in E.
  unfold_monad_in E. cbn [audio_ready video_ready frame] in E.
  subst all_in a_room v_room emb. unfold has_room, Tbb.size.
  destruct (embedded_audio (config_ s)); cbn [negb orb andb] in E |- *;
    repeat (match type of E with
            | context [if ?c then _ else _] =>
                lazymatch c with
                | context [if _ then _ else _] => fail
                | _ => destruct c eqn:?
                end
            end; cbn [negb andb orb fst snd video_frame_buffer_
                        audio_frame_buffer_ set_audio_frame_buffer
                        set_video_frame_buffer append_log] in E);
    subst r; eexists; (split; [reflexivity|]);
    cbn [video_frame_buffer_ audio_frame_buffer_ send_completion_
           set_audio_frame_buffer set_video_frame_buffer
           set_send_completion append_log Tbb.items];
    rewrite ?app_nil_r; repeat split; reflexivity.
Qed.

Lemma send_fills_what_has_room_witness :
  exists s',
    send (tone 2) (state_of (send (tone 1) pal_engine)) = Ok deferred s'
    /\ Tbb.items (video_frame_buffer_ s') = [tone 1]
    /\ Tbb.items (audio_frame_buffer_ s') = [tone 1].
Proof.
  destruct (send_fills_what_has_room (state_of (send (tone 1) pal_engine))
              (tone 2) eq_refl eq_refl) as (s' & H1 & H2 & H3 & _).
  exists s'. repeat split; assumption.
Defined.

(* ------------------------------------------------------------------ *)
(** ** Who writes the two clocks *)

Lemma keeps_schedule_next_audio_beside {B} (g : decklink_consumer -> B) a :
  (forall e s, g (append_log e s) = g s) ->
  (forall x s, g (set_audio_container x s) = g s) ->
  (forall x s, g (set_audio_scheduled x s) = g s) ->
  keeps g (schedule_next_audio a).
Proof.
  intros Hl Hc Ha s. unfold schedule_next_audio, call, bind, gets, modify.
  cbn [state_of]. now rewrite Ha, Hl, Hc.
Qed.

Lemma keeps_drain_audio_beside {B} (g : decklink_consumer -> B) fuel :
  beside_slots g ->
  (forall x s, g (set_audio_container x s) = g s) ->
  (forall x s, g (set_audio_scheduled x s) = g s) ->
  keeps g (drain_audio fuel).
Proof.
  intros Hg Hc Ha. pose proof Hg as (_ & Hq & _ & Hl).
  induction fuel as [|fuel IH]; cbn [drain_audio]; [apply keeps_ret|].
  intros s.
  destruct (Tbb.try_pop (audio_frame_buffer_ s)) as [[f q]|]; [|reflexivity].
  assert (E : keeps g (_ <- try_completion ;;
                       schedule_next_audio (audio_data f) ;;
                       drain_audio fuel)).
  { apply keeps_bind; [now apply keeps_try_completion|intro].
    apply keeps_bind; [now apply keeps_schedule_next_audio_beside|intro].
    exact IH. }
  rewrite (E (set_audio_frame_buffer q s)). apply Hq.
Qed.

(** X8.  The audio callback never moves the scheduled video timestamp;
    the video callback moves the scheduled audio sample counter only on a
    displayed-late result, and never the preroll counter; [send] moves
    none of the three. *)
Theorem clocks_have_one_writer
    (s : decklink_consumer) (completed_frame : Frame.decklink_frame)
    (result : BMDOutputFrameCompletionResult) (preroll : BOOL)
    (f : const_frame) :
  video_scheduled_ (state_of (RenderAudioSamples preroll s))
  = video_scheduled_ s
  /\ (is_displayed_late result = false ->
      audio_scheduled_
        (state_of (ScheduledFrameCompleted completed_frame result s))
      = audio_scheduled_ s)
  /\ preroll_count_
       (state_of (ScheduledFrameCompleted completed_frame result s))
     = preroll_count_ s
  /\ video_scheduled_ (state_of (send f s)) = video_scheduled_ s
  /\ audio_scheduled_ (state_of (send f s)) = audio_scheduled_ s
  /\ preroll_count_ (state_of (send f s)) = preroll_count_ s.
Proof.
  assert (Hsend : forall {B} (g : decklink_consumer -> B),
             beside_slots g -> keeps g (send f)).
  { intros B g Hg. pose proof Hg as (_ & _ & Hr & _).
    unfold send, set_task.
    apply keeps_bind; [apply keeps_gets|intros [e|]]; [apply keeps_throw|].
    apply keeps_bind; [apply keeps_gets|intro].
    apply keeps_if; [apply keeps_throw|].
    apply keeps_bind; [apply keeps_gets|intro].
    apply keeps_bind; [now apply keeps_run_enqueue_task|intros r].
    destruct (fst r); [apply keeps_ret|].
    apply keeps_bind; [apply keeps_modify; auto | intro; apply keeps_ret]. }
  assert (Hrearm : forall {B} (g : decklink_consumer -> B),
             beside_slots g ->
             (forall x s, g (set_video_scheduled x s) = g s) ->
             keeps g rearm).
  { intros B g Hg Hv. unfold rearm, schedule_next_video.
    repeat first
      [ apply keeps_ret | apply keeps_gets
      | apply keeps_video_pop; assumption
      | apply keeps_try_completion; assumption
      | apply keeps_call; assumption
      | apply keeps_modify; intro; apply Hv
      | apply keeps_bind; [|intro] ]. }
  split; [|split; [|split]].
  - assert (K : keeps video_scheduled_ (RenderAudioSamples preroll)).
    { unfold RenderAudioSamples, start_playback, audio_buffer, latch.
      apply keeps_bind; [apply keeps_gets|intro].
      apply keeps_if; [apply keeps_ret|].
      apply keeps_try_catch;
        [|intro; apply keeps_bind;
                 [apply keeps_modify; intro; reflexivity
                 |intro; apply keeps_ret]].
      apply keeps_bind;
        [|intro; apply keeps_bind;
                 [apply keeps_call, beside_video_scheduled
                 |intro; apply keeps_ret]].
      apply keeps_if.
      + repeat first
          [ apply keeps_ret | apply keeps_throw | apply keeps_gets
          | apply keeps_if
          | apply keeps_call, beside_video_scheduled
          | apply keeps_schedule_next_audio_beside; intros; reflexivity
          | apply keeps_modify; intro; reflexivity
          | apply keeps_bind; [|intro] ].
      + apply keeps_bind; [apply keeps_gets|intro].
        apply keeps_drain_audio_beside;
          [apply beside_video_scheduled | intros; reflexivity..]. }
    apply K.
  - intros Hr.
    assert (K : keeps audio_scheduled_
                  (ScheduledFrameCompleted completed_frame result)).
    { unfold ScheduledFrameCompleted, latch. rewrite Hr. cbn [when].
      apply keeps_bind; [apply keeps_gets|intro].
      apply keeps_if; [apply keeps_ret|].
      apply keeps_try_catch;
        [|intro; apply keeps_bind;
                 [apply keeps_modify; intro; reflexivity
                 |intro; apply keeps_ret]].
      apply keeps_bind; [apply keeps_ret|intro].
      apply keeps_bind; [|intro; apply keeps_ret].
      apply Hrearm; [apply beside_audio_scheduled | reflexivity]. }
    apply K.
  - assert (K : keeps preroll_count_
                  (ScheduledFrameCompleted completed_frame result)).
    { unfold ScheduledFrameCompleted, latch, late_adjust.
      apply keeps_bind; [apply keeps_gets|intro].
      apply keeps_if; [apply keeps_ret|].
      apply keeps_try_catch;
        [|intro; apply keeps_bind;
                 [apply keeps_modify; intro; reflexivity
                 |intro; apply keeps_ret]].
      apply keeps_bind;
        [apply keeps_when;
         repeat first [ apply keeps_gets
                      | apply keeps_modify; intro; reflexivity
                      | apply keeps_bind; [|intro] ]
        |intro].
      apply keeps_bind; [|intro; apply keeps_ret].
      apply Hrearm; [apply beside_preroll_count | reflexivity]. }
    apply K.
  - repeat split.
    + apply (Hsend _ _ beside_video_scheduled).
    + apply (Hsend _ _ beside_audio_scheduled).
    + apply (Hsend _ _ beside_preroll_count).
Qed.

(* ------------------------------------------------------------------ *)
(** ** The audio path in steady state *)

Import Paths.

Lemma scheduled_blocks_app l l' :
  scheduled_blocks (l ++ l') = scheduled_blocks l ++ scheduled_blocks l'.
Proof.
  induction l as [|[[]| |] l IH]; cbn [app scheduled_blocks];
    rewrite ?IH; reflexivity.
Qed.

Lemma ghost_only_scheduled_blocks l : ghost_only l -> scheduled_blocks l = [].
Proof.
  induction l as [|e l IH]; intros H; [reflexivity|].
  assert (He : match e with Output _ => False | _ => True end)
    by (apply H; now left).
  destruct e; [contradiction| |]; cbn [scheduled_blocks];
    apply IH; intros e' Hin; apply H; now right.
Qed.

Lemma try_completion_idle s :
  idle s -> exists b, try_completion s = Ok b s.
Proof.
  intros H. unfold idle in H.
  unfold try_completion. unfold bind at 1. unfold gets at 1.
  destruct (func_ (send_completion_ s)) as [t|] eqn:Hf.
  - destruct H as [H|H]; [discriminate|]. rewrite H. now exists true.
  - now exists false.
Qed.

Lemma scheduled_audio_added s s' l :
  log_ s' = log_ s ++ l -> scheduled_audio (added s s') = scheduled_audio l.
Proof. intros H. now rewrite (added_app s s' l H). Qed.

(** With no [send] waiting, the loop schedules the block of every buffered
    frame, oldest first, each at the running sample count, and leaves the
    buffer empty. *)
Lemma drain_audio_idle fs :
  forall fuel s,
    idle s ->
    Tbb.items (audio_frame_buffer_ s) = fs ->
    (length fs <= fuel)%nat ->
    exists s' l,
      drain_audio fuel s = Ok tt s'
      /\ Tbb.items (audio_frame_buffer_ s') = []
      /\ Tbb.capacity (audio_frame_buffer_ s')
         = Tbb.capacity (audio_frame_buffer_ s)
      /\ log_ s' = log_ s ++ l
      /\ scheduled_audio l
         = map (fun f => block_frames (format_desc_ s) (audio_data f)) fs
      /\ scheduled_video l = []
      /\ audio_scheduled_ s'
         = audio_clock_after (format_desc_ s) fs (audio_scheduled_ s)
      /\ send_completion_ s' = send_completion_ s
      /\ video_frame_buffer_ s' = video_frame_buffer_ s
      /\ is_running_ s' = is_running_ s
      /\ exception_ s' = exception_ s
      /\ config_ s' = config_ s
      /\ format_desc_ s' = format_desc_ s
      /\ scheduled_blocks l = map audio_data fs.
Proof.
  induction fs as [|f fs IH]; intros fuel s Hidle Hitems Hfuel.
  - exists s, []. rewrite app_nil_r.
    assert (E : drain_audio fuel s = Ok tt s).
    { destruct fuel; [reflexivity|]. cbn [drain_audio].
      unfold Tbb.try_pop. now rewrite Hitems. }
    repeat split; try assumption; reflexivity.
  - destruct fuel as [|fuel]; [cbn [length] in Hfuel; lia|].
    cbn [drain_audio]. unfold Tbb.try_pop. rewrite Hitems.
    set (s1 := set_audio_frame_buffer _ s).
    assert (Hidle1 : idle s1) by exact Hidle.
    destruct (try_completion_idle s1 Hidle1) as (b & E1).
    unfold bind at 1. rewrite E1.
    unfold bind at 1. unfold schedule_next_audio at 1.
    unfold bind at 1. unfold gets at 1.
    unfold bind at 1. unfold modify at 1.
    unfold bind at 1. unfold call at 1. unfold modify at 1.
    match goal with
    | |- exists s' l, drain_audio fuel ?x = _ /\ _ => set (s2 := x)
    end.
    destruct (IH fuel s2) as (s' & l & E & H1 & H2 & H3 & H4 & H5 & H6 & H7
                              & H8 & H9 & H10 & H11 & H12 & H13).
    + exact Hidle.
    + reflexivity.
    + cbn [length] in Hfuel. lia.
    + exists s'. eexists. split; [exact E|].
      split; [exact H1|]. split; [rewrite H2; reflexivity|].
      split; [rewrite H3; subst s2 s1;
              cbn [log_ append_log set_audio_scheduled set_audio_container
                     set_audio_frame_buffer];
              rewrite <- app_assoc; reflexivity|].
      cbn [map app scheduled_audio scheduled_video scheduled_blocks
             audio_clock_after fold_left].
      rewrite H4, H5, H6, H13.
      repeat split; try assumption; reflexivity.
Qed.

(** X9.  On a running engine with no [send] waiting, the audio callback
    without [preroll] returns [S_OK] having emptied the audio slot buffer:
    it has scheduled one block for each buffered frame, oldest first, of
    that frame's sample-frame count, and advanced the scheduled audio
    sample counter by each count in turn. *)
Theorem audio_render_drains_in_order (s : decklink_consumer) :
  is_running_ s = true ->
  idle s ->
  exists s',
    RenderAudioSamples FALSE s = Ok S_OK s'
    /\ Tbb.items (audio_frame_buffer_ s') = []
    /\ scheduled_audio (added s s')
       = map (fun f => block_frames (format_desc_ s) (audio_data f))
           (Tbb.items (audio_frame_buffer_ s))
    /\ audio_scheduled_ s'
       = audio_clock_after (format_desc_ s)
           (Tbb.items (audio_frame_buffer_ s)) (audio_scheduled_ s).
Proof.
  intros Hrun Hidle.
  rewrite (RenderAudioSamples_try_block s FALSE Hrun).
  unfold audio_try_block. change (truthy FALSE) with false. cbv iota.
  unfold bind at 1. unfold bind at 1. unfold gets at 1.
  destruct (drain_audio_idle (Tbb.items (audio_frame_buffer_ s))
              (S (length (Tbb.items (audio_frame_buffer_ s)))) s
              Hidle eq_refl ltac:(lia))
    as (s' & l & E & H1 & _ & H3 & H4 & _ & H6 & _).
  rewrite E. unfold call, bind, ret.
  eexists. split; [reflexivity|].
  cbn [audio_frame_buffer_ audio_scheduled_ append_log].
  split; [exact H1|]. split; [|exact H6].
  erewrite scheduled_audio_added
    by (cbn [log_ append_log]; rewrite H3, <- app_assoc; reflexivity).
  rewrite scheduled_audio_app, H4. cbn. apply app_nil_r.
Qed.

Lemma audio_render_drains_in_order_witness :
  exists s',
    RenderAudioSamples FALSE (state_of (send (tone 3) pal_engine)) = Ok S_OK s'
    /\ Tbb.items (audio_frame_buffer_ s') = []
    /\ scheduled_audio (added (state_of (send (tone 3) pal_engine)) s') = [3].
Proof.
  destruct (audio_render_drains_in_order (state_of (send (tone 3) pal_engine))
              eq_refl (or_introl eq_refl)) as (s' & H1 & H2 & H3 & _).
  exists s'. repeat split; assumption.
Defined.

(* ------------------------------------------------------------------ *)
(** ** Teardown *)

Lemma resume_returns_on_frames s f rest :
  Tbb.items (video_frame_buffer_ s) = f :: rest ->
  exists s', ScheduledFrameCompleted_resume s = Ok S_OK s'
             /\ scheduled_video (added s s') = [f].
Proof.
  intros H. rewrite ScheduledFrameCompleted_resume_rearm.
  destruct (rearm_schedules_oldest s f rest H) as (s' & -> & Hs).
  exists s'. now split.
Qed.

(** X10.  The destructor lowers the running flag, offers the empty frame
    to both slot buffers, then stops scheduled playback and disables the
    outputs, audio (only with embedded audio) before video.  As the video
    slot buffer has capacity for a frame, it is not empty afterwards: a
    video callback parked on it goes on and returns, with the empty frame
    if nothing else was buffered. *)
Theorem destructor_releases_the_video_callback (s : decklink_consumer) :
  1 <= Tbb.capacity (video_frame_buffer_ s) ->
  exists s',
    destructor s = Ok tt s'
    /\ is_running_ s' = false
    /\ output_calls (added s s')
       = StopScheduledPlayback
         :: (if embedded_audio (config_ s) then [DisableAudioOutput] else [])
         ++ [DisableVideoOutput]
    /\ (Tbb.items (video_frame_buffer_ s) = [] ->
        Tbb.items (video_frame_buffer_ s') = [Core.empty])
    /\ exists f s'',
         ScheduledFrameCompleted_resume s' = Ok S_OK s''
         /\ scheduled_video (added s' s'') = [f]
         /\ hd_error (Tbb.items (video_frame_buffer_ s) ++ [Core.empty])
            = Some f.
Proof.
  intros Hcap.
  remember (destructor s) as r eqn:E.
  unfold destructor in E. unfold_slots_in E. unfold_monad_in E.
  cbn [video_frame_buffer_ audio_frame_buffer_ set_is_running] in E.
  assert (Hv : exists q,
             (q = Tbb.items (video_frame_buffer_ s) ++ [Core.empty]
              \/ (q = Tbb.items (video_frame_buffer_ s) /\ q <> []))
             /\ (Tbb.items (video_frame_buffer_ s) = [] -> q = [Core.empty])
             /\ Tbb.items
                  (snd (Tbb.try_push Core.empty (video_frame_buffer_ s))) = q).
  { unfold Tbb.try_push, Tbb.size.
    destruct (Z.of_nat (length (Tbb.items (video_frame_buffer_ s)))
              <? Tbb.capacity (video_frame_buffer_ s)) eqn:Hc; cbn [snd Tbb.items].
    - eexists. split; [left; reflexivity|]. split; [|reflexivity].
      now intros ->.
    - apply Z.ltb_ge in Hc. eexists. split; [right; split; [reflexivity|]|].
      + destruct (Tbb.items (video_frame_buffer_ s)); [cbn in Hc; lia|].
        discriminate.
      + split; [|reflexivity]. intros H0. rewrite H0 in Hc. cbn in Hc. lia. }
  destruct Hv as (q & Hq & Hq0 & Hitems).
  unfold Tbb.try_push, Tbb.size in Hitems.
  assert (Hres : forall s', Tbb.items (video_frame_buffer_ s') = q ->
             exists f s'',
               ScheduledFrameCompleted_resume s' = Ok S_OK s''
               /\ scheduled_video (added s' s'') = [f]
               /\ hd_error (Tbb.items (video_frame_buffer_ s) ++ [Core.empty])
                  = Some f).
  { intros s' Hs'. destruct q as [|f rest].
    - destruct Hq as [Hq|[_ Hq]]; [|now contradiction Hq].
      destruct (Tbb.items (video_frame_buffer_ s)); discriminate.
    - destruct (resume_returns_on_frames s' f rest Hs') as (s'' & H1 & H2).
      exists f, s''. repeat split; try assumption.
      destruct Hq as [Hq|[Hq _]]; rewrite <- Hq; [reflexivity|].
      reflexivity. }
  repeat (match type of E with
            | context [if ?c then _ else _] =>
                lazymatch c with
                | context [if _ then _ else _] => fail
                | _ => destruct c eqn:?
                end
            end; cbn [negb andb fst snd video_frame_buffer_
                        audio_frame_buffer_ set_audio_frame_buffer
                        set_video_frame_buffer append_log config_
                        set_is_running] in E);
    subst r; cbn [snd Tbb.items] in Hitems;
    (eexists; split; [reflexivity|]);
    (split; [reflexivity|]);
    (split; [unfold added;
             cbn [log_ append_log set_audio_frame_buffer
                    set_video_frame_buffer set_is_running];
             rewrite <- ?app_assoc, skipn_app, skipn_all, Nat.sub_diag;
             reflexivity|]);
    (split; [intros H0;
             cbn [video_frame_buffer_ append_log set_audio_frame_buffer
                    set_video_frame_buffer set_is_running Tbb.items];
             rewrite Hitems; now apply Hq0|]);
    apply Hres;
    cbn [video_frame_buffer_ append_log set_audio_frame_buffer
           set_video_frame_buffer set_is_running Tbb.items];
    exact Hitems.
Qed.

Lemma destructor_releases_the_video_callback_witness :
  exists s',
    destructor pal_engine = Ok tt s'
    /\ is_running_ s' = false
    /\ Tbb.items (video_frame_buffer_ s') = [Core.empty].
Proof.
  destruct (destructor_releases_the_video_callback pal_engine
              ltac:(vm_compute; discriminate))
    as (s' & H1 & H2 & _ & H4 & _).
  exists s'. repeat split; try assumption. apply H4. reflexivity.
Defined.

(* ------------------------------------------------------------------ *)
(** ** A deferred [send], from its registration to its resolution *)

Import Paths.

























(* ------------------------------------------------------------------ *)
(** ** Frames leave in the order they were sent *)

Lemma has_room_empty q :
  Tbb.items q = [] -> 1 <= Tbb.capacity q ->
  (Tbb.size q <? Tbb.capacity q) = true.
Proof.
  intros Hi Hc. unfold Tbb.size. rewrite Hi. cbn [length].
  apply Z.ltb_lt. lia.
Qed.

(** The [send] of a round: both slots take the frame at once. *)
Lemma send_between config fd s f :
  between_frames config fd s ->
  exists s1 l,
    send f s = Ok (ready true) s1
    /\ log_ s1 = log_ s ++ l
    /\ ghost_only l
    /\ is_running_ s1 = true
    /\ exception_ s1 = None
    /\ config_ s1 = config
    /\ format_desc_ s1 = fd
    /\ Tbb.items (video_frame_buffer_ s1) = [f]
    /\ Tbb.items (audio_frame_buffer_ s1)
       = (if embedded_audio config then [f] else [])
    /\ Tbb.capacity (video_frame_buffer_ s1)
       = Tbb.capacity (video_frame_buffer_ s)
    /\ Tbb.capacity (audio_frame_buffer_ s1)
       = Tbb.capacity (audio_frame_buffer_ s)
    /\ func_ (send_completion_ s1) = None.
Proof.
  intros (Hrun & Hx & Hcfg & Hfd & Hv & Ha & Hcv & Hca & Hf).
  pose proof (has_room_empty _ Hv Hcv) as Rv.
  pose proof (has_room_empty _ Ha Hca) as Ra.
  remember (send f s) as r eqn:E.
  unfold send in E. unfold bind at 1 in E. unfold gets at 1 in E.
  rewrite Hx in E. unfold bind at 1 in E. unfold gets at 1 in E.
  rewrite Hrun in E. cbn [negb] in E.
  unfold bind at 1 in E. unfold gets at 1 in E. rewrite Hcfg in E.
  unfold run_enqueue_task in E. unfold_slots_in E. unfold_monad_in E.
  cbn [audio_ready video_ready frame] in E.
  unfold Tbb.size in Rv, Ra.
  destruct (embedded_audio config); cbn [negb] in E.
  - rewrite Ra in E.
    cbn [video_frame_buffer_ set_audio_frame_buffer append_log] in E.
    rewrite Rv in E. cbn [andb fst snd] in E. subst r.
    eexists. exists [Pushed audio_slot f; Pushed video_slot f].
    split; [reflexivity|].
    cbn [log_ append_log set_audio_frame_buffer set_video_frame_buffer
           is_running_ exception_ config_ format_desc_ video_frame_buffer_
           audio_frame_buffer_ send_completion_ Tbb.items Tbb.capacity].
    rewrite Hv, Ha, <- app_assoc.
    repeat split; try assumption; try reflexivity.
    intros e [<-|[<-|[]]]; exact I.
  - rewrite Rv in E. cbn [andb fst snd] in E. subst r.
    eexists. exists [Pushed video_slot f].
    split; [reflexivity|].
    cbn [log_ append_log set_audio_frame_buffer set_video_frame_buffer
           is_running_ exception_ config_ format_desc_ video_frame_buffer_
           audio_frame_buffer_ send_completion_ Tbb.items Tbb.capacity].
    rewrite Hv, Ha.
    repeat split; try assumption; try reflexivity.
    intros e [<-|[]]; exact I.
Qed.

(** The video completion of a round: the frame goes to the driver. *)
Lemma video_completion_between s completed_frame result f :
  is_running_ s = true ->
  Tbb.items (video_frame_buffer_ s) = [f] ->
  func_ (send_completion_ s) = None ->
  exists s2 l,
    ScheduledFrameCompleted completed_frame result s = Ok S_OK s2
    /\ log_ s2 = log_ s ++ l
    /\ scheduled_video l = [f]
    /\ scheduled_audio l = []
    /\ is_running_ s2 = true
    /\ exception_ s2 = exception_ s
    /\ config_ s2 = config_ s
    /\ format_desc_ s2 = format_desc_ s
    /\ Tbb.items (video_frame_buffer_ s2) = []
    /\ Tbb.capacity (video_frame_buffer_ s2)
       = Tbb.capacity (video_frame_buffer_ s)
    /\ audio_frame_buffer_ s2 = audio_frame_buffer_ s
    /\ send_completion_ s2 = send_completion_ s
    /\ scheduled_blocks l = [].
Proof.
  intros Hrun Hv Hf.
  rewrite (ScheduledFrameCompleted_running s completed_frame result Hrun).
  unfold try_catch. unfold bind at 1.
  assert (Hadj : exists s1,
             when (is_displayed_late result) (late_adjust completed_frame) s
             = Ok tt s1
             /\ log_ s1 = log_ s
             /\ is_running_ s1 = true
             /\ exception_ s1 = exception_ s
             /\ config_ s1 = config_ s
             /\ format_desc_ s1 = format_desc_ s
             /\ video_frame_buffer_ s1 = video_frame_buffer_ s
             /\ audio_frame_buffer_ s1 = audio_frame_buffer_ s
             /\ send_completion_ s1 = send_completion_ s).
  { destruct (is_displayed_late result); cbn [when].
    - unfold late_adjust, bind, gets, modify. eexists.
      split; [reflexivity|]. repeat split; assumption.
    - exists s. repeat split; assumption. }
  destruct Hadj as (s1 & -> & L1 & R1 & X1 & C1 & F1 & V1 & A1 & S1).
  unfold bind at 1. unfold rearm. unfold bind at 1.
  unfold video_pop, Tbb.pop, Tbb.try_pop. rewrite V1, Hv.
  set (s1' := set_video_frame_buffer _ s1).
  assert (Hidle : idle s1') by (left; cbn; now rewrite S1).
  destruct (try_completion_idle s1' Hidle) as (b & Eb).
  unfold bind at 1. rewrite Eb.
  unfold schedule_next_video, call, bind, gets, modify, ret.
  eexists. eexists. split; [reflexivity|].
  subst s1'.
  cbn [log_ append_log set_video_scheduled set_video_frame_buffer
         is_running_ exception_ config_ format_desc_ video_frame_buffer_
         audio_frame_buffer_ send_completion_ Tbb.items Tbb.capacity].
  rewrite L1, <- app_assoc, ?V1, ?X1, ?C1, ?F1, ?A1, ?S1, ?R1.
  repeat split; try assumption; reflexivity.
Qed.

(** The audio render of a round: the block of the frame goes to the
    driver. *)
Lemma audio_render_between s :
  is_running_ s = true ->
  func_ (send_completion_ s) = None ->
  exists s3 l,
    RenderAudioSamples FALSE s = Ok S_OK s3
    /\ log_ s3 = log_ s ++ l
    /\ scheduled_video l = []
    /\ scheduled_audio l
       = map (fun f => block_frames (format_desc_ s) (audio_data f))
           (Tbb.items (audio_frame_buffer_ s))
    /\ is_running_ s3 = true
    /\ exception_ s3 = exception_ s
    /\ config_ s3 = config_ s
    /\ format_desc_ s3 = format_desc_ s
    /\ Tbb.items (audio_frame_buffer_ s3) = []
    /\ Tbb.capacity (audio_frame_buffer_ s3)
       = Tbb.capacity (audio_frame_buffer_ s)
    /\ video_frame_buffer_ s3 = video_frame_buffer_ s
    /\ send_completion_ s3 = send_completion_ s
    /\ scheduled_blocks l
       = map audio_data (Tbb.items (audio_frame_buffer_ s)).
Proof.
  intros Hrun Hf.
  rewrite (RenderAudioSamples_try_block s FALSE Hrun).
  unfold audio_try_block. change (truthy FALSE) with false. cbv iota.
  unfold bind at 1. unfold bind at 1. unfold gets at 1.
  destruct (drain_audio_idle (Tbb.items (audio_frame_buffer_ s))
              (S (length (Tbb.items (audio_frame_buffer_ s)))) s
              (or_introl Hf) eq_refl ltac:(lia))
    as (s' & l & E & H1 & H2 & H3 & H4 & H5 & H6 & H7 & H8 & H9 & H10
        & H11 & H12 & H13).
  rewrite E. unfold call, bind, ret.
  eexists. exists (l ++ [Output GetBufferedAudioSampleFrameCount]).
  split; [reflexivity|].
  cbn [log_ append_log is_running_ exception_ config_ format_desc_
         video_frame_buffer_ audio_frame_buffer_ send_completion_].
  rewrite H3, app_assoc, scheduled_video_app, scheduled_audio_app,
    scheduled_blocks_app, H4, H5, H13.
  cbn [scheduled_video scheduled_audio scheduled_blocks app].
  rewrite !app_nil_r.
  repeat split; try assumption; try reflexivity.
  now rewrite H9.
Qed.

(** One round takes the engine from between two frames to between two
    frames, and has scheduled the frame and, with embedded audio, its
    block. *)
Lemma round_between config fd s completed_frame result f :
  between_frames config fd s ->
  let s' := play (round completed_frame result f) s in
  between_frames config fd s'
  /\ scheduled_video (log_ s') = scheduled_video (log_ s) ++ [f]
  /\ scheduled_audio (log_ s')
     = scheduled_audio (log_ s)
       ++ (if embedded_audio config
           then [block_frames fd (audio_data f)] else [])
  /\ scheduled_blocks (log_ s')
     = scheduled_blocks (log_ s)
       ++ (if embedded_audio config then [audio_data f] else []).
Proof.
  intros Hb s'. pose proof Hb as (_ & _ & _ & _ & _ & _ & Hcv & Hca & _).
  destruct (send_between config fd s f Hb)
    as (s1 & l1 & E1 & L1 & G1 & R1 & X1 & C1 & F1 & V1 & A1 & KV1 & KA1
        & S1).
  destruct (video_completion_between s1 completed_frame result f R1 V1 S1)
    as (s2 & l2 & E2 & L2 & SV2 & SA2 & R2 & X2 & C2 & F2 & V2 & KV2 & A2
        & S2 & SB2).
  assert (S2' : func_ (send_completion_ s2) = None) by now rewrite S2.
  destruct (audio_render_between s2 R2 S2')
    as (s3 & l3 & E3 & L3 & SV3 & SA3 & R3 & X3 & C3 & F3 & A3 & KA3 & V3
        & S3 & SB3).
  assert (Hs' : s' = s3).
  { subst s'. unfold round, play. cbn [fold_left step fire].
    rewrite E1. cbn [state_of]. rewrite E2. cbn [state_of]. now rewrite E3. }
  rewrite Hs'. split.
  - unfold between_frames.
    rewrite R3, X3, X2, X1, C3, C2, C1, F3, F2, F1, A3, KA3, A2, KA1, V3, V2,
      KV2, KV1, S3, S2, S1.
    repeat split; assumption.
  - rewrite L3, L2, L1, !scheduled_video_app, !scheduled_audio_app,
      !scheduled_blocks_app.
    rewrite SV3, SV2, SA3, SA2, SB3, SB2, A2, A1, F2, F1.
    rewrite (ghost_only_scheduled_video l1 G1).
    rewrite (ghost_only_scheduled_audio l1 G1).
    rewrite (ghost_only_scheduled_blocks l1 G1).
    cbn [app]. rewrite !app_nil_r. split; [reflexivity|].
    destruct (embedded_audio config); split; reflexivity.
Qed.

Lemma play_app acts acts' s : play (acts ++ acts') s = play acts' (play acts s).
Proof. unfold play. apply fold_left_app. Qed.

Lemma rounds_between config fd completed_frame result fs :
  forall s,
    between_frames config fd s ->
    let s' := play (concat (map (round completed_frame result) fs)) s in
    between_frames config fd s'
    /\ scheduled_video (log_ s') = scheduled_video (log_ s) ++ fs
    /\ scheduled_audio (log_ s')
       = scheduled_audio (log_ s)
         ++ (if embedded_audio config
             then map (fun f => block_frames fd (audio_data f)) fs else [])
    /\ scheduled_blocks (log_ s')
       = scheduled_blocks (log_ s)
         ++ (if embedded_audio config then map audio_data fs else []).
Proof.
  induction fs as [|f fs IH]; intros s Hb.
  - unfold play. cbn [map concat fold_left]. cbv zeta.
    destruct (embedded_audio config); rewrite !app_nil_r;
      (split; [assumption|]); repeat split; reflexivity.
  - cbn [map concat]. cbv zeta. rewrite play_app.
    destruct (round_between config fd s completed_frame result f Hb)
      as (Hb1 & Hv1 & Ha1 & Hk1).
    destruct (IH _ Hb1) as (Hb2 & Hv2 & Ha2 & Hk2).
    split; [exact Hb2|].
    rewrite Hv2, Ha2, Hk2, Hv1, Ha1, Hk1, <- !app_assoc.
    split; [reflexivity|].
    destruct (embedded_audio config); split; reflexivity.
Qed.

Lemma new_between config fd ch dev s :
  Consumer.new config fd ch dev = Ok tt s ->
  between_frames config fd s
  /\ scheduled_audio (log_ s) = []
  /\ scheduled_blocks (log_ s) = [].
Proof.
  intros Hnew. split; [|split].
  - unfold between_frames.
    rewrite (new_keeps is_running_ config fd ch dev s
               ltac:(reflexivity) ltac:(reflexivity) Hnew).
    rewrite (new_keeps exception_ config fd ch dev s
               ltac:(reflexivity) ltac:(reflexivity) Hnew).
    rewrite (new_keeps config_ config fd ch dev s
               ltac:(reflexivity) ltac:(reflexivity) Hnew).
    rewrite (new_keeps format_desc_ config fd ch dev s
               ltac:(reflexivity) ltac:(reflexivity) Hnew).
    rewrite (new_keeps video_frame_buffer_ config fd ch dev s
               ltac:(reflexivity) ltac:(reflexivity) Hnew).
    rewrite (new_keeps audio_frame_buffer_ config fd ch dev s
               ltac:(reflexivity) ltac:(reflexivity) Hnew).
    rewrite (new_keeps send_completion_ config fd ch dev s
               ltac:(reflexivity) ltac:(reflexivity) Hnew).
    cbn. destruct (Qle_bool (fps fd) (50 # 1)); repeat split; lia.
  - apply new_device_setup in Hnew.
    assert (Hc : forall c, scheduled_audio [Output c] = [] ->
                 keeps (fun s => scheduled_audio (log_ s)) (call c)).
    { intros c H s0. cbn [call state_of log_ append_log].
      now rewrite scheduled_audio_app, H, app_nil_r. }
    assert (K : keeps (fun s => scheduled_audio (log_ s)) device_setup).
    { unfold device_setup, enable_video, enable_audio, start_playback,
        schedule_next_video.
      repeat first
        [ apply keeps_ret | apply keeps_throw | apply keeps_gets
        | apply keeps_when | apply keeps_repeatM | apply keeps_if
        | apply Hc; reflexivity
        | apply keeps_modify; intro; reflexivity
        | apply keeps_bind; [|intro] ]. }
    specialize (K (configured config fd ch dev)). rewrite Hnew in K.
    exact K.
  - apply new_device_setup in Hnew.
    assert (Hc : forall c, scheduled_blocks [Output c] = [] ->
                 keeps (fun s => scheduled_blocks (log_ s)) (call c)).
    { intros c H s0. cbn [call state_of log_ append_log].
      now rewrite scheduled_blocks_app, H, app_nil_r. }
    assert (K : keeps (fun s => scheduled_blocks (log_ s)) device_setup).
    { unfold device_setup, enable_video, enable_audio, start_playback,
        schedule_next_video.
      repeat first
        [ apply keeps_ret | apply keeps_throw | apply keeps_gets
        | apply keeps_when | apply keeps_repeatM | apply keeps_if
        | apply Hc; reflexivity
        | apply keeps_modify; intro; reflexivity
        | apply keeps_bind; [|intro] ]. }
    specialize (K (configured config fd ch dev)). rewrite Hnew in K.
    exact K.
Qed.

(** X11.  Start from a successful construction and put frames through the
    engine one at a time: each is sent, then the driver completes a video
    frame (with any result) and asks for audio.  Every [send] is ready at
    once; the frames handed to [ScheduleVideoFrame] are the [buffer_depth]
    empty frames of the construction followed by the frames sent, in the
    order sent; with embedded audio the blocks handed to
    [ScheduleAudioSamples] are the audio of the frames sent, sample for
    sample and in the same order, each with its sample-frame count, and
    without it none is. *)
Theorem frames_leave_in_submission_order
    (config : configuration) (fd : video_format_desc) (ch : Z)
    (dev : driver) (s : decklink_consumer)
    (completed_frame : Frame.decklink_frame)
    (result : BMDOutputFrameCompletionResult) (fs : list const_frame) :
  Consumer.new config fd ch dev = Ok tt s ->
  let s' := play (concat (map (round completed_frame result) fs)) s in
  scheduled_video (log_ s')
  = repeat Core.empty (Z.to_nat (buffer_depth config)) ++ fs
  /\ scheduled_blocks (log_ s')
     = (if embedded_audio config then map audio_data fs else [])
  /\ scheduled_audio (log_ s')
     = (if embedded_audio config
        then map (fun f => block_frames fd (audio_data f)) fs else [])
  /\ Tbb.items (video_frame_buffer_ s') = []
  /\ Tbb.items (audio_frame_buffer_ s') = [].
Proof.
  intros Hnew s'.
  destruct (new_between config fd ch dev s Hnew) as (Hb & Ha0 & Hk0).
  destruct (rounds_between config fd completed_frame result fs s Hb)
    as ((_ & _ & _ & _ & Hvi & Hai & _) & Hv & Ha & Hk).
  fold s' in Hvi, Hai, Hv, Ha, Hk.
  rewrite Hv, Ha, Hk, Ha0, Hk0,
    (new_scheduled_video config fd ch dev s Hnew).
  repeat split; assumption.
Qed.

Lemma frames_leave_in_submission_order_witness :
  let s' := play (concat (map (round (Frame.new Core.empty pal false)
                                bmdOutputFrameDisplayedLate)
                            [tone 1; tone 2; tone 3])) pal_engine in
  scheduled_video (log_ s') = repeat Core.empty 5 ++ [tone 1; tone 2; tone 3]
  /\ scheduled_blocks (log_ s')
     = [audio_data (tone 1); audio_data (tone 2); audio_data (tone 3)].
Proof.
  intros s'.
  destruct (frames_leave_in_submission_order default_configuration pal 1
              willing_device pal_engine (Frame.new Core.empty pal false)
              bmdOutputFrameDisplayedLate [tone 1; tone 2; tone 3]
              ltac:(vm_compute; reflexivity)) as (Hv & Hk & _).
  split; [exact Hv | exact Hk].
Defined.

End ConsumerFacts.

(* ------------------------------------------------------------------ *)
(** ** The frame adapter, every mode *)

Module FrameMoreFacts.

Import Core Frame FrameRef Fixtures.

(** What a key-only adapter of an image of the expected size holds:
    nothing yet, or as many bytes as the image. *)
Lemma key_only_after_calls frame fd n :
  Z.of_nat (length (image_data frame)) = size fd ->
  size fd <= MachineInt.INT_MAX ->
  let fr := after_calls n (Frame.new frame fd true) in
  frame_ fr = frame /\ format_desc_ fr = fd /\ key_only_ fr = true
  /\ (data_ fr = [] \/ length (data_ fr) = length (image_data frame)).
Proof.
  intros Hsz Hmax.
  assert (Hgen : forall fr,
             frame_ fr = frame -> format_desc_ fr = fd ->
             key_only_ fr = true ->
             (data_ fr = [] \/ length (data_ fr) = length (image_data frame)) ->
             let fr' := after_calls n fr in
             frame_ fr' = frame /\ format_desc_ fr' = fd
             /\ key_only_ fr' = true
             /\ (data_ fr' = []
                 \/ length (data_ fr') = length (image_data frame))).
  { induction n as [|n IH]; intros fr Hf Hd Hk Hdata; [cbn; auto|].
    cbn [after_calls]. apply IH; unfold GetBytes, image_size;
      rewrite Hf, Hd, Hk;
      (rewrite MachineIntFacts.to_int_id
         by (unfold MachineInt.in_int, MachineInt.INT_MIN,
               MachineInt.INT_MAX in *; lia));
      rewrite (proj2 (Z.eqb_eq _ _) Hsz); cbn [negb];
      destruct (data_ fr) eqn:Ed; cbn [snd frame_ format_desc_ key_only_
                                         data_ set_data];
      try assumption; try reflexivity.
    - right. apply FrameFacts.aligned_memshfl_length,
        VectorFacts.resize_length.
    - rewrite Ed. exact Hdata. }
  apply Hgen; cbn; auto.
Qed.

(** X12.  Whatever the mode and however often it has been called before,
    [GetBytes] on an adapter succeeds and hands out exactly [size] bytes,
    for an image that fits an [int] and a format of non-negative size:
    the blank frame, the shuffled copy or the image itself. *)
Theorem GetBytes_always_hands_out_size_bytes
    (frame : const_frame) (fd : video_format_desc) (key_only : bool)
    (n : nat) :
  0 <= size fd ->
  Z.of_nat (length (image_data frame)) <= MachineInt.INT_MAX ->
  let fr := after_calls n (Frame.new frame fd key_only) in
  fst (fst (GetBytes fr)) = S_OK
  /\ Z.of_nat (length (GetBytes_bytes fr)) = size fd.
Proof.
  intros Hpos Hmax.
  destruct (Z.eq_dec (Z.of_nat (length (image_data frame))) (size fd))
    as [Heq|Hne].
  - destruct key_only.
    + destruct (key_only_after_calls frame fd n Heq ltac:(lia))
        as (Hf & Hd & Hk & Hdata).
      cbv zeta. set (fr := after_calls n (Frame.new frame fd true)) in *.
      unfold GetBytes_bytes, GetBytes, image_size. rewrite Hf, Hd, Hk.
      rewrite MachineIntFacts.to_int_id
        by (unfold MachineInt.in_int, MachineInt.INT_MIN,
              MachineInt.INT_MAX in *; lia).
      rewrite (proj2 (Z.eqb_eq _ _) Heq). cbn [negb].
      destruct (data_ fr) eqn:Ed; cbn [fst snd bytes_at data_ set_data].
      * split; [reflexivity|].
        rewrite FrameFacts.aligned_memshfl_length
          by apply VectorFacts.resize_length. exact Heq.
      * split; [reflexivity|]. rewrite Ed.
        destruct Hdata as [Hdata|Hdata]; [discriminate|].
        rewrite Hdata. exact Heq.
    + assert (Hfix : forall k, after_calls k (Frame.new frame fd false)
                               = Frame.new frame fd false).
      { assert (HG : GetBytes (Frame.new frame fd false)
                     = (S_OK, Some image_ptr, Frame.new frame fd false)).
        { unfold GetBytes, image_size. cbn [frame_ format_desc_ key_only_ new].
          rewrite MachineIntFacts.to_int_id
            by (unfold MachineInt.in_int, MachineInt.INT_MIN,
                  MachineInt.INT_MAX in *; lia).
          now rewrite (proj2 (Z.eqb_eq _ _) Heq). }
        induction k as [|k IH]; [reflexivity|].
        cbn [after_calls]. rewrite HG. exact IH. }
      cbv zeta. rewrite Hfix.
      unfold GetBytes_bytes, GetBytes, image_size.
      cbn [frame_ format_desc_ key_only_ new].
      rewrite MachineIntFacts.to_int_id
        by (unfold MachineInt.in_int, MachineInt.INT_MIN,
              MachineInt.INT_MAX in *; lia).
      rewrite (proj2 (Z.eqb_eq _ _) Heq). cbn. split; [reflexivity|exact Heq].
  - set (fr0 := Frame.new frame fd key_only).
    assert (Hsz0 : MachineInt.to_int (image_size fr0)
                   <> size (format_desc_ fr0)).
    { unfold image_size, fr0. cbn [frame_ format_desc_ new].
      rewrite MachineIntFacts.to_int_id; [exact Hne|].
      unfold MachineInt.in_int, MachineInt.INT_MIN, MachineInt.INT_MAX in *.
      lia. }
    destruct (FrameFacts.after_calls_mismatch fr0 n Hsz0 Hpos
                (or_introl eq_refl)) as (H1 & H2 & _ & _ & H5).
    cbv zeta in *. set (fr := after_calls n fr0) in *.
    assert (Hsz : MachineInt.to_int (image_size fr)
                  <> size (format_desc_ fr))
      by (unfold image_size in *; now rewrite H1, H2).
    assert (Hpos' : 0 <= size (format_desc_ fr)) by now rewrite H2.
    unfold GetBytes_bytes.
    rewrite (FrameFacts.GetBytes_mismatch fr Hsz Hpos' H5).
    cbn [fst snd bytes_at data_ set_data]. rewrite H2.
    split; [reflexivity|]. rewrite repeat_length. unfold fr0.
    cbn [format_desc_ new]. lia.
Qed.

Lemma GetBytes_always_hands_out_size_bytes_witness :
  Z.of_nat
    (length (GetBytes_bytes
               (after_calls 2 (Frame.new two_pixels (format_of_size 8) false))))
  = 8.
Proof.
  apply (GetBytes_always_hands_out_size_bytes two_pixels (format_of_size 8)
           false 2).
  - cbn. lia.
  - vm_compute. discriminate.
Defined.

(** *** Reference counting *)

Lemma add_refs_count n :
  forall fr,
    0 <= ref_count_ fr ->
    ref_count_ fr + Z.of_nat n <= MachineInt.INT_MAX ->
    ref_count_ (add_refs n fr) = ref_count_ fr + Z.of_nat n
    /\ frame_ (add_refs n fr) = frame_ fr
    /\ data_ (add_refs n fr) = data_ fr.
Proof.
  induction n as [|n IH]; intros fr H0 Hmax.
  - cbn [add_refs]. repeat split; lia.
  - cbn [add_refs]. unfold AddRef. cbn [snd].
    assert (E : MachineInt.to_int (ref_count_ fr + 1) = ref_count_ fr + 1).
    { apply MachineIntFacts.to_int_id.
      unfold MachineInt.in_int, MachineInt.INT_MIN, MachineInt.INT_MAX in *.
      lia. }
    rewrite E.
    destruct (IH (set_ref_count (ref_count_ fr + 1) fr))
      as (H1 & H2 & H3); cbn [ref_count_ set_ref_count]; try lia.
    rewrite H1, H2, H3. cbn [ref_count_ frame_ data_ set_ref_count].
    repeat split; lia.
Qed.

Lemma releases_count k :
  forall fr,
    Z.of_nat k < ref_count_ fr <= MachineInt.INT_MAX ->
    exists fr',
      releases k fr = Some fr'
      /\ ref_count_ fr' = ref_count_ fr - Z.of_nat k
      /\ frame_ fr' = frame_ fr
      /\ data_ fr' = data_ fr.
Proof.
  induction k as [|k IH]; intros fr H.
  - exists fr. cbn [releases]. repeat split; lia.
  - cbn [releases]. unfold Release.
    assert (E : MachineInt.to_int (ref_count_ fr - 1) = ref_count_ fr - 1).
    { apply MachineIntFacts.to_int_id.
      unfold MachineInt.in_int, MachineInt.INT_MIN, MachineInt.INT_MAX in *.
      lia. }
    rewrite E. destruct (ref_count_ fr - 1 =? 0) eqn:Ez;
      [apply Z.eqb_eq in Ez; lia|].
    destruct (IH (set_ref_count (ref_count_ fr - 1) fr))
      as (fr' & H1 & H2 & H3 & H4); cbn [ref_count_ set_ref_count]; [lia|].
    exists fr'. cbn [ref_count_ frame_ data_ set_ref_count] in *.
    repeat split; try assumption. lia.
Qed.

(** X13.  An adapter comes out of its constructor with a count of zero.
    After [n] calls of [AddRef] (at least one, fewer than 2^31) the count
    is [n]; any [k < n] calls of [Release] leave the adapter alive with
    count [n - k], frame and buffer untouched, and the [n]-th [Release]
    deletes it. *)
Theorem adapter_is_deleted_by_its_last_release
    (frame : const_frame) (fd : video_format_desc) (key_only : bool)
    (n k : nat) :
  (1 <= n)%nat ->
  Z.of_nat n <= MachineInt.INT_MAX ->
  (k < n)%nat ->
  let fr := add_refs n (Frame.new frame fd key_only) in
  ref_count_ fr = Z.of_nat n
  /\ (exists fr',
        releases k fr = Some fr'
        /\ ref_count_ fr' = Z.of_nat n - Z.of_nat k
        /\ frame_ fr' = frame
        /\ data_ fr' = [])
  /\ releases n fr = None.
Proof.
  intros Hn Hmax Hk fr.
  destruct (add_refs_count n (Frame.new frame fd key_only))
    as (Hc & Hf & Hd); cbn [ref_count_ new]; try lia.
  fold fr in Hc, Hf, Hd. cbn [ref_count_ frame_ data_ new] in Hc, Hf, Hd.
  split; [lia|]. split.
  - destruct (releases_count k fr) as (fr' & H1 & H2 & H3 & H4); [lia|].
    exists fr'. rewrite H2, H3, H4, Hc, Hf, Hd.
    repeat split; try assumption; try lia.
  - destruct n as [|m]; [lia|].
    destruct (releases_count m fr) as (fr' & H1 & H2 & _); [lia|].
    assert (Hsplit : forall j fr0 fr1,
               releases j fr0 = Some fr1 ->
               releases (S j) fr0 = match Release fr1 with
                                    | Some (_, fr2) => Some fr2
                                    | None => None
                                    end).
    { induction j as [|j IH]; intros fr0 fr1 H.
      - injection H as <-. cbn [releases].
        destruct (Release fr0) as [[c fr2]|]; reflexivity.
      - cbn [releases] in H. change (releases (S (S j)) fr0)
          with (match Release fr0 with
                | Some (_, fr') => releases (S j) fr'
                | None => None
                end).
        destruct (Release fr0) as [[c fr2]|]; [|discriminate].
        now apply IH. }
    rewrite (Hsplit m fr fr' H1). unfold Release.
    replace (ref_count_ fr' - 1) with 0 by lia. reflexivity.
Qed.

Lemma adapter_is_deleted_by_its_last_release_witness :
  releases 3 (add_refs 3 (Frame.new two_pixels (format_of_size 8) false))
  = None.
Proof.
  apply (adapter_is_deleted_by_its_last_release two_pixels
           (format_of_size 8) false 3 1).
  - lia.
  - vm_compute. discriminate.
  - lia.
Defined.

End FrameMoreFacts.

(* ------------------------------------------------------------------ *)
(** ** The factories, the proxy and the keyer *)

Module FactoryFacts.

Import Core Consumer Fixtures ConsumerLogic EngineLogic Configured Factory.
Import String.

Local Open Scope string_scope.

Lemma has_flag_permutation flag l l' :
  Permutation.Permutation l l' -> has_flag flag l = has_flag flag l'.
Proof.
  unfold has_flag. induction 1 as [|x l l' _ IH|x y l|l l' l'' _ IH1 _ IH2];
    cbn [existsb].
  - reflexivity.
  - now rewrite IH.
  - now rewrite !orb_assoc, (orb_comm (String.eqb flag y)).
  - now rewrite IH1.
Qed.

(** X14.  A configuration that [create_consumer] builds has embedded audio
    exactly when EMBEDDED_AUDIO is among the parameters, the internal
    keyer whenever INTERNAL_KEY is (whether or not EXTERNAL_KEY is too),
    and a buffer depth of 3, plus one without LOW_LATENCY, plus one with
    EMBEDDED_AUDIO: never below 3, never above 5. *)
Theorem create_consumer_configuration
    (lexical_cast : string -> option Z) (params : list string)
    (config : configuration) :
  create_consumer lexical_cast params = proxy config ->
  hd_error params = Some "DECKLINK"
  /\ embedded_audio config = has_flag "EMBEDDED_AUDIO" params
  /\ key_only config = has_flag "KEY_ONLY" params
  /\ (has_flag "INTERNAL_KEY" params = true -> keyer config = internal_keyer)
  /\ (has_flag "INTERNAL_KEY" params = false ->
      keyer config = (if has_flag "EXTERNAL_KEY" params
                      then external_keyer else default_keyer))
  /\ buffer_depth config
     = (3 + (if has_flag "LOW_LATENCY" params then 0 else 1)
        + (if has_flag "EMBEDDED_AUDIO" params then 1 else 0))%Z
  /\ (3 <= buffer_depth config <= 5)%Z.
Proof.
  unfold create_consumer. destruct params as [|p0 rest]; [discriminate|].
  remember (p0 :: rest) as params eqn:Ep.
  destruct (String.eqb p0 "DECKLINK") eqn:E0; cbn [negb]; [|discriminate].
  apply String.eqb_eq in E0.
  match goal with
  | |- match ?device with Some _ => _ | None => _ end = _ -> _ =>
      destruct device as [d|]; [|discriminate]
  end.
  intros [= <-]. cbn [embedded_audio key_only keyer].
  split; [now subst|]. split; [reflexivity|]. split; [reflexivity|].
  split; [intros H; rewrite H; reflexivity|].
  split; [intros H; rewrite H; reflexivity|].
  unfold buffer_depth.
  cbn [base_buffer_depth latency embedded_audio default_configuration].
  destruct (has_flag "LOW_LATENCY" params),
           (has_flag "EMBEDDED_AUDIO" params);
    cbn [is_low_latency]; vm_compute; repeat split; congruence.
Qed.

Lemma create_consumer_configuration_witness :
  exists config,
    create_consumer (fun _ => Some 2%Z)
      ["DECKLINK"; "2"; "EXTERNAL_KEY"; "INTERNAL_KEY"; "LOW_LATENCY"]
    = proxy config
    /\ keyer config = internal_keyer
    /\ buffer_depth config = 3%Z.
Proof.
  eexists. split; [reflexivity|].
  destruct (create_consumer_configuration (fun _ => Some 2%Z)
              ["DECKLINK"; "2"; "EXTERNAL_KEY"; "INTERNAL_KEY"; "LOW_LATENCY"]
              _ eq_refl) as (_ & _ & _ & Hk & _ & Hb & _).
  split; [apply Hk; reflexivity | exact Hb].
Defined.

(** X15.  Past the name and the device, the order of the parameters does
    not matter to [create_consumer]: it yields the same result for any
    rearrangement of them. *)
Theorem create_consumer_ignores_the_order_of_flags
    (lexical_cast : string -> option Z) (name device : string)
    (flags flags' : list string) :
  Permutation.Permutation flags flags' ->
  create_consumer lexical_cast (name :: device :: flags)
  = create_consumer lexical_cast (name :: device :: flags').
Proof.
  intros HP.
  assert (H : forall flag,
             has_flag flag (name :: device :: flags)
             = has_flag flag (name :: device :: flags')).
  { intros flag. apply has_flag_permutation.
    now do 2 apply Permutation.perm_skip. }
  unfold create_consumer. now rewrite !H.
Qed.

Lemma create_consumer_ignores_the_order_of_flags_witness :
  create_consumer (fun _ => Some 1%Z) ["DECKLINK"; "1"; "KEY_ONLY"; "LOW_LATENCY"]
  = create_consumer (fun _ => Some 1%Z)
      ["DECKLINK"; "1"; "LOW_LATENCY"; "KEY_ONLY"].
Proof.
  apply (create_consumer_ignores_the_order_of_flags (fun _ => Some 1%Z)
           "DECKLINK" "1" ["KEY_ONLY"; "LOW_LATENCY"]
           ["LOW_LATENCY"; "KEY_ONLY"]).
  apply Permutation.perm_swap.
Defined.

(** X16.  [create_preconfigured_consumer] always yields a proxy.  A key
    that is absent falls back: device 1, embedded audio on, key-only off,
    base depth 3, the default keyer, and normal latency (not the default
    latency of the struct).  A keyer other than "external" or "internal"
    gives the default keyer, a latency other than "low" or "normal" the
    default latency; the buffer depth loses its extra frame for "low"
    only. *)
Theorem preconfigured_consumer_falls_back (t : ptree) :
  exists config,
    create_preconfigured_consumer t = proxy config
    /\ (pt_device t = None -> device_index config = 1%Z)
    /\ (pt_embedded_audio t = None -> embedded_audio config = true)
    /\ (pt_key_only t = None -> key_only config = false)
    /\ (pt_buffer_depth t = None -> base_buffer_depth config = 3%Z)
    /\ (pt_keyer t = None -> keyer config = default_keyer)
    /\ (pt_latency t = None -> latency config = normal_latency)
    /\ (forall k, pt_keyer t = Some k -> k <> "external" -> k <> "internal" ->
                  keyer config = default_keyer)
    /\ (forall l, pt_latency t = Some l -> l <> "low" -> l <> "normal" ->
                  latency config = default_latency)
    /\ (is_low_latency (latency config) = true <-> pt_latency t = Some "low").
Proof.
  eexists. split; [reflexivity|].
  cbn [device_index embedded_audio key_only base_buffer_depth keyer latency].
  repeat split.
  - now intros ->.
  - now intros ->.
  - now intros ->.
  - now intros ->.
  - now intros ->.
  - now intros ->.
  - intros k -> H1 H2. cbn [Factory.get].
    apply String.eqb_neq in H1, H2. now rewrite H1, H2.
  - intros l -> H1 H2. cbn [Factory.get].
    apply String.eqb_neq in H1, H2. now rewrite H1, H2.
  - destruct (pt_latency t) as [l|]; cbn [Factory.get]; [|discriminate].
    destruct (String.eqb l "low") eqn:E1.
    + apply String.eqb_eq in E1. now subst.
    + destruct (String.eqb l "normal"); discriminate.
  - intros ->. reflexivity.
Qed.

(** *** The proxy *)

Lemma constructor_settles : settles (fun _ => True) constructor_body.
Proof.
  assert (Hm : forall f, settles (fun _ : unit => True) (modify f))
    by (intro; apply ConsumerFacts.settles_returns,
          ConsumerFacts.returns_modify).
  assert (Hc : forall c, settles (fun _ : HRESULT => True) (call c))
    by (intro; apply ConsumerFacts.settles_returns,
          ConsumerFacts.returns_call).
  assert (Hg : forall A (f : decklink_consumer -> A),
             settles (fun _ => True) (gets f))
    by (intros; apply ConsumerFacts.settles_returns,
          ConsumerFacts.returns_gets).
  assert (Hs : settles (fun _ : unit => True) start_playback).
  { unfold start_playback.
    apply (ConsumerFacts.settles_bind (fun _ => True)); [apply Hg|intro].
    apply (ConsumerFacts.settles_bind (fun _ => True)); [apply Hc|intro].
    apply ConsumerFacts.settles_if;
      [apply ConsumerFacts.settles_throw | now apply ConsumerFacts.settles_ret]. }
  assert (Hw : forall b m, settles (fun _ : unit => True) m ->
                           settles (fun _ : unit => True) (when b m)).
  { intros [] m H; [exact H | now apply ConsumerFacts.settles_ret]. }
  assert (Hr : forall n, settles (fun _ : unit => True)
                           (repeatM n (schedule_next_video Core.empty))).
  { induction n as [|n IH]; cbn [repeatM];
      [now apply ConsumerFacts.settles_ret|].
    apply (ConsumerFacts.settles_bind (fun _ => True));
      [apply ConsumerFacts.settles_returns,
         ConsumerFacts.schedule_next_video_returns | intro; exact IH]. }
  unfold constructor_body, enable_video, enable_audio.
  repeat first
    [ apply Hm | apply Hc | apply Hg | apply Hs | apply Hr
    | apply Hw
    | apply ConsumerFacts.settles_throw
    | apply ConsumerFacts.settles_ret; exact I
    | apply ConsumerFacts.settles_if
    | apply (ConsumerFacts.settles_bind (fun _ => True)); [|intro] ].
Qed.

(** X17.  [initialize] destroys the engine the proxy holds, whatever
    happens next: its running flag is down.  When the new construction
    succeeds the proxy holds the new engine, running, with nothing
    latched, empty slot buffers and its [buffer_depth] empty frames
    scheduled; when it throws the proxy holds no engine at all. *)
Theorem initialize_replaces_or_clears
    (fd : video_format_desc) (ch : Z) (dev : driver)
    (p : decklink_consumer_proxy) :
  let r := initialize fd ch dev p in
  let destroyed := fst (fst r) in
  let err := snd (fst r) in
  let p' := snd r in
  proxy_config_ p' = proxy_config_ p
  /\ (forall old, consumer_ p = Some old ->
        exists d, destroyed = Some d /\ is_running_ d = false)
  /\ (consumer_ p = None -> destroyed = None)
  /\ (forall e, err = Some e -> consumer_ p' = None)
  /\ (err = None ->
        exists s,
          consumer_ p' = Some s
          /\ Consumer.new (proxy_config_ p) fd ch dev = Ok tt s
          /\ is_running_ s = true
          /\ exception_ s = None
          /\ Tbb.items (video_frame_buffer_ s) = []
          /\ Tbb.items (audio_frame_buffer_ s) = []
          /\ scheduled_video (log_ s)
             = repeat Core.empty (Z.to_nat (buffer_depth (proxy_config_ p)))).
Proof.
  cbv zeta. unfold initialize.
  assert (Hnew : (exists s, Consumer.new (proxy_config_ p) fd ch dev = Ok tt s)
                 \/ (exists e s,
                       Consumer.new (proxy_config_ p) fd ch dev = Throw e s)).
  { unfold Consumer.new.
    destruct (MachineInt.to_int
                (buffer_size_ (initial (proxy_config_ p) fd ch dev) + 1) <? 0)%Z;
      [right; eauto|].
    destruct (constructor_settles (initial (proxy_config_ p) fd ch dev))
      as [([] & s & E & _)|(e & s & E)]; [left | right]; eauto. }
  assert (Hd : forall old, is_running_ (state_of (destructor old)) = false).
  { intros old.
    assert (K : preserves (fun s => is_running_ s = false)
                  (_ <- video_try_push Core.empty ;;
                   _ <- audio_try_push Core.empty ;;
                   _ <- call StopScheduledPlayback ;;
                   cfg <- gets config_ ;;
                   when (embedded_audio cfg)
                     (_ <- call DisableAudioOutput ;; ret tt) ;;
                   _ <- call DisableVideoOutput ;;
                   ret tt)).
    { assert (Hk : forall A (m : M A), keeps is_running_ m ->
                     preserves (fun s => is_running_ s = false) m).
      { intros A m Km s Hs. now rewrite Km. }
      apply Hk.
      repeat first
        [ apply ConsumerFacts.keeps_ret | apply ConsumerFacts.keeps_gets
        | apply ConsumerFacts.keeps_when
        | apply ConsumerFacts.keeps_call, ConsumerFacts.beside_is_running
        | apply ConsumerFacts.keeps_video_try_push,
            ConsumerFacts.beside_is_running
        | apply ConsumerFacts.keeps_audio_try_push,
            ConsumerFacts.beside_is_running
        | apply ConsumerFacts.keeps_bind; [|intro] ]. }
    unfold destructor. unfold bind at 1. unfold modify at 1.
    apply K. reflexivity. }
  destruct Hnew as [(s & E)|(e & s & E)]; rewrite E; cbn [fst snd].
  - split; [reflexivity|]. split.
    { intros old ->. eexists. split; [reflexivity | apply Hd]. }
    split; [now intros ->|]. split; [discriminate|]. intros _.
    destruct (ConsumerFacts.new_between _ _ _ _ _ E)
      as ((H1 & H2 & _ & _ & H5 & H6 & _) & _).
    exists s. repeat split; try assumption.
    now apply ConsumerFacts.new_scheduled_video with (fd := fd) (ch := ch)
                                                     (dev := dev).
  - split; [reflexivity|]. split.
    { intros old ->. eexists. split; [reflexivity | apply Hd]. }
    split; [now intros ->|]. split; [reflexivity | discriminate].
Qed.

(** *** The keyer *)

(** X18.  [set_keyer] makes no call for the default keyer.  For the
    internal or external keyer it asks the card whether it supports that
    keying; unless the card answers, successfully, that it does not, it
    enables the keyer (a query that fails does not stop it), in external
    mode exactly for the external keyer; it sets the key level, to 255,
    exactly when the enabling succeeded, and logs the keyer as enabled
    exactly when that succeeded too. *)
Theorem set_keyer_calls (keyer : keyer_t) (c : Keyer.card) :
  let r := Keyer.set_keyer keyer c in
  let query := match keyer with
               | external_keyer => Keyer.GetSupportsExternalKeying
               | _ => Keyer.GetSupportsInternalKeying
               end in
  let ext := match keyer with external_keyer => true | _ => false end in
  let unsupported :=
    SUCCEEDED (Keyer.answer c query) && negb (Keyer.flag c query) in
  (keyer = default_keyer -> r = ([], []))
  /\ (keyer <> default_keyer ->
      hd_error (fst r) = Some query
      /\ (In (Keyer.KeyerEnable ext) (fst r) <-> unsupported = false)
      /\ ~ In (Keyer.KeyerEnable (negb ext)) (fst r)
      /\ (In (Keyer.KeyerSetLevel 255) (fst r)
          <-> unsupported = false
              /\ FAILED (Keyer.answer c (Keyer.KeyerEnable ext)) = false)
      /\ (In Keyer.enabled_internal_keyer (snd r)
          \/ In Keyer.enabled_external_keyer (snd r)
          <-> unsupported = false
              /\ FAILED (Keyer.answer c (Keyer.KeyerEnable ext)) = false
              /\ FAILED (Keyer.answer c (Keyer.KeyerSetLevel 255)) = false)).
Proof.
  cbv zeta. split; [intros ->; reflexivity|]. intros Hk.
  destruct keyer; [| |contradiction]; cbn [Keyer.set_keyer negb];
    unfold Keyer.enable_keyer;
    destruct (SUCCEEDED (Keyer.answer c _)) eqn:Hs; cbn [andb negb];
    try destruct (Keyer.flag c _) eqn:Hf; cbn [negb];
    destruct (FAILED (Keyer.answer c (Keyer.KeyerEnable _))) eqn:He;
    destruct (FAILED (Keyer.answer c (Keyer.KeyerSetLevel 255))) eqn:Hl;
    cbn [fst snd hd_error In];
    repeat split; intros; try discriminate; try tauto;
    try (intuition discriminate); intuition congruence.
Qed.

Lemma set_keyer_calls_witness :
  In (Keyer.KeyerSetLevel 255)
    (fst (Keyer.set_keyer external_keyer
            {| Keyer.answer :=
                 fun q => match q with
                          | Keyer.GetSupportsExternalKeying => E_FAIL
                          | _ => S_OK
                          end;
               Keyer.flag := fun _ => false |})).
Proof.
  destruct (set_keyer_calls external_keyer
              {| Keyer.answer :=
                   fun q => match q with
                            | Keyer.GetSupportsExternalKeying => E_FAIL
                            | _ => S_OK
                            end;
                 Keyer.flag := fun _ => false |}) as (_ & H).
  destruct (H ltac:(discriminate)) as (_ & _ & _ & Hl & _).
  apply Hl. split; reflexivity.
Defined.

End FactoryFacts.
